(** * DisneyLiveDB: a local replica of a remote document store

    A shallow embedding of the [DisneyLiveDB] class (the PouchDB-backed live
    database of the parks API) and of the JavaScript run-time behaviour its
    methods rely on: promises, [async] calls suspended at every [await], and
    the operations that the environment completes later (timers, the file
    system, PouchDB). *)

From stdpp Require Import gmap strings list fin_maps pretty.

Module DisneyLiveDB.

(** ** Documents and stores *)

(** A document as the store keeps it: the revision the remote assigned and
    the payload. The key ([_id]) is the key of the map holding it. *)
Record document := Document { rev : nat; body : string }.

#[global] Instance document_eq_dec : EqDecision document.
Proof. solve_decision. Defined.

Abbreviation store := (gmap string document).
Abbreviation bytes := (list Byte.byte).
Abbreviation disk := (gmap string (list Byte.byte)).

(** Last write wins at revision granularity. *)
Definition newer (incoming current : document) : document :=
  if rev current <? rev incoming then incoming else current.

(** One replication pass from [source] into [target]: every document of the
    source arrives, and for each key the later revision is kept. *)
Definition replicate_into (source target : store) : store :=
  union_with (λ inc cur, Some (newer inc cur)) source target.

(** The documents a pass delivers: those whose arrival changes the target. *)
Definition outstanding (source target : store) : store :=
  filter (λ kv, target !! kv.1 ≠ replicate_into source target !! kv.1) source.

(** The stream format of [pouchdb-replication-stream], kept abstract. *)
Class SnapshotCodec := {
  encode : store → bytes;
  decode : bytes → option store
}.

(** ** Values, failures, promises *)

Inductive value :=
  | VUndefined
  | VOk
  | VDoc (d : document).

Inductive error :=
  | ENOENT (path : string)
  | NotFound (id : string)
  | TypeError
  | BadSnapshot
  | External (what : string).

Inductive outcome :=
  | Fulfilled (v : value)
  | Rejected (e : error).

(** Promises are numbered in allocation order; [None] is a pending one. *)
Abbreviation pid := nat.

(** The receiver ([this]) a PouchDB method is invoked on. *)
Inductive receiver :=
  | ThisLocalDB
  | ThisLiveDB.

(** Operations the environment finishes at some later time. *)
Inductive op :=
  | OpTimer (due : N)
  | OpAccess (path : string)
  | OpLoad (path : string)
  | OpReplicate
  | OpDump (path : string)
  | OpRename (src dst : string)
  | OpGet (this : receiver) (id : string).

(** Where an [async] call is suspended: the code after its [await]. *)
Inductive kont :=
  | KReturn
  | KInit
  | KLoadAndInit_loaded
  | KLoadAndInit_replicated
  | KLoadAndInit_dumped
  | KLoad_accessed (dumpPath : string)
  | KDump_written (dumpPathNew dumpPath : string)
  | KSchedule_delayed
  | KSchedule_inited
  | KSchedule_dumped
  | KGet_inited (id : string).

Record frame := Frame { awaiting : pid; kont_of : kont; result : pid }.

(** What an [async] body does when it stops running. *)
Inductive suspend :=
  | Return (v : value)
  | Throw (e : error)
  | ReturnPromise (p : pid)
  | Await (p : pid) (k : kont).

(** Who invoked a method (bookkeeping only). *)
Inductive caller :=
  | Client
  | Scheduler
  | Internal.

Inductive event :=
  | EvInit (c : caller)
  | EvLoadAndInit
  | EvLoad (c : caller)
  | EvDump (c : caller)
  | EvGet (id : string)
  | EvStart (o : op)
  | EvSynced
  | EvLive
  | EvWake.

Inductive console_line :=
  | Text (s : string)
  | Docs (d : store).

#[global] Instance value_eq_dec : EqDecision value.
Proof. solve_decision. Defined.
#[global] Instance error_eq_dec : EqDecision error.
Proof. solve_decision. Defined.
#[global] Instance outcome_eq_dec : EqDecision outcome.
Proof. solve_decision. Defined.
#[global] Instance receiver_eq_dec : EqDecision receiver.
Proof. solve_decision. Defined.
#[global] Instance op_eq_dec : EqDecision op.
Proof. solve_decision. Defined.
#[global] Instance kont_eq_dec : EqDecision kont.
Proof. solve_decision. Defined.
#[global] Instance frame_eq_dec : EqDecision frame.
Proof. solve_decision. Defined.
#[global] Instance caller_eq_dec : EqDecision caller.
Proof. solve_decision. Defined.
#[global] Instance event_eq_dec : EqDecision event.
Proof. solve_decision. Defined.

(** ** The object and its surroundings *)

Record config := Config { dbName : string; checkpointTime : N }.

Record state := State {
  (* fields of the DisneyLiveDB object *)
  cfg : config;
  synced : bool;
  initPromiseSync : option pid;
  databaseDumpPendingPromise : option pid;
  localDB : store;
  remoteDB : store;
  (* surroundings *)
  files : disk;
  now : N;
  live : nat;
  (* run time *)
  promises : list (option outcome);
  frames : list frame;
  ops : list (pid * op);
  ticks : nat;
  (* bookkeeping *)
  trace : list event;
  console : list console_line
}.

Definition set_synced (v : bool) (s : state) : state :=
  State (cfg s) v (initPromiseSync s) (databaseDumpPendingPromise s)
    (localDB s) (remoteDB s) (files s) (now s) (live s)
    (promises s) (frames s) (ops s) (ticks s) (trace s) (console s).
Definition set_initPromiseSync (v : option pid) (s : state) : state :=
  State (cfg s) (synced s) v (databaseDumpPendingPromise s)
    (localDB s) (remoteDB s) (files s) (now s) (live s)
    (promises s) (frames s) (ops s) (ticks s) (trace s) (console s).
Definition set_databaseDumpPendingPromise (v : option pid) (s : state) : state :=
  State (cfg s) (synced s) (initPromiseSync s) v
    (localDB s) (remoteDB s) (files s) (now s) (live s)
    (promises s) (frames s) (ops s) (ticks s) (trace s) (console s).
Definition set_localDB (v : store) (s : state) : state :=
  State (cfg s) (synced s) (initPromiseSync s) (databaseDumpPendingPromise s)
    v (remoteDB s) (files s) (now s) (live s)
    (promises s) (frames s) (ops s) (ticks s) (trace s) (console s).
Definition set_remoteDB (v : store) (s : state) : state :=
  State (cfg s) (synced s) (initPromiseSync s) (databaseDumpPendingPromise s)
    (localDB s) v (files s) (now s) (live s)
    (promises s) (frames s) (ops s) (ticks s) (trace s) (console s).
Definition set_files (v : disk) (s : state) : state :=
  State (cfg s) (synced s) (initPromiseSync s) (databaseDumpPendingPromise s)
    (localDB s) (remoteDB s) v (now s) (live s)
    (promises s) (frames s) (ops s) (ticks s) (trace s) (console s).
Definition set_now (v : N) (s : state) : state :=
  State (cfg s) (synced s) (initPromiseSync s) (databaseDumpPendingPromise s)
    (localDB s) (remoteDB s) (files s) v (live s)
    (promises s) (frames s) (ops s) (ticks s) (trace s) (console s).
Definition set_live (v : nat) (s : state) : state :=
  State (cfg s) (synced s) (initPromiseSync s) (databaseDumpPendingPromise s)
    (localDB s) (remoteDB s) (files s) (now s) v
    (promises s) (frames s) (ops s) (ticks s) (trace s) (console s).
Definition set_promises (v : list (option outcome)) (s : state) : state :=
  State (cfg s) (synced s) (initPromiseSync s) (databaseDumpPendingPromise s)
    (localDB s) (remoteDB s) (files s) (now s) (live s)
    v (frames s) (ops s) (ticks s) (trace s) (console s).
Definition set_frames (v : list frame) (s : state) : state :=
  State (cfg s) (synced s) (initPromiseSync s) (databaseDumpPendingPromise s)
    (localDB s) (remoteDB s) (files s) (now s) (live s)
    (promises s) v (ops s) (ticks s) (trace s) (console s).
Definition set_ops (v : list (pid * op)) (s : state) : state :=
  State (cfg s) (synced s) (initPromiseSync s) (databaseDumpPendingPromise s)
    (localDB s) (remoteDB s) (files s) (now s) (live s)
    (promises s) (frames s) v (ticks s) (trace s) (console s).
Definition set_ticks (v : nat) (s : state) : state :=
  State (cfg s) (synced s) (initPromiseSync s) (databaseDumpPendingPromise s)
    (localDB s) (remoteDB s) (files s) (now s) (live s)
    (promises s) (frames s) (ops s) v (trace s) (console s).
Definition set_trace (v : list event) (s : state) : state :=
  State (cfg s) (synced s) (initPromiseSync s) (databaseDumpPendingPromise s)
    (localDB s) (remoteDB s) (files s) (now s) (live s)
    (promises s) (frames s) (ops s) (ticks s) v (console s).
Definition set_console (v : list console_line) (s : state) : state :=
  State (cfg s) (synced s) (initPromiseSync s) (databaseDumpPendingPromise s)
    (localDB s) (remoteDB s) (files s) (now s) (live s)
    (promises s) (frames s) (ops s) (ticks s) (trace s) v.

(** ** A state monad for the synchronous stretches of code *)

Definition M (A : Type) : Type := state → A * state.

#[global] Instance M_ret : MRet M := λ A a s, (a, s).
#[global] Instance M_bind : MBind M :=
  λ A B f m s, let r := m s in f (r.1) (r.2).
Definition gets {A} (f : state → A) : M A := λ s, (f s, s).
Definition modify (f : state → state) : M unit := λ s, (tt, f s).

Definition emit (e : event) : M unit :=
  modify (λ s, set_trace (trace s ++ [e]) s).
Definition console_log (l : console_line) : M unit :=
  modify (λ s, set_console (console s ++ [l]) s).

(** A new promise, pending ([None]) or already settled. *)
Definition new_promise (st : option outcome) : M pid :=
  λ s, (length (promises s), set_promises (promises s ++ [st]) s).

(** Settling a promise that is already settled has no effect. *)
Definition settle (p : pid) (o : outcome) : M unit :=
  modify (λ s,
    match promises s !! p with
    | Some None => set_promises (<[p := Some o]> (promises s)) s
    | _ => s
    end).

Definition start (o : op) : M pid :=
  emit (EvStart o);;
  p ← new_promise None;
  modify (λ s, set_ops (ops s ++ [(p, o)]) s);;
  mret p.

Definition park (fs : list frame) : M unit :=
  modify (λ s, set_frames (frames s ++ fs) s).

(** How a synchronous stretch of an [async] call ends: with the outcome of
    the call, or with the call (whose promise is [q]) waiting for a promise. *)
Definition ended (r : suspend) : option outcome :=
  match r with
  | Return v => Some (Fulfilled v)
  | Throw e => Some (Rejected e)
  | ReturnPromise _ | Await _ _ => None
  end.

Definition waits (q : pid) (r : suspend) : list frame :=
  match r with
  | Return _ | Throw _ => []
  | ReturnPromise p => [Frame p KReturn q]
  | Await p k => [Frame p k q]
  end.

(** Calling an [async] function: its body runs up to the first [await], and
    the caller gets the promise of the call. *)
Definition async (body : M suspend) : M pid :=
  r ← body;
  q ← new_promise (ended r);
  park (waits q r);;
  mret q.

(** The end of a later stretch of the call whose promise is [q]. *)
Definition finish (q : pid) (r : suspend) : M unit :=
  match ended r with
  | Some o => settle q o
  | None => park (waits q r)
  end.

(** ** The methods of the class

    Each [async] method is split at its [await]s: the entry runs up to the
    first one, and one definition per [await] holds the code after it, given
    the outcome of the awaited promise. An [await] of a rejected promise
    throws, and outside a [try] that rejects the call. *)

(** [path.join] on names without separators or dot segments. *)
Definition path_join (a b : string) : string := a +:+ "/" +:+ b.

Definition getDumpFilename (c : config) (postfix : string) : string :=
  path_join "localdb" (dbName c +:+ postfix +:+ ".db").

(** [delay(time)]: a promise that a timer fulfils [time] ms from now. *)
Definition delay (time : N) : M pid :=
  async (
    t ← gets now;
    p ← start (OpTimer (t + time));
    mret (ReturnPromise p)).

(** [load()]: probe the snapshot file, and return at once without it. *)
Definition load (c : caller) : M pid :=
  async (
    emit (EvLoad c);;
    dumpPath ← gets (λ s, getDumpFilename (cfg s) "");
    p ← start (OpAccess dumpPath);
    mret (Await p (KLoad_accessed dumpPath))).

Definition load_accessed (dumpPath : string) (o : outcome) : M suspend :=
  match o with
  | Rejected _ => mret (Return VUndefined)
  | Fulfilled _ =>
      console_log (Text "Restoring database from disk...");;
      p ← start (OpLoad dumpPath);
      mret (ReturnPromise p)
  end.

(** [createWriteStream(path)] opens with flag [w]: the file is created or
    emptied. *)
Definition createWriteStream (path : string) : M unit :=
  modify (λ s, set_files (<[path := []]> (files s)) s).

(** [dump()]: a stored pending handle is returned as it is; otherwise the
    store is written to the [_new] file and the handle kept meanwhile. *)
Definition dump (c : caller) : M pid :=
  async (
    emit (EvDump c);;
    pending ← gets databaseDumpPendingPromise;
    match pending with
    | Some p => mret (ReturnPromise p)
    | None =>
        console_log (Text "Dumping database to disk...");;
        dumpPath ← gets (λ s, getDumpFilename (cfg s) "");
        dumpPathNew ← gets (λ s, getDumpFilename (cfg s) "_new");
        createWriteStream dumpPathNew;;
        p ← start (OpDump dumpPathNew);
        modify (set_databaseDumpPendingPromise (Some p));;
        mret (Await p (KDump_written dumpPathNew dumpPath))
    end).

Definition dump_written (dumpPathNew dumpPath : string) (o : outcome)
    : M suspend :=
  match o with
  | Rejected e => mret (Throw e)
  | Fulfilled _ =>
      modify (set_databaseDumpPendingPromise None);;
      p ← start (OpRename dumpPathNew dumpPath);
      mret (ReturnPromise p)
  end.

(** [_loadAndInit()]: restore from disk, replicate once, dump. *)
Definition _loadAndInit : M pid :=
  async (
    emit EvLoadAndInit;;
    p ← load Internal;
    mret (Await p KLoadAndInit_loaded)).

Definition _loadAndInit_loaded (o : outcome) : M suspend :=
  match o with
  | Rejected e => mret (Throw e)
  | Fulfilled _ =>
      console_log (Text "Performing initial replication...");;
      p ← start OpReplicate;
      mret (Await p KLoadAndInit_replicated)
  end.

Definition _loadAndInit_replicated (o : outcome) : M suspend :=
  match o with
  | Rejected e => mret (Throw e)
  | Fulfilled _ =>
      p ← dump Internal;
      mret (Await p KLoadAndInit_dumped)
  end.

Definition _loadAndInit_dumped (o : outcome) : M suspend :=
  match o with
  | Rejected e => mret (Throw e)
  | Fulfilled v => mret (Return v)
  end.

(** [init()] *)
Definition init (c : caller) : M pid :=
  async (
    emit (EvInit c);;
    is_synced ← gets synced;
    if is_synced : bool then mret (Return VUndefined) else
    pending ← gets initPromiseSync;
    match pending with
    | Some p => mret (ReturnPromise p)
    | None =>
        p ← _loadAndInit;
        modify (set_initPromiseSync (Some p));;
        mret (Await p KInit)
    end).

Definition init_awaited (o : outcome) : M suspend :=
  match o with
  | Rejected e => mret (Throw e)
  | Fulfilled _ =>
      modify (set_initPromiseSync None);;
      name ← gets (λ s, dbName (cfg s));
      console_log (Text ("Database " +:+ name +:+ " finished setup!"));;
      modify (set_synced true);;
      emit EvSynced;;
      (* the live replication is started and its handle dropped *)
      emit EvLive;;
      modify (λ s, set_live (S (live s)) s);;
      mret (Return VUndefined)
  end.

(** [_scheduleDBDump()] *)
Definition _scheduleDBDump : M pid :=
  async (
    time ← gets (λ s, checkpointTime (cfg s));
    p ← delay time;
    mret (Await p KSchedule_delayed)).

Definition _scheduleDBDump_delayed (o : outcome) : M suspend :=
  match o with
  | Rejected e => mret (Throw e)
  | Fulfilled _ =>
      emit EvWake;;
      p ← init Scheduler;
      mret (Await p KSchedule_inited)
  end.

Definition _scheduleDBDump_inited (o : outcome) : M suspend :=
  match o with
  | Rejected e => mret (Throw e)
  | Fulfilled _ =>
      p ← dump Scheduler;
      mret (Await p KSchedule_dumped)
  end.

(** [process.nextTick] queues the next round. *)
Definition _scheduleDBDump_dumped (o : outcome) : M suspend :=
  match o with
  | Rejected e => mret (Throw e)
  | Fulfilled _ =>
      modify (λ s, set_ticks (S (ticks s)) s);;
      mret (Return VUndefined)
  end.

(** [get(id)]: the PouchDB method is taken from [this.localDB] and applied
    with [this], the DisneyLiveDB object, as its receiver. *)
Definition get (id : string) : M pid :=
  async (
    emit (EvGet id);;
    p ← init Internal;
    mret (Await p (KGet_inited id))).

Definition get_inited (id : string) (o : outcome) : M suspend :=
  match o with
  | Rejected e => mret (Throw e)
  | Fulfilled _ =>
      p ← start (OpGet ThisLiveDB id);
      mret (Await p KReturn)
  end.

(** The code after an [await], by suspension point. [KReturn] passes the
    outcome of the awaited promise on: it serves [return p], [return await p]
    alike. *)
Definition continue (k : kont) (o : outcome) : M suspend :=
  match k with
  | KReturn =>
      mret (match o with Fulfilled v => Return v | Rejected e => Throw e end)
  | KInit => init_awaited o
  | KLoadAndInit_loaded => _loadAndInit_loaded o
  | KLoadAndInit_replicated => _loadAndInit_replicated o
  | KLoadAndInit_dumped => _loadAndInit_dumped o
  | KLoad_accessed dumpPath => load_accessed dumpPath o
  | KDump_written dumpPathNew dumpPath => dump_written dumpPathNew dumpPath o
  | KSchedule_delayed => _scheduleDBDump_delayed o
  | KSchedule_inited => _scheduleDBDump_inited o
  | KSchedule_dumped => _scheduleDBDump_dumped o
  | KGet_inited id => get_inited id o
  end.

Definition resume (f : frame) (o : outcome) : M unit :=
  r ← continue (kont_of f) o;
  finish (result f) r.

(** ** The environment *)

(** How an operation ends. A failed write leaves [partial] in its file. *)
Inductive completion :=
  | Done
  | Failed (e : error) (partial : bytes).

Section Machine.
Context {codec : SnapshotCodec}.

(** The effect and the outcome of operation [o] ending with [c]; [None]
    where the environment cannot do that (a timer is never early, and never
    fails). A PouchDB method works on the database that is its receiver; the
    DisneyLiveDB object is not one. *)
Definition complete (o : op) (c : completion) (s : state)
    : option (outcome * state) :=
  match o, c with
  | OpTimer due, Done =>
      if decide (due ≤ now s)%N then Some (Fulfilled VUndefined, s) else None
  | OpTimer _, Failed _ _ => None
  | OpAccess path, Done =>
      Some (match files s !! path with
            | Some _ => Fulfilled VUndefined
            | None => Rejected (ENOENT path)
            end, s)
  | OpLoad path, Done =>
      match files s !! path with
      | None => Some (Rejected (ENOENT path), s)
      | Some b =>
          match decode b with
          | None => Some (Rejected BadSnapshot, s)
          | Some snap =>
              Some (Fulfilled VOk,
                    set_localDB (replicate_into snap (localDB s)) s)
          end
      end
  | OpReplicate, Done =>
      Some (Fulfilled VOk,
            set_localDB (replicate_into (remoteDB s) (localDB s)) s)
  | OpDump path, Done =>
      Some (Fulfilled VOk,
            set_files (<[path := encode (localDB s)]> (files s)) s)
  | OpDump path, Failed e partial =>
      Some (Rejected e, set_files (<[path := partial]> (files s)) s)
  | OpRename src dst, Done =>
      match files s !! src with
      | None => Some (Rejected (ENOENT src), s)
      | Some b =>
          Some (Fulfilled VUndefined,
                set_files (<[dst := b]> (delete src (files s))) s)
      end
  | OpGet this id, Done =>
      Some (match this with
            | ThisLiveDB => Rejected TypeError
            | ThisLocalDB =>
                match localDB s !! id with
                | Some d => Fulfilled (VDoc d)
                | None => Rejected (NotFound id)
                end
            end, s)
  | _, Failed e _ => Some (Rejected e, s)
  end.

(** What can happen next: a client calls a public method, a suspended call
    whose awaited promise is settled goes on, a queued tick runs, the
    environment ends an operation, time passes, the remote gets a new
    revision of a document, the live session delivers or fails. *)
Inductive label :=
  | CallInit
  | CallGet (id : string)
  | CallDump
  | CallLoad
  | Resume (i : nat)
  | Tick
  | Complete (i : nat) (c : completion)
  | Advance (dt : N)
  | RemotePut (id : string) (content : string)
  | LiveChange
  | LiveFail (e : error).

Definition exec {A} (m : M A) (s : state) : state := (m s).2.

Definition next_rev (o : option document) : nat :=
  match o with Some d => S (rev d) | None => 1 end.

Definition step (l : label) (s : state) : option state :=
  match l with
  | CallInit => Some (exec (init Client) s)
  | CallGet id => Some (exec (get id) s)
  | CallDump => Some (exec (dump Client) s)
  | CallLoad => Some (exec (load Client) s)
  | Resume i =>
      match frames s !! i with
      | None => None
      | Some f =>
          match promises s !! awaiting f with
          | Some (Some o) =>
              Some (exec (resume f o) (set_frames (delete i (frames s)) s))
          | _ => None
          end
      end
  | Tick =>
      match ticks s with
      | 0 => None
      | S n => Some (exec _scheduleDBDump (set_ticks n s))
      end
  | Complete i c =>
      match ops s !! i with
      | None => None
      | Some (p, o) =>
          match complete o c (set_ops (delete i (ops s)) s) with
          | None => None
          | Some (out, s') => Some (exec (settle p out) s')
          end
      end
  | Advance dt => Some (set_now (now s + dt)%N s)
  | RemotePut id content =>
      Some (set_remoteDB
              (<[id := Document (next_rev (remoteDB s !! id)) content]>
                 (remoteDB s)) s)
  | LiveChange =>
      match live s with
      | 0 => None
      | S _ =>
          Some (set_localDB (replicate_into (remoteDB s) (localDB s))
                  (exec (console_log
                           (Docs (outstanding (remoteDB s) (localDB s)))) s))
      end
  | LiveFail _ =>
      match live s with
      | 0 => None
      | S _ => Some s
      end
  end.

Fixpoint run (ls : list label) (s : state) : option state :=
  match ls with
  | [] => Some s
  | l :: ls =>
      match step l s with
      | None => None
      | Some s' => run ls s'
      end
  end.

End Machine.

(** ** Construction *)

(** The defaults the constructor fills in. *)
Definition defaults (options : config) : config :=
  Config (if decide (dbName options = "") then "wdw" else dbName options)
         (if decide (checkpointTime options = 0%N) then (1000 * 60 * 15)%N
          else checkpointTime options).

(** [new DisneyLiveDB(options)] at time [t], with what the disk and the two
    databases hold then. The constructor starts the dump scheduler. *)
Definition construct (options : config) (d : disk) (l r : store) (t : N)
    : state :=
  exec _scheduleDBDump
    (State (defaults options) false None None l r d t 0 [] [] [] 0 [] []).

End DisneyLiveDB.

(** * The HTTP helper of [lib/parks/http.js] *)

Module HTTP.

(** The fields of the needle options that [mainFunction] reads or writes. A
    field that is not set is [None]. *)
Record options := Options {
  headers : option (gmap string string);
  compressed : option bool;
  ignoreErrors : bool
}.

(** What [new URL(url)] gives and the filters of the injections look at. *)
Record urlFilter := UrlFilter {
  protocol : string;
  host : string;
  hostname : string;
  pathname : string;
  search : string;
  hash : string
}.

Record response := Response {
  statusCode : Z;
  raw : string
}.

Inductive error :=
  | InvalidURL
  | Thrown (what : string).

(** A request injection: the compiled filter, and the function, which may
    change the options and may throw. *)
Record injection := Injection {
  filter : urlFilter → bool;
  func : string → string → string → options → options * option error
}.

(** A response injection: its function gets the response, or [undefined]
    when an injection before it gave none, and returns one, or
    [undefined] to force a retry. *)
Record response_injection := ResponseInjection {
  rfilter : urlFilter → bool;
  rfunc : option response → error + option response
}.

(** What the helper did, in order. *)
Inductive event :=
  | Injected (idx : nat)
  | Requested (o : options)
  | Recorded
  | ResponseInjected (idx : nat).

(** How an attempt ends: with the response, with the call of [retryFn], or
    with something thrown. *)
Inductive attempt_result :=
  | AReturn (r : response)
  | ARetry
  | AThrow (e : error).

(** How the promise of [mainFunction] ends. When the retries are used up
    the promise of [promiseRetry] is rejected with what [retryFn] was called
    with, which is nothing. *)
Inductive outcome :=
  | Resolved (r : response)
  | RejectedWith (e : error)
  | RejectedUndefined.

(** [injectForDomain] and [injectForDomainResponse] add at the end. *)
Definition injectForDomain (f : urlFilter → bool)
    (fn : string → string → string → options → options * option error)
    (injs : list injection) : list injection :=
  injs ++ [Injection f fn].

Definition injectForDomainResponse (f : urlFilter → bool)
    (fn : option response → error + option response)
    (injs : list response_injection) : list response_injection :=
  injs ++ [ResponseInjection f fn].

Section MainFunction.

(** The helper object: its user agent and its injections; what surrounds
    it: the URL parser, needle (which may answer each attempt differently),
    and the HAR writer if there is one. *)
Context (useragent : option string)
        (_httpInjections : list injection)
        (_httpResponseInjections : list response_injection)
        (parse_url : string → option urlFilter)
        (needle : nat → string → string → string → options → error + response)
        (writeToHAR : option (options → response → option error)).

Definition truthy (s : option string) : bool :=
  match s with
  | Some s => negb (String.eqb s EmptyString)
  | None => false
  end.

(** The defaults set before the first attempt. *)
Definition prepare (o : options) : options :=
  let h := default ∅ (headers o) in
  let h :=
    match useragent with
    | Some ua => if truthy useragent then <["user-agent" := ua]> h else h
    | None => h
    end in
  Options (Some h) (Some (default true (compressed o))) (ignoreErrors o).

(** The loop over the request injections, from index [idx] on. *)
Fixpoint run_injections (injs : list injection) (idx : nat) (uf : urlFilter)
    (method url data : string) (o : options) (log : list event)
    : option error * options * list event :=
  match injs with
  | [] => (None, o, log)
  | inj :: injs =>
      if filter inj uf then
        match func inj method url data o with
        | (o', Some e) => (Some e, o', log ++ [Injected idx])
        | (o', None) =>
            run_injections injs (S idx) uf method url data o'
              (log ++ [Injected idx])
        end
      else run_injections injs (S idx) uf method url data o log
  end.

(** The loop over the response injections. *)
Fixpoint run_response_injections (injs : list response_injection)
    (idx : nat) (uf : urlFilter) (resp : option response)
    (log : list event) : (error + option response) * list event :=
  match injs with
  | [] => (inr resp, log)
  | inj :: injs =>
      if rfilter inj uf then
        match rfunc inj resp with
        | inl e => (inl e, log ++ [ResponseInjected idx])
        | inr resp' =>
            run_response_injections injs (S idx) uf resp'
              (log ++ [ResponseInjected idx])
        end
      else run_response_injections injs (S idx) uf resp log
  end.

(** One run of the function given to [promiseRetry]; [number] counts the
    attempts from 1. *)
Definition attempt (number : nat) (uf : urlFilter) (method url data : string)
    (o : options) (log : list event)
    : attempt_result * options * list event :=
  match run_injections _httpInjections 0 uf method url data o log with
  | (Some e, o, log) => (AThrow e, o, log)
  | (None, o, log) =>
      let log := log ++ [Requested o] in
      match needle number method url data o with
      | inl e => (AThrow e, o, log)
      | inr resp =>
          let har :=
            match writeToHAR with
            | Some w => (w o resp, log ++ [Recorded])
            | None => (None, log)
            end in
          match har with
          | (Some e, log) => (AThrow e, o, log)
          | (None, log) =>
              match run_response_injections _httpResponseInjections 0 uf
                      (Some resp) log with
              | (inl e, log) => (AThrow e, o, log)
              | (inr None, log) => (ARetry, o, log)
              | (inr (Some resp), log) =>
                  if negb (ignoreErrors o) && (400 <=? statusCode resp)%Z
                  then (ARetry, o, log)
                  else (AReturn resp, o, log)
              end
          end
      end
  end.

(** [promiseRetry] with [retries] retries left. *)
Fixpoint retrying (retries number : nat) (uf : urlFilter)
    (method url data : string) (o : options) (log : list event)
    : outcome * options * list event :=
  match attempt number uf method url data o log with
  | (AReturn r, o, log) => (Resolved r, o, log)
  | (AThrow e, o, log) => (RejectedWith e, o, log)
  | (ARetry, o, log) =>
      match retries with
      | 0 => (RejectedUndefined, o, log)
      | S retries => retrying retries (S number) uf method url data o log
      end
  end.

Definition mainFunction (method url data : string) (o : options)
    : outcome * options * list event :=
  let o := prepare o in
  match parse_url url with
  | None => (RejectedWith InvalidURL, o, [])
  | Some uf => retrying 3 1 uf method url data o []
  end.

End MainFunction.

(** The requests made, in order. *)
Fixpoint requests (log : list event) : list options :=
  match log with
  | [] => []
  | Requested o :: log => o :: requests log
  | _ :: log => requests log
  end.

(** [f] applied [n] times. *)
Fixpoint iterate {A} (f : A → A) (n : nat) (x : A) : A :=
  match n with
  | 0 => x
  | S n => iterate f n (f x)
  end.

(** ** An example *)

(** An example: a helper with a user agent, whose URLs all parse to the same
    parts; the server refuses the first request and answers the second. *)
Definition demo_url : urlFilter :=
  UrlFilter "https:" "api.example" "api.example" "/parks" EmptyString
    EmptyString.

Definition demo_parse (u : string) : option urlFilter := Some demo_url.

Definition demo_request : options := Options None None false.

Definition demo_refusing (n : nat) (m u d : string) (o : options)
    : error + response :=
  inr (Response 503 "busy").

Definition demo_recovering (n : nat) (m u d : string) (o : options)
    : error + response :=
  inr (Response (if n =? 1 then 503 else 200) "body").

Definition demo_unreachable (n : nat) (m u d : string) (o : options)
    : error + response :=
  inl (Thrown "ECONNREFUSED").

(** A request injection that adds a header, for the host of the example. *)
Definition demo_sign (o : options) : options :=
  Options (Some (<["x-api-key" := "k"]> (default ∅ (headers o))))
    (compressed o) (ignoreErrors o).

Definition demo_injection : injection :=
  Injection (λ uf, String.eqb (hostname uf) "api.example")
    (λ _ _ _ o, (demo_sign o, None)).

(** A request injection that counts the attempts in a header. *)
Definition demo_count (o : options) : options :=
  Options
    (Some (<["x-tries" :=
               default EmptyString (default ∅ (headers o) !! "x-tries")
               +:+ "+"]> (default ∅ (headers o))))
    (compressed o) (ignoreErrors o).

Definition demo_other : injection :=
  Injection (λ uf, String.eqb (hostname uf) "other.example")
    (λ _ _ _ o, (o, Some (Thrown "never run"))).

(** A response injection that returns nothing. *)
Definition demo_forgetful : response_injection :=
  ResponseInjection (λ _, true) (λ _, inr None).

End HTTP.

(** * The entity check of the test script *)

Module TestScript.

(** The values an entity field can have, as far as the check tells them
    apart. *)
Inductive value :=
  | Undefined
  | Null
  | Bool (b : bool)
  | Num (n : Z)
  | Str (s : string).

(** An entity: an object whose fields that are not set read [undefined]. *)
Abbreviation entity := (gmap string value).

Definition field (ent : entity) (name : string) : value :=
  default Undefined (ent !! name).

(** [!v] is false. *)
Definition truthy (v : value) : bool :=
  match v with
  | Undefined | Null => false
  | Bool b => b
  | Num n => negb (n =? 0)%Z
  | Str s => negb (String.eqb s EmptyString)
  end.

(** The string a value is read as, as a property name or in a template. *)
Definition to_string (v : value) : string :=
  match v with
  | Undefined => "undefined"
  | Null => "null"
  | Bool true => "true"
  | Bool false => "false"
  | Num n => pretty n
  | Str s => s
  end.

Inductive error :=
  | EntityError (message : string)
  | TypeError.

Definition _requiredFields : list string :=
  ["timezone"; "_id"; "name"; "entityType"].

(** The names every object inherits from [Object.prototype]. *)
Definition inherited : list string :=
  ["constructor"; "__defineGetter__"; "__defineSetter__"; "hasOwnProperty";
   "__lookupGetter__"; "__lookupSetter__"; "isPrototypeOf";
   "propertyIsEnumerable"; "toString"; "valueOf"; "__proto__";
   "toLocaleString"].

Section EntityTypes.

(** The names of the entity types, from [lib/parks/parkTypes.js]. *)
Context (destination park attraction show restaurant : string).

(** The object literal [requiredFields], entry by entry; a later entry with
    the name of an earlier one takes its place. *)
Definition requiredFields : list (string * list string) :=
  [(destination, _requiredFields ++ ["slug"]);
   (park, _requiredFields ++ ["slug"; "_parentId"; "_destinationId"]);
   (attraction,
    _requiredFields ++ ["_parentId"; "_destinationId"; "attractionType"]);
   (show, _requiredFields ++ ["_parentId"; "_destinationId"]);
   (restaurant, _requiredFields ++ ["_parentId"; "_destinationId"])].

(** [requiredFields[key]]: the last entry of that name, or else what the
    object inherits under that name, which is no list. *)
Fixpoint own (entries : list (string * list string)) (key : string)
    : option (list string) :=
  match entries with
  | [] => None
  | (k, fields) :: entries =>
      match own entries key with
      | Some later => Some later
      | None => if String.eqb k key then Some fields else None
      end
  end.

Definition lookup_required (key : string) : option (option (list string)) :=
  match own requiredFields key with
  | Some fields => Some (Some fields)
  | None => if existsb (String.eqb key) inherited then Some None else None
  end.

(** The loop over the fields. *)
Fixpoint check_fields (ent : entity) (fields : list string) : option error :=
  match fields with
  | [] => None
  | f :: fields =>
      match field ent f with
      | Undefined => Some (EntityError (f +:+ " is required"))
      | _ => check_fields ent fields
      end
  end.

(** [TestEntity(ent)]: [None] when it returns, or what it throws. *)
Definition TestEntity (ent : entity) : option error :=
  if negb (truthy (field ent "entityType"))
  then Some (EntityError "entityType is required")
  else if negb (truthy (field ent "_id"))
  then Some (EntityError "_id is required")
  else
    let entityType := field ent "entityType" in
    match lookup_required (to_string entityType) with
    | None =>
        Some (EntityError ("Invalid entityType: " +:+ to_string entityType))
    | Some None => Some TypeError
    | Some (Some fields) => check_fields ent fields
    end.

End EntityTypes.

(** An example: a park entity with every field of its type. *)
Definition demo_park : entity :=
  list_to_map
    [("_id", Str "park1"); ("entityType", Str "PARK");
     ("name", Str "Park"); ("timezone", Str "Europe/Madrid");
     ("slug", Str "park"); ("_parentId", Str "resort");
     ("_destinationId", Str "resort")].

End TestScript.

Import DisneyLiveDB.

(** * What one call does

    The state after a synchronous stretch, written as the additions it makes
    to the state before it. *)

Definition extend (np : list (option outcome)) (nf : list frame)
    (no : list (pid * op)) (ev : list event) (cl : list console_line)
    (s : state) : state :=
  State (cfg s) (synced s) (initPromiseSync s) (databaseDumpPendingPromise s)
    (localDB s) (remoteDB s) (files s) (now s) (live s)
    (promises s ++ np) (frames s ++ nf) (ops s ++ no) (ticks s)
    (trace s ++ ev) (console s ++ cl).

Definition canonical (s : state) : string := getDumpFilename (cfg s) "".
Definition temporary (s : state) : string := getDumpFilename (cfg s) "_new".

Definition pending (s : state) (p : pid) : Prop := promises s !! p = Some None.
Definition settled (s : state) (p : pid) (o : outcome) : Prop :=
  promises s !! p = Some (Some o).

Definition owners (s : state) : list pid :=
  (result <$> frames s) ++ (fst <$> ops s).

(** Every suspended call and every operation in flight owns one pending
    promise, which nothing else settles. [X] lists promises that are pending
    and for the moment without an owner. *)
Definition wfx (X : list pid) (s : state) : Prop :=
  NoDup (X ++ owners s) ∧ ∀ p, p ∈ X ++ owners s → pending s p.

Definition wf (s : state) : Prop := wfx [] s.

(** A property of the state that a computation maintains. *)
Definition keeps (I : state → Prop) {A} (m : M A) : Prop :=
  ∀ s, I s → I (m s).2.

(** A property that no synchronous stretch undoes: it survives new and
    newly settled promises, new calls and new operations, and does not look
    at the rest of the state. *)
Record monotone (I : state → Prop) : Prop := Monotone {
  mono_same : ∀ s s',
    promises s' = promises s → frames s' = frames s → ops s' = ops s →
    I s → I s';
  mono_promise : ∀ s st, I s → I (exec (new_promise st) s);
  mono_settle : ∀ s q o, I s → I (exec (settle q o) s);
  mono_park : ∀ s fs, I s → I (exec (park fs) s);
  mono_op : ∀ s x, I s → I (set_ops (ops s ++ [x]) s)
}.

(** The state a step starts from once the call or the operation that takes
    it has left its list. *)
Definition base (l : label) (s : state) : state :=
  match l with
  | Resume i => set_frames (delete i (frames s)) s
  | Complete i _ => set_ops (delete i (ops s)) s
  | _ => s
  end.

(** How many suspended calls wait at the points [P] selects. *)
Fixpoint count_k (P : kont → bool) (l : list frame) : nat :=
  match l with
  | [] => 0
  | f :: l => (if P (kont_of f) then 1 else 0) + count_k P l
  end.

Definition is_dump_written (k : kont) : bool :=
  match k with KDump_written _ _ => true | _ => false end.

Definition is_init (k : kont) : bool :=
  match k with KInit => true | _ => false end.

Definition is_loadAndInit (k : kont) : bool :=
  match k with
  | KLoadAndInit_loaded | KLoadAndInit_replicated | KLoadAndInit_dumped =>
      true
  | _ => false
  end.

(** The dump handle and the calls and operations it stands for. *)
Record dump_inv (s : state) : Prop := DumpInv {
  di_frame : ∀ f a b,
    f ∈ frames s → kont_of f = KDump_written a b →
    databaseDumpPendingPromise s = Some (awaiting f)
    ∧ a = temporary s ∧ b = canonical s;
  di_count : count_k is_dump_written (frames s) ≤ 1;
  di_op : ∀ p path,
    (p, OpDump path) ∈ ops s →
    databaseDumpPendingPromise s = Some p ∧ path = temporary s;
  di_alloc : ∀ p,
    databaseDumpPendingPromise s = Some p → p < length (promises s);
  di_rename : ∀ p a b,
    (p, OpRename a b) ∈ ops s → a = temporary s ∧ b = canonical s
}.

(** A rejected [await] rejects the call, except under the [try] of [load]. *)
Definition catches (k : kont) : bool :=
  match k with KLoad_accessed _ => true | _ => false end.

(** What a call that only hands an outcome on makes of it. *)
Definition passed (k : kont) (o : outcome) : outcome :=
  match k, o with
  | KInit, Fulfilled _ => Fulfilled VUndefined
  | _, _ => o
  end.

(** The suspension points that hand the awaited outcome on. *)
Definition transparent (k : kont) : bool :=
  match k with
  | KReturn | KInit | KLoadAndInit_dumped => true
  | _ => false
  end.

(** The promise [q] of a call suspended at [k] on [p] gets the outcome of
    [p], or has got it. *)
Definition follows (k : kont) (s : state) (q p : pid) : Prop :=
  (pending s q ∧ Frame p k q ∈ frames s)
  ∨ (∃ o, settled s p o ∧ settled s q (passed k o)).

(** The promise [q] is rejected with [e], or will be: the call that owns it
    waits, outside a [try], for one that is. *)
Inductive doomed (s : state) (e : error) : pid → Prop :=
  | doomed_now q : settled s q (Rejected e) → doomed s e q
  | doomed_wait f :
      f ∈ frames s → catches (kont_of f) = false →
      pending s (result f) → doomed s e (awaiting f) →
      doomed s e (result f).

(** How many events of a trace [P] selects. *)
Fixpoint count_ev (P : event → bool) (t : list event) : nat :=
  match t with
  | [] => 0
  | e :: t => (if P e then 1 else 0) + count_ev P t
  end.

Definition is_write (e : event) : bool :=
  match e with EvStart (OpDump _) => true | _ => false end.
Definition is_rename (e : event) : bool :=
  match e with EvStart (OpRename _ _) => true | _ => false end.
Definition is_replicate (e : event) : bool :=
  match e with EvStart OpReplicate => true | _ => false end.

(** The writes and the renames begun so far. *)
Definition writes (s : state) : nat := count_ev is_write (trace s).
Definition renames (s : state) : nat := count_ev is_rename (trace s).

(** The dump handle holds a rejected promise. *)
Definition stuck (s : state) (p : pid) (e : error) : Prop :=
  databaseDumpPendingPromise s = Some p ∧ settled s p (Rejected e).



(** [n] calls of a method in a row, none of them resumed in between. *)
Fixpoint calls (n : nat) (m : M pid) : M (list pid) :=
  match n with
  | 0 => mret []
  | S n => q ← m; qs ← calls n m; mret (q :: qs)
  end.


Definition reachable {codec : SnapshotCodec} (s : state) : Prop :=
  ∃ options d l r t ls, run ls (construct options d l r t) = Some s.

(** The init handle and the calls it stands for. *)
Record init_inv (s : state) : Prop := InitInv {
  ii_init : ∀ f,
    f ∈ frames s → kont_of f = KInit →
    initPromiseSync s = Some (awaiting f);
  ii_lai : ∀ f,
    f ∈ frames s → is_loadAndInit (kont_of f) = true →
    initPromiseSync s = Some (result f);
  ii_synced : ∀ p, initPromiseSync s = Some p → synced s = false;
  ii_count : count_k is_init (frames s) ≤ 1;
  ii_alloc : ∀ p, initPromiseSync s = Some p → p < length (promises s)
}.

Definition is_pipeline (e : event) : bool :=
  match e with
  | EvLoadAndInit | EvLoad Internal | EvStart OpReplicate | EvDump Internal
  | EvSynced | EvLive => true
  | _ => false
  end.

(** What the first [init()] does, in the order it does it. *)
Definition pipeline : list event :=
  [EvLoadAndInit; EvLoad Internal; EvStart OpReplicate; EvDump Internal;
   EvSynced; EvLive].

Definition pipeline_of (t : list event) : list event :=
  List.filter is_pipeline t.

(** How far the first [init()] has come, [k] steps into [pipeline]. *)
Record stage_ok (k : nat) (s : state) : Prop := StageOk {
  so_synced : synced s = true → k = 6;
  so_cold : synced s = false → initPromiseSync s = None → k = 0;
  so_busy : ∀ p, initPromiseSync s = Some p → 2 ≤ k ≤ 4;
  so_loaded : ∀ f,
    f ∈ frames s → kont_of f = KLoadAndInit_loaded → k = 2;
  so_replicated : ∀ f,
    f ∈ frames s → kont_of f = KLoadAndInit_replicated → k = 3;
  so_dumped : ∀ f,
    f ∈ frames s → kont_of f = KLoadAndInit_dumped → k = 4;
  so_done : ∀ p v,
    initPromiseSync s = Some p → settled s p (Fulfilled v) → k = 4;
  so_owner : ∀ p,
    initPromiseSync s = Some p → pending s p →
    ∃ f, f ∈ frames s ∧ is_loadAndInit (kont_of f) = true ∧ result f = p
}.

Definition staged (s : state) : Prop :=
  ∃ k, pipeline_of (trace s) = take k pipeline ∧ stage_ok k s.

(** The init handle holds a rejected promise. *)
Definition failed (s : state) (p : pid) (e : error) : Prop :=
  initPromiseSync s = Some p ∧ settled s p (Rejected e).

(** Fulfilled alike, or rejected with the same error. *)
Definition same_outcome (o1 o2 : outcome) : Prop :=
  match o1, o2 with
  | Fulfilled _, Fulfilled _ => True
  | Rejected e1, Rejected e2 => e1 = e2
  | _, _ => False
  end.

(** Two states that differ in bookkeeping only. *)
Definition alike (s s' : state) : Prop :=
  cfg s' = cfg s ∧ synced s' = synced s
  ∧ initPromiseSync s' = initPromiseSync s
  ∧ databaseDumpPendingPromise s' = databaseDumpPendingPromise s
  ∧ promises s' = promises s ∧ frames s' = frames s ∧ ops s' = ops s
  ∧ pipeline_of (trace s') = pipeline_of (trace s).

(** A replication pass in flight is awaited by [_loadAndInit]. *)
Definition repl_inv (s : state) : Prop :=
  ∀ p, (p, OpReplicate) ∈ ops s →
       ∃ h, Frame p KLoadAndInit_replicated h ∈ frames s.

(** The init handle holds a promise that is rejected with [e], or will be. *)
Definition rejecting (s : state) (h : pid) (e : error) : Prop :=
  initPromiseSync s = Some h ∧ doomed s e h.


(** The invariants together. *)
Definition sound (s : state) : Prop :=
  wf s ∧ dump_inv s ∧ init_inv s ∧ staged s.

Definition replicates (s : state) : nat := count_ev is_replicate (trace s).

Definition is_loadAndInit_call (e : event) : bool :=
  match e with EvLoadAndInit => true | _ => false end.

Definition syncs (s : state) : nat :=
  count_ev is_loadAndInit_call (trace s).


(** What the dump scheduler does: it wakes, calls [init()], calls [dump()]. *)
Definition is_sched (e : event) : bool :=
  match e with
  | EvWake | EvInit Scheduler | EvDump Scheduler => true
  | _ => false
  end.

Definition sched_of (t : list event) : list event := List.filter is_sched t.









(** ** Examples *)

(** A snapshot format for the examples: one line for each document, with
    its id, its revision in unary and its body, separated by tabs. *)
Definition encode_line (kv : string * document) : bytes :=
  String.list_byte_of_string kv.1 ++ [Byte.x09]
  ++ replicate (rev kv.2) Byte.x2b ++ [Byte.x09]
  ++ String.list_byte_of_string (body kv.2) ++ [Byte.x0a].

(** [split_at sep bs []] cuts [bs] at every [sep]; what follows the last
    [sep] is dropped. *)
Fixpoint split_at (sep : Byte.byte) (bs acc : bytes) : list bytes :=
  match bs with
  | [] => []
  | b :: bs =>
      if Byte.eqb b sep then reverse acc :: split_at sep bs []
      else split_at sep bs (b :: acc)
  end.

Definition decode_line (line : bytes) : option (string * document) :=
  match split_at Byte.x09 (line ++ [Byte.x09]) [] with
  | [id; r; b] =>
      if forallb (Byte.eqb Byte.x2b) r
      then Some (String.string_of_list_byte id,
                 Document (length r) (String.string_of_list_byte b))
      else None
  | _ => None
  end.

Definition line_encode (m : store) : bytes :=
  concat (encode_line <$> map_to_list m).

Definition line_decode (bs : bytes) : option store :=
  list_to_map <$> mapM decode_line (split_at Byte.x0a bs []).

Definition line_codec : SnapshotCodec :=
  {| encode := line_encode; decode := line_decode |}.

(** The state a run leads to, for runs that are possible. *)
Definition demo_run (ls : list label) (s : state) : state :=
  default s (run (codec := line_codec) ls s).

(** A remote with two documents, and a new store with the default options,
    an empty local database and no snapshot on disk. *)
Definition demo_remote : store :=
  {[ "A" := Document 1 "OPERATING"; "B" := Document 1 "CLOSED" ]}.

Definition demo_options : config := Config EmptyString 0.

Definition demo_new : state := construct demo_options ∅ ∅ demo_remote 0.

(** A client calls [init()], and the synchronisation runs to its end. *)
Definition demo_sync : list label :=
  [CallInit; Complete 1 Done; Resume 2; Resume 2; Complete 1 Done; Resume 3;
   Complete 1 Done; Resume 3; Complete 1 Done; Resume 4; Resume 3; Resume 2].

Definition demo_synced : state := demo_run demo_sync demo_new.

(** Three calls of [init()] in a row, and the synchronisation they share. *)
Definition demo_inits_run : list label :=
  [Complete 1 Done; Resume 2; Resume 2; Complete 1 Done; Resume 5;
   Complete 1 Done; Resume 5; Complete 1 Done; Resume 6; Resume 5; Resume 2;
   Resume 2; Resume 2].

Definition demo_inits : state :=
  demo_run demo_inits_run (calls 3 (init Client) demo_new).2.

(** The replication of the first [init()] is in flight, then fails. *)
Definition demo_replicating : state :=
  demo_run [CallInit; Complete 1 Done; Resume 2; Resume 2] demo_new.

Definition demo_offline : state :=
  demo_run [Complete 1 (Failed (External "offline") [])] demo_replicating.

Definition demo_unsynced : state := demo_run [Resume 3; Resume 2] demo_offline.

(** A dump of the synced store whose write fails on a full disk. *)
Definition demo_dumping : state := demo_run [CallDump] demo_synced.

Definition demo_disk_full : state :=
  demo_run [Complete 1 (Failed (External "ENOSPC") [Byte.x41])] demo_dumping.

Definition demo_dump_failed : state := demo_run [Resume 2] demo_disk_full.










(** The remote some time later, and the store started again on the disk the
    synced store left. *)
Definition demo_later : store :=
  {[ "A" := Document 2 "DOWN"; "B" := Document 1 "CLOSED";
     "C" := Document 1 "OPERATING" ]}.

Definition demo_restarted : state :=
  construct demo_options (files demo_synced) ∅ demo_later 0.

Ltac run_sym :=
  cbv [exec init get dump load delay _loadAndInit _scheduleDBDump resume
    continue init_awaited _loadAndInit_loaded _loadAndInit_replicated
    _loadAndInit_dumped load_accessed dump_written _scheduleDBDump_delayed
    _scheduleDBDump_inited _scheduleDBDump_dumped get_inited async finish
    ended waits start park emit console_log createWriteStream new_promise
    gets modify mbind M_bind mret M_ret fst snd set_synced
    set_initPromiseSync set_databaseDumpPendingPromise set_localDB
    set_remoteDB set_files set_now set_live set_promises set_frames set_ops
    set_ticks set_trace set_console extend canonical temporary cfg synced
    initPromiseSync databaseDumpPendingPromise localDB remoteDB files now
    live promises frames ops ticks trace console awaiting kont_of result];
  rewrite ?length_app; cbn [length Nat.add];
  rewrite <- ?app_assoc; cbn [app];
  rewrite ?Nat.add_1_r, ?Nat.add_succ_r, ?Nat.add_0_r, ?app_nil_r.

Section Summaries.

Implicit Types (s : state) (c : caller) (p q : pid) (o : outcome).


Lemma load_run c s :
  let n := length (promises s) in
  load c s =
    (S n, extend [None; None] [Frame n (KLoad_accessed (canonical s)) (S n)]
            [(n, OpAccess (canonical s))]
            [EvLoad c; EvStart (OpAccess (canonical s))] [] s).
Proof. destruct s. run_sym. reflexivity. Qed.

Lemma dump_run_join c s p :
  databaseDumpPendingPromise s = Some p →
  let n := length (promises s) in
  dump c s = (n, extend [None] [Frame p KReturn n] [] [EvDump c] [] s).
Proof.
  destruct s; cbn [databaseDumpPendingPromise]. intros ->.
  run_sym. reflexivity.
Qed.

Lemma dump_run_start c s :
  databaseDumpPendingPromise s = None →
  let n := length (promises s) in
  dump c s =
    (S n,
     set_databaseDumpPendingPromise (Some n)
       (set_files (<[temporary s := []]> (files s))
          (extend [None; None]
             [Frame n (KDump_written (temporary s) (canonical s)) (S n)]
             [(n, OpDump (temporary s))]
             [EvDump c; EvStart (OpDump (temporary s))]
             [Text "Dumping database to disk..."] s))).
Proof.
  destruct s; cbn [databaseDumpPendingPromise]. intros ->.
  run_sym. reflexivity.
Qed.

Lemma _loadAndInit_run s :
  let n := length (promises s) in
  _loadAndInit s =
    (S (S n),
     extend [None; None; None]
       [Frame n (KLoad_accessed (canonical s)) (S n);
        Frame (S n) KLoadAndInit_loaded (S (S n))]
       [(n, OpAccess (canonical s))]
       [EvLoadAndInit; EvLoad Internal; EvStart (OpAccess (canonical s))]
       [] s).
Proof. destruct s. run_sym. reflexivity. Qed.

Lemma init_run_synced c s :
  synced s = true →
  init c s =
    (length (promises s),
     extend [Some (Fulfilled VUndefined)] [] [] [EvInit c] [] s).
Proof. destruct s; cbn [synced]. intros ->. run_sym. reflexivity. Qed.

Lemma init_run_join c s p :
  synced s = false → initPromiseSync s = Some p →
  let n := length (promises s) in
  init c s = (n, extend [None] [Frame p KReturn n] [] [EvInit c] [] s).
Proof.
  destruct s; cbn [synced initPromiseSync]. intros -> ->.
  run_sym. reflexivity.
Qed.

Lemma init_run_cold c s :
  synced s = false → initPromiseSync s = None →
  let n := length (promises s) in
  init c s =
    (S (S (S n)),
     set_initPromiseSync (Some (S (S n)))
       (extend [None; None; None; None]
          [Frame n (KLoad_accessed (canonical s)) (S n);
           Frame (S n) KLoadAndInit_loaded (S (S n));
           Frame (S (S n)) KInit (S (S (S n)))]
          [(n, OpAccess (canonical s))]
          [EvInit c; EvLoadAndInit; EvLoad Internal;
           EvStart (OpAccess (canonical s))]
          [] s)).
Proof.
  destruct s; cbn [synced initPromiseSync]. intros -> ->.
  run_sym. reflexivity.
Qed.

Lemma _scheduleDBDump_run s :
  let n := length (promises s) in
  let due := (now s + checkpointTime (cfg s))%N in
  _scheduleDBDump s =
    (S (S n),
     extend [None; None; None]
       [Frame n KReturn (S n); Frame (S n) KSchedule_delayed (S (S n))]
       [(n, OpTimer due)] [EvStart (OpTimer due)] [] s).
Proof. destruct s. run_sym. reflexivity. Qed.

Lemma get_run_synced id s :
  synced s = true →
  let n := length (promises s) in
  get id s =
    (S n, extend [Some (Fulfilled VUndefined); None]
            [Frame n (KGet_inited id) (S n)] []
            [EvGet id; EvInit Internal] [] s).
Proof. destruct s; cbn [synced]. intros ->. run_sym. reflexivity. Qed.

Lemma get_run_join id s p :
  synced s = false → initPromiseSync s = Some p →
  let n := length (promises s) in
  get id s =
    (S n, extend [None; None]
            [Frame p KReturn n; Frame n (KGet_inited id) (S n)] []
            [EvGet id; EvInit Internal] [] s).
Proof.
  destruct s; cbn [synced initPromiseSync]. intros -> ->.
  run_sym. reflexivity.
Qed.

Lemma get_run_cold id s :
  synced s = false → initPromiseSync s = None →
  let n := length (promises s) in
  get id s =
    (S (S (S (S n))),
     set_initPromiseSync (Some (S (S n)))
       (extend [None; None; None; None; None]
          [Frame n (KLoad_accessed (canonical s)) (S n);
           Frame (S n) KLoadAndInit_loaded (S (S n));
           Frame (S (S n)) KInit (S (S (S n)));
           Frame (S (S (S n))) (KGet_inited id) (S (S (S (S n))))]
          [(n, OpAccess (canonical s))]
          [EvGet id; EvInit Internal; EvLoadAndInit; EvLoad Internal;
           EvStart (OpAccess (canonical s))]
          [] s)).
Proof.
  destruct s; cbn [synced initPromiseSync]. intros -> ->.
  run_sym. reflexivity.
Qed.

Lemma resume_throw f e s :
  catches (kont_of f) = false →
  exec (resume f (Rejected e)) s = exec (settle (result f) (Rejected e)) s.
Proof. destruct f as [a [] q]; try discriminate; reflexivity. Qed.

Lemma resume_KReturn a q v s :
  exec (resume (Frame a KReturn q) (Fulfilled v)) s
  = exec (settle q (Fulfilled v)) s.
Proof. reflexivity. Qed.

Lemma resume_KInit a q v s :
  exec (resume (Frame a KInit q) (Fulfilled v)) s
  = exec (settle q (Fulfilled VUndefined))
      (set_live (S (live s))
         (set_synced true
            (set_initPromiseSync None
               (set_console
                  (console s ++ [Text ("Database " +:+ dbName (cfg s)
                                       +:+ " finished setup!")])
                  (set_trace (trace s ++ [EvSynced; EvLive]) s))))).
Proof. destruct s. run_sym. reflexivity. Qed.

Lemma resume_KLoadAndInit_loaded a q v s :
  let n := length (promises s) in
  exec (resume (Frame a KLoadAndInit_loaded q) (Fulfilled v)) s
  = extend [None] [Frame n KLoadAndInit_replicated q] [(n, OpReplicate)]
      [EvStart OpReplicate] [Text "Performing initial replication..."] s.
Proof. destruct s. run_sym. reflexivity. Qed.

Lemma resume_KLoadAndInit_replicated_join a q v s p :
  databaseDumpPendingPromise s = Some p →
  let n := length (promises s) in
  exec (resume (Frame a KLoadAndInit_replicated q) (Fulfilled v)) s
  = extend [None] [Frame p KReturn n; Frame n KLoadAndInit_dumped q] []
      [EvDump Internal] [] s.
Proof.
  destruct s; cbn [databaseDumpPendingPromise]. intros ->.
  run_sym. reflexivity.
Qed.

Lemma resume_KLoadAndInit_replicated_start a q v s :
  databaseDumpPendingPromise s = None →
  let n := length (promises s) in
  exec (resume (Frame a KLoadAndInit_replicated q) (Fulfilled v)) s
  = set_databaseDumpPendingPromise (Some n)
      (set_files (<[temporary s := []]> (files s))
         (extend [None; None]
            [Frame n (KDump_written (temporary s) (canonical s)) (S n);
             Frame (S n) KLoadAndInit_dumped q]
            [(n, OpDump (temporary s))]
            [EvDump Internal; EvStart (OpDump (temporary s))]
            [Text "Dumping database to disk..."] s)).
Proof.
  destruct s; cbn [databaseDumpPendingPromise]. intros ->.
  run_sym. reflexivity.
Qed.

Lemma resume_KLoadAndInit_dumped a q v s :
  exec (resume (Frame a KLoadAndInit_dumped q) (Fulfilled v)) s
  = exec (settle q (Fulfilled v)) s.
Proof. reflexivity. Qed.

Lemma resume_KLoad_accessed_present a q path v s :
  let n := length (promises s) in
  exec (resume (Frame a (KLoad_accessed path) q) (Fulfilled v)) s
  = extend [None] [Frame n KReturn q] [(n, OpLoad path)]
      [EvStart (OpLoad path)] [Text "Restoring database from disk..."] s.
Proof. destruct s. run_sym. reflexivity. Qed.

Lemma resume_KLoad_accessed_absent a q path e s :
  exec (resume (Frame a (KLoad_accessed path) q) (Rejected e)) s
  = exec (settle q (Fulfilled VUndefined)) s.
Proof. reflexivity. Qed.

Lemma resume_KDump_written a q new old v s :
  let n := length (promises s) in
  exec (resume (Frame a (KDump_written new old) q) (Fulfilled v)) s
  = set_databaseDumpPendingPromise None
      (extend [None] [Frame n KReturn q] [(n, OpRename new old)]
         [EvStart (OpRename new old)] [] s).
Proof. destruct s. run_sym. reflexivity. Qed.

Lemma resume_KSchedule_delayed_synced a q v s :
  synced s = true →
  let n := length (promises s) in
  exec (resume (Frame a KSchedule_delayed q) (Fulfilled v)) s
  = extend [Some (Fulfilled VUndefined)] [Frame n KSchedule_inited q] []
      [EvWake; EvInit Scheduler] [] s.
Proof. destruct s; cbn [synced]. intros ->. run_sym. reflexivity. Qed.

Lemma resume_KSchedule_delayed_join a q v s p :
  synced s = false → initPromiseSync s = Some p →
  let n := length (promises s) in
  exec (resume (Frame a KSchedule_delayed q) (Fulfilled v)) s
  = extend [None] [Frame p KReturn n; Frame n KSchedule_inited q] []
      [EvWake; EvInit Scheduler] [] s.
Proof.
  destruct s; cbn [synced initPromiseSync]. intros -> ->.
  run_sym. reflexivity.
Qed.

Lemma resume_KSchedule_delayed_cold a q v s :
  synced s = false → initPromiseSync s = None →
  let n := length (promises s) in
  exec (resume (Frame a KSchedule_delayed q) (Fulfilled v)) s
  = set_initPromiseSync (Some (S (S n)))
      (extend [None; None; None; None]
         [Frame n (KLoad_accessed (canonical s)) (S n);
          Frame (S n) KLoadAndInit_loaded (S (S n));
          Frame (S (S n)) KInit (S (S (S n)));
          Frame (S (S (S n))) KSchedule_inited q]
         [(n, OpAccess (canonical s))]
         [EvWake; EvInit Scheduler; EvLoadAndInit; EvLoad Internal;
          EvStart (OpAccess (canonical s))]
         [] s).
Proof.
  destruct s; cbn [synced initPromiseSync]. intros -> ->.
  run_sym. reflexivity.
Qed.

Lemma resume_KSchedule_inited_join a q v s p :
  databaseDumpPendingPromise s = Some p →
  let n := length (promises s) in
  exec (resume (Frame a KSchedule_inited q) (Fulfilled v)) s
  = extend [None] [Frame p KReturn n; Frame n KSchedule_dumped q] []
      [EvDump Scheduler] [] s.
Proof.
  destruct s; cbn [databaseDumpPendingPromise]. intros ->.
  run_sym. reflexivity.
Qed.

Lemma resume_KSchedule_inited_start a q v s :
  databaseDumpPendingPromise s = None →
  let n := length (promises s) in
  exec (resume (Frame a KSchedule_inited q) (Fulfilled v)) s
  = set_databaseDumpPendingPromise (Some n)
      (set_files (<[temporary s := []]> (files s))
         (extend [None; None]
            [Frame n (KDump_written (temporary s) (canonical s)) (S n);
             Frame (S n) KSchedule_dumped q]
            [(n, OpDump (temporary s))]
            [EvDump Scheduler; EvStart (OpDump (temporary s))]
            [Text "Dumping database to disk..."] s)).
Proof.
  destruct s; cbn [databaseDumpPendingPromise]. intros ->.
  run_sym. reflexivity.
Qed.

Lemma resume_KSchedule_dumped a q v s :
  exec (resume (Frame a KSchedule_dumped q) (Fulfilled v)) s
  = exec (settle q (Fulfilled VUndefined)) (set_ticks (S (ticks s)) s).
Proof. destruct s. reflexivity. Qed.

Lemma resume_KGet_inited a q id v s :
  let n := length (promises s) in
  exec (resume (Frame a (KGet_inited id) q) (Fulfilled v)) s
  = extend [None] [Frame n KReturn q] [(n, OpGet ThisLiveDB id)]
      [EvStart (OpGet ThisLiveDB id)] [] s.
Proof. destruct s. run_sym. reflexivity. Qed.

(** Settling a pending promise writes its slot and nothing else. *)
Lemma settle_pending p o s :
  pending s p →
  exec (settle p o) s = set_promises (<[p := Some o]> (promises s)) s.
Proof. unfold pending, exec, settle, modify. cbn. intros ->. reflexivity. Qed.

End Summaries.

(** * Ownership of promises *)

Section Keeps.
Context (I : state → Prop).

Lemma keeps_ret {A} (a : A) : keeps I (mret a).
Proof. intros s H. exact H. Qed.

Lemma keeps_bind {A B} (m : M A) (f : A → M B) :
  keeps I m → (∀ a, keeps I (f a)) → keeps I (m ≫= f).
Proof. intros Hm Hf s H. cbn. unfold keeps in *. apply Hf, Hm, H. Qed.

Lemma keeps_gets {A} (f : state → A) : keeps I (gets f).
Proof. intros s H. exact H. Qed.

Lemma keeps_modify (f : state → state) :
  (∀ s, I s → I (f s)) → keeps I (modify f).
Proof. intros Hf s H. apply Hf, H. Qed.

End Keeps.

Lemma pending_lt s p : pending s p → p < length (promises s).
Proof. intros H. eapply lookup_lt_Some, H. Qed.

Lemma settled_lt s p o : settled s p o → p < length (promises s).
Proof. intros H. eapply lookup_lt_Some, H. Qed.

Lemma start_run o s :
  let n := length (promises s) in
  start o s = (n, extend [None] [] [(n, o)] [EvStart o] [] s).
Proof. destruct s. run_sym. reflexivity. Qed.

Lemma owners_extend np nf no ev cl s :
  owners (extend np nf no ev cl s)
  ≡ₚ owners s ++ (result <$> nf) ++ (fst <$> no).
Proof.
  unfold owners. cbn. rewrite !fmap_app, <- !app_assoc. f_equiv.
  rewrite !app_assoc. f_equiv. apply Permutation_app_comm.
Qed.

(** Only the promises and the owners matter. *)
Lemma wfx_perm X X' s s' :
  promises s' = promises s → X' ++ owners s' ≡ₚ X ++ owners s →
  wfx X s → wfx X' s'.
Proof.
  unfold wfx, pending. intros -> HP [Hnd Hp]. split.
  - by rewrite HP.
  - intros p. rewrite HP. apply Hp.
Qed.

Lemma wfx_same X s s' :
  promises s' = promises s → frames s' = frames s → ops s' = ops s →
  wfx X s → wfx X s'.
Proof. unfold wfx, owners, pending. intros -> -> ->. done. Qed.

(** New promises come after the old ones, which keep their state. *)
Lemma wfx_extend X np nf no ev cl s :
  wfx X s →
  let new := (result <$> nf) ++ (fst <$> no) in
  NoDup new →
  (∀ p, p ∈ new →
     length (promises s) ≤ p ∧ np !! (p - length (promises s)) = Some None) →
  wfx X (extend np nf no ev cl s).
Proof.
  intros [Hnd Hp] new Hnew Hfresh. split.
  - rewrite owners_extend. fold new. rewrite app_assoc.
    apply NoDup_app. split; [done|]. split; [|done].
    intros p Hin Hin'. apply Hp, pending_lt in Hin.
    apply Hfresh in Hin'. lia.
  - intros p. rewrite owners_extend. fold new. rewrite app_assoc.
    intros [Hin|Hin]%elem_of_app; unfold pending; cbn.
    + rewrite lookup_app_l; [by apply Hp|]. by apply pending_lt, Hp.
    + apply Hfresh in Hin as [Hle Hlk]. by rewrite lookup_app_r.
Qed.

Lemma keeps_wfx_new_promise X st : keeps (wfx X) (new_promise st).
Proof.
  intros s [Hnd Hp]. split; [exact Hnd|].
  intros p Hin. unfold pending. cbn.
  rewrite lookup_app_l; [by apply Hp|]. by apply pending_lt, Hp.
Qed.

Lemma keeps_wfx_start X o : keeps (wfx X) (start o).
Proof.
  intros s H. rewrite start_run. cbn [snd].
  apply wfx_extend; [done|..]; cbn.
  - apply NoDup_singleton.
  - intros p ->%list_elem_of_singleton. split; [lia|].
    by rewrite Nat.sub_diag.
Qed.

(** A parked call takes over the promise it will settle. *)
Lemma wfx_fill X q a k s :
  wfx (q :: X) s → wfx X (exec (park [Frame a k q]) s).
Proof.
  apply wfx_perm; [done|]. unfold owners. cbn. rewrite fmap_app. cbn.
  rewrite <- !app_assoc. cbn.
  by rewrite !app_assoc, <- Permutation_middle.
Qed.

(** Settling the promise closes it. *)
Lemma wfx_settle X q o s :
  wfx (q :: X) s → wfx X (exec (settle q o) s).
Proof.
  intros [Hnd Hp]. rewrite settle_pending by (apply Hp; left).
  cbn in Hnd. apply NoDup_cons in Hnd as [Hq Hnd]. split; [done|].
  intros p Hin. unfold pending. cbn.
  rewrite list_lookup_insert_ne; [apply Hp; by right|].
  intros <-. done.
Qed.

Lemma wfx_finish X q r s : wfx (q :: X) s → wfx X (exec (finish q r) s).
Proof.
  destruct r; cbn [finish ended waits].
  - apply wfx_settle.
  - apply wfx_settle.
  - apply wfx_fill.
  - apply wfx_fill.
Qed.

Lemma wfx_park_nil X s : wfx X s → wfx X (exec (park []) s).
Proof.
  apply wfx_perm; [done|]. unfold owners. cbn. by rewrite app_nil_r.
Qed.

Lemma wfx_new_pending X s :
  wfx X s → wfx (length (promises s) :: X) (exec (new_promise None) s).
Proof.
  intros [Hnd Hp]. split.
  - cbn. apply NoDup_cons. split; [|done].
    intros Hin. apply Hp, pending_lt in Hin. lia.
  - intros x [->|Hin]%elem_of_cons; unfold pending; cbn.
    + by rewrite list_lookup_middle.
    + rewrite lookup_app_l; [by apply Hp|]. by apply pending_lt, Hp.
Qed.

Lemma async_run body s :
  async body s =
    (length (promises (body s).2),
     exec (park (waits (length (promises (body s).2)) (body s).1))
       (exec (new_promise (ended (body s).1)) (body s).2)).
Proof. reflexivity. Qed.

Lemma keeps_wfx_async X body :
  keeps (wfx X) body → keeps (wfx X) (async body).
Proof.
  intros Hb s H. apply Hb in H. rewrite async_run. cbn [snd].
  destruct (body s) as [r s1]. cbn [fst snd] in *.
  destruct r; cbn [ended waits].
  - by apply wfx_park_nil, (keeps_wfx_new_promise X).
  - by apply wfx_park_nil, (keeps_wfx_new_promise X).
  - by apply (wfx_fill X), wfx_new_pending.
  - by apply (wfx_fill X), wfx_new_pending.
Qed.

Ltac keeps_step leaf :=
  lazymatch goal with
  | |- keeps _ (mret _) => apply keeps_ret
  | |- keeps _ (gets _) => apply keeps_gets
  | |- keeps _ (modify _) => apply keeps_modify; intros ? ?; leaf
  | |- keeps _ (match ?x with _ => _ end) => destruct x
  | |- keeps _ (_ ≫= _) => apply keeps_bind; [|intros ?]
  | |- keeps _ _ => leaf
  end.

Ltac keeps_wfx :=
  repeat keeps_step
    ltac:(idtac;
          lazymatch goal with
          | |- keeps _ (start _) => apply keeps_wfx_start
          | |- keeps _ (async _) => apply keeps_wfx_async
          | |- wfx _ _ => eapply wfx_same; [..|eassumption]; reflexivity
          end).

Section Ownership.
Context {codec : SnapshotCodec}.
Implicit Types (s : state) (X : list pid).

Lemma keeps_wfx_delay X t : keeps (wfx X) (delay t).
Proof. unfold delay. keeps_wfx. Qed.

Lemma keeps_wfx_load X c : keeps (wfx X) (load c).
Proof. unfold load, emit. keeps_wfx. Qed.

Lemma keeps_wfx_dump X c : keeps (wfx X) (dump c).
Proof. unfold dump, emit, console_log, createWriteStream. keeps_wfx. Qed.

Lemma keeps_wfx__loadAndInit X : keeps (wfx X) _loadAndInit.
Proof.
  unfold _loadAndInit, emit. keeps_wfx. apply keeps_wfx_load.
Qed.

Lemma keeps_wfx_init X c : keeps (wfx X) (init c).
Proof.
  unfold init, emit. keeps_wfx. apply keeps_wfx__loadAndInit.
Qed.

Lemma keeps_wfx__scheduleDBDump X : keeps (wfx X) _scheduleDBDump.
Proof. unfold _scheduleDBDump. keeps_wfx. apply keeps_wfx_delay. Qed.

Lemma keeps_wfx_get X id : keeps (wfx X) (get id).
Proof. unfold get, emit. keeps_wfx. apply keeps_wfx_init. Qed.

Lemma keeps_wfx_continue X k o : keeps (wfx X) (continue k o).
Proof.
  destruct k, o; cbn [continue];
    unfold init_awaited, _loadAndInit_loaded, _loadAndInit_replicated,
      _loadAndInit_dumped, load_accessed, dump_written,
      _scheduleDBDump_delayed, _scheduleDBDump_inited,
      _scheduleDBDump_dumped, get_inited, emit, console_log;
    keeps_wfx;
    lazymatch goal with
    | |- keeps _ (dump _) => apply keeps_wfx_dump
    | |- keeps _ (init _) => apply keeps_wfx_init
    end.
Qed.

Lemma wfx_resume X f o s :
  wfx (result f :: X) s → wfx X (exec (resume f o) s).
Proof.
  intros H. apply keeps_wfx_continue with (k := kont_of f) (o := o) in H.
  change (exec (resume f o) s)
    with (exec (finish (result f) (continue (kont_of f) o s).1)
            (continue (kont_of f) o s).2).
  by apply wfx_finish.
Qed.

Lemma wfx_unpark s i f :
  frames s !! i = Some f →
  wf s → wfx [result f] (set_frames (delete i (frames s)) s).
Proof.
  intros Hf. apply wfx_perm; [done|]. unfold owners. cbn.
  pose proof (delete_Permutation (frames s) i f Hf) as HP.
  apply (fmap_Permutation result) in HP. by rewrite HP.
Qed.

Lemma wfx_unop s i p o :
  ops s !! i = Some (p, o) →
  wf s → wfx [p] (set_ops (delete i (ops s)) s).
Proof.
  intros Hf. apply wfx_perm; [done|]. unfold owners. cbn.
  pose proof (delete_Permutation (ops s) i _ Hf) as HP.
  apply (fmap_Permutation fst) in HP. rewrite HP. cbn.
  by rewrite Permutation_middle.
Qed.

(** The end of an operation touches the disk and the local database. *)
Lemma complete_frame o c s out s' :
  complete o c s = Some (out, s') →
  s' = set_localDB (localDB s') (set_files (files s') s).
Proof.
  destruct s. destruct o, c; cbn; intros H;
    repeat case_match; simplify_eq; reflexivity.
Qed.

Lemma wf_step l s s' : wf s → step l s = Some s' → wf s'.
Proof.
  intros Hwf H. destruct l; cbn [step] in H.
  - simplify_eq. by apply keeps_wfx_init.
  - simplify_eq. by apply keeps_wfx_get.
  - simplify_eq. by apply keeps_wfx_dump.
  - simplify_eq. by apply keeps_wfx_load.
  - destruct (frames s !! i) as [f|] eqn:Hf; [|done].
    destruct (promises s !! awaiting f) as [[o|]|]; simplify_eq.
    by apply wfx_resume, wfx_unpark.
  - destruct (ticks s); simplify_eq.
    apply keeps_wfx__scheduleDBDump. revert Hwf. by apply wfx_same.
  - destruct (ops s !! i) as [[p o]|] eqn:Hop; [|done].
    destruct (complete _ _ _) as [[out s1]|] eqn:Hc; simplify_eq.
    apply wfx_settle. apply complete_frame in Hc.
    eapply wfx_same; [..|by eapply wfx_unop]; by rewrite Hc.
  - simplify_eq. revert Hwf. by apply wfx_same.
  - simplify_eq. revert Hwf. by apply wfx_same.
  - destruct (live s); simplify_eq. revert Hwf. by apply wfx_same.
  - destruct (live s); simplify_eq. done.
Qed.

End Ownership.

(** * Runs *)

Section Runs.
Context {codec : SnapshotCodec}.
Implicit Types (s : state) (l : label) (ls : list label).

Lemma run_app ls1 ls2 s :
  run (ls1 ++ ls2) s = run ls1 s ≫= run ls2.
Proof.
  revert s. induction ls1 as [|l ls1 IH]; intros s; cbn; [done|].
  destruct (step l s); cbn; [apply IH|done].
Qed.

Lemma run_invariant (I : state → Prop) :
  (∀ l s s', I s → step l s = Some s' → I s') →
  ∀ ls s s', I s → run ls s = Some s' → I s'.
Proof.
  intros Hstep ls. induction ls as [|l ls IH]; intros s s' HI H; cbn in H.
  - by simplify_eq.
  - destruct (step l s) as [s1|] eqn:Hs; [|done]. eauto.
Qed.

Lemma wf_run ls s s' : wf s → run ls s = Some s' → wf s'.
Proof. apply (run_invariant wf). intros l s1 s2 H. by apply wf_step. Qed.

Lemma wf_construct options d (l r : store) t :
  wf (construct options d l r t).
Proof.
  unfold construct. apply keeps_wfx__scheduleDBDump.
  split; cbn; [constructor|]. intros p Hp. by apply elem_of_nil in Hp.
Qed.

Lemma reachable_wf s : reachable s → wf s.
Proof.
  intros (options & d & l & r & t & ls & H).
  eapply wf_run; [apply wf_construct|exact H].
Qed.

Lemma reachable_run ls s s' : reachable s → run ls s = Some s' → reachable s'.
Proof.
  intros (options & d & l & r & t & ls0 & H) Hrun.
  exists options, d, l, r, t, (ls0 ++ ls). rewrite run_app, H. exact Hrun.
Qed.

Lemma reachable_step l s s' : reachable s → step l s = Some s' → reachable s'.
Proof.
  intros Hr Hs. apply (reachable_run [l] s); [done|]. cbn. by rewrite Hs.
Qed.

(** An invariant of the reachable states: true at construction, kept by
    every step from a well-formed state. *)
Lemma reachable_invariant (I : state → Prop) :
  (∀ options d (l r : store) t, I (construct options d l r t)) →
  (∀ l s s', wf s → I s → step l s = Some s' → I s') →
  ∀ s, reachable s → I s.
Proof.
  intros Hinit Hstep s (options & d & l & r & t & ls & H).
  enough (wf s ∧ I s) by tauto.
  revert H. apply (run_invariant (λ s, wf s ∧ I s)).
  - intros l0 s1 s2 [Hwf HI] Hs. split; [by eapply wf_step|eauto].
  - split; [apply wf_construct|apply Hinit].
Qed.

End Runs.

(** * What steps never undo *)

Ltac keeps_mono HI :=
  repeat keeps_step
    ltac:(idtac;
          lazymatch goal with
          | |- keeps _ (new_promise _) =>
              intros ? ?; by apply (mono_promise _ HI)
          | |- keeps _ (settle _ _) =>
              intros ? ?; by apply (mono_settle _ HI)
          | |- keeps _ (park _) =>
              intros ? ?; by apply (mono_park _ HI)
          | |- _ (set_ops _ _) => by apply (mono_op _ HI)
          | |- _ => eapply (mono_same _ HI); [..|eassumption]; reflexivity
          end).

Section Monotone.
Context {codec : SnapshotCodec}.
Context (I : state → Prop) (HI : monotone I).

Lemma keeps_mono_start o : keeps I (start o).
Proof. unfold start, emit. keeps_mono HI. Qed.

Lemma keeps_mono_async body : keeps I body → keeps I (async body).
Proof. intros Hb. unfold async. keeps_mono HI. exact Hb. Qed.

Ltac keeps_calls :=
  repeat keeps_step
    ltac:(idtac;
          lazymatch goal with
          | |- keeps _ (start _) => apply keeps_mono_start
          | |- keeps _ (async _) => apply keeps_mono_async
          | |- keeps _ (settle _ _) =>
              intros ? ?; by apply (mono_settle _ HI)
          | |- keeps _ (park _) =>
              intros ? ?; by apply (mono_park _ HI)
          | |- keeps _ (emit _) => unfold emit
          | |- keeps _ (console_log _) => unfold console_log
          | |- keeps _ (createWriteStream _) => unfold createWriteStream
          | |- keeps _ (?m _) =>
              lazymatch goal with
              | H : ∀ x, keeps _ (m x) |- _ => apply H
              end
          | |- keeps _ ?m =>
              lazymatch goal with H : keeps _ m |- _ => exact H end
          | |- _ => eapply (mono_same _ HI); [..|eassumption]; reflexivity
          end).

Lemma keeps_mono_delay t : keeps I (delay t).
Proof. unfold delay. keeps_calls. Qed.

Lemma keeps_mono_load c : keeps I (load c).
Proof. unfold load. keeps_calls. Qed.

Lemma keeps_mono_dump c : keeps I (dump c).
Proof. unfold dump. keeps_calls. Qed.

Lemma keeps_mono__loadAndInit : keeps I _loadAndInit.
Proof.
  pose proof keeps_mono_load. unfold _loadAndInit. keeps_calls.
Qed.

Lemma keeps_mono_init c : keeps I (init c).
Proof.
  pose proof keeps_mono__loadAndInit. unfold init. keeps_calls.
Qed.

Lemma keeps_mono__scheduleDBDump : keeps I _scheduleDBDump.
Proof.
  pose proof keeps_mono_delay. unfold _scheduleDBDump. keeps_calls.
Qed.

Lemma keeps_mono_get id : keeps I (get id).
Proof. pose proof keeps_mono_init. unfold get. keeps_calls. Qed.

Lemma keeps_mono_resume f o : keeps I (resume f o).
Proof.
  pose proof keeps_mono_init. pose proof keeps_mono_dump.
  unfold resume, finish.
  destruct f as [a k q], k, o; cbn [continue kont_of result];
    unfold init_awaited, _loadAndInit_loaded, _loadAndInit_replicated,
      _loadAndInit_dumped, load_accessed, dump_written,
      _scheduleDBDump_delayed, _scheduleDBDump_inited,
      _scheduleDBDump_dumped, get_inited;
    keeps_calls.
Qed.

(** A monotone property survives a step if it survives the departure of the
    call or the operation taking the step. *)
Lemma mono_step l s s' : step l s = Some s' → I (base l s) → I s'.
Proof.
  intros H Hb. destruct l; cbn [step base] in *.
  - simplify_eq. by apply keeps_mono_init.
  - simplify_eq. by apply keeps_mono_get.
  - simplify_eq. by apply keeps_mono_dump.
  - simplify_eq. by apply keeps_mono_load.
  - destruct (frames s !! i) as [f|]; [|done].
    destruct (promises s !! awaiting f) as [[o|]|]; simplify_eq.
    by apply keeps_mono_resume.
  - destruct (ticks s); simplify_eq.
    apply keeps_mono__scheduleDBDump. revert Hb. by apply (mono_same _ HI).
  - destruct (ops s !! i) as [[p o]|]; [|done].
    destruct (complete _ _ _) as [[out s1]|] eqn:Hc; simplify_eq.
    apply (mono_settle _ HI). apply complete_frame in Hc.
    revert Hb. apply (mono_same _ HI); by rewrite Hc.
  - simplify_eq. revert Hb. by apply (mono_same _ HI).
  - simplify_eq. revert Hb. by apply (mono_same _ HI).
  - destruct (live s); simplify_eq. revert Hb. by apply (mono_same _ HI).
  - destruct (live s); simplify_eq. done.
Qed.

End Monotone.

Section Persistence.
Context {codec : SnapshotCodec}.
Implicit Types (s : state) (l : label) (p q : pid) (o : outcome).

Lemma monotone_settled p o : monotone (λ s, settled s p o).
Proof.
  split; unfold settled.
  - intros s s' -> _ _. done.
  - intros s st H. cbn. rewrite lookup_app_l; [done|].
    eapply lookup_lt_Some, H.
  - intros s q o' H. unfold exec, settle, modify. cbn.
    destruct (promises s !! q) as [[|]|] eqn:Hq; try done. cbn.
    rewrite list_lookup_insert_ne; [done|]. intros <-. congruence.
  - intros s fs H. done.
  - intros s x H. done.
Qed.

Lemma monotone_parked f : monotone (λ s, f ∈ frames s).
Proof.
  split.
  - intros s s' _ -> _. done.
  - intros s st H. done.
  - intros s q o' H. unfold exec, settle, modify. cbn.
    destruct (promises s !! q) as [[|]|]; done.
  - intros s fs H. cbn. apply elem_of_app. by left.
  - intros s x H. done.
Qed.



(** A settled promise stays as it is. *)
Lemma settled_step l s s' p o :
  step l s = Some s' → settled s p o → settled s' p o.
Proof.
  intros H Hs. eapply (mono_step _ (monotone_settled p o)); [exact H|].
  destruct l; exact Hs.
Qed.



Lemma elem_of_delete_or {A} (l : list A) i x :
  x ∈ l → x ∈ delete i l ∨ l !! i = Some x.
Proof.
  intros Hx. destruct (l !! i) as [y|] eqn:Hi.
  - rewrite (delete_Permutation l i y Hi) in Hx.
    apply elem_of_cons in Hx as [->|Hx]; auto.
  - left. apply lookup_ge_None in Hi.
    rewrite delete_take_drop, take_ge, drop_ge, app_nil_r by lia. done.
Qed.

(** A suspended call stays suspended until it is resumed. *)
Lemma parked_step l s s' f :
  step l s = Some s' → f ∈ frames s →
  f ∈ frames s' ∨ ∃ i, l = Resume i ∧ frames s !! i = Some f.
Proof.
  intros H Hf.
  assert (f ∈ frames (base l s) ∨ ∃ i, l = Resume i ∧ frames s !! i = Some f)
    as [Hb|]; [|left|by right].
  - destruct l; try (by left). cbn.
    destruct (elem_of_delete_or _ i _ Hf); [by left|right; eauto].
  - by eapply (mono_step _ (monotone_parked f)).
Qed.


End Persistence.

(** * Case analysis of a step

    [step_cases] splits a step into its cases and rewrites the state it
    leads to into the additions the step makes. *)

Lemma exec_eq {A} (m : M A) s a s' : m s = (a, s') → exec m s = s'.
Proof. unfold exec. by intros ->. Qed.

Lemma wf_pending_frame s f : wf s → f ∈ frames s → pending s (result f).
Proof.
  intros [_ Hp] Hf. apply Hp. cbn. unfold owners. apply elem_of_app. left.
  apply list_elem_of_fmap. by exists f.
Qed.

Lemma wf_pending_in_flight s p o : wf s → (p, o) ∈ ops s → pending s p.
Proof.
  intros [_ Hp] Hf. apply Hp. cbn. unfold owners. apply elem_of_app. right.
  apply list_elem_of_fmap. by exists (p, o).
Qed.

Lemma wf_pending_result s i f :
  wf s → frames s !! i = Some f → pending s (result f).
Proof.
  intros Hwf Hf. apply wf_pending_frame; [done|].
  by eapply list_elem_of_lookup_2.
Qed.

Lemma wf_pending_op s i p o : wf s → ops s !! i = Some (p, o) → pending s p.
Proof.
  intros Hwf Hf. eapply wf_pending_in_flight; [done|].
  by eapply list_elem_of_lookup_2.
Qed.

Ltac settle_norm Hq :=
  try match goal with
  | |- context [exec (settle ?q ?o) ?X] =>
      rewrite (settle_pending q o X Hq)
  end.

Ltac step_cases Hwf H :=
  lazymatch type of H with
  | step ?l ?s = Some ?s' =>
    destruct l as [| ?id | | | ?i | | ?i ?c | ?dt | ?id ?content | | ?e];
    cbn [step] in H;
    [ (* init() *)
      injection H as <-;
      destruct (synced s) eqn:Hsynced;
      [ rewrite (exec_eq _ _ _ _ (init_run_synced _ s Hsynced))
      | destruct (initPromiseSync s) as [?p|] eqn:Hips;
        [ rewrite (exec_eq _ _ _ _ (init_run_join _ s _ Hsynced Hips))
        | rewrite (exec_eq _ _ _ _ (init_run_cold _ s Hsynced Hips)) ] ]
    | (* get(id) *)
      injection H as <-;
      destruct (synced s) eqn:Hsynced;
      [ rewrite (exec_eq _ _ _ _ (get_run_synced _ s Hsynced))
      | destruct (initPromiseSync s) as [?p|] eqn:Hips;
        [ rewrite (exec_eq _ _ _ _ (get_run_join _ s _ Hsynced Hips))
        | rewrite (exec_eq _ _ _ _ (get_run_cold _ s Hsynced Hips)) ] ]
    | (* dump() *)
      injection H as <-;
      destruct (databaseDumpPendingPromise s) as [?p|] eqn:Hhandle;
      [ rewrite (exec_eq _ _ _ _ (dump_run_join _ s _ Hhandle))
      | rewrite (exec_eq _ _ _ _ (dump_run_start _ s Hhandle)) ]
    | (* load() *)
      injection H as <-;
      rewrite (exec_eq _ _ _ _ (load_run _ s))
    | (* a suspended call goes on *)
      let f := fresh "f" in let Hf := fresh "Hf" in
      let o := fresh "o" in let Ho := fresh "Ho" in
      let Hq := fresh "Hq" in
      destruct (frames s !! i) as [f|] eqn:Hf; [|discriminate H];
      destruct (promises s !! awaiting f) as [[o|]|] eqn:Ho;
        try discriminate H;
      injection H as <-;
      pose proof (wf_pending_result _ _ _ Hwf Hf) as Hq;
      let a := fresh "a" in let k := fresh "k" in let q := fresh "q" in
      destruct f as [a k q]; cbn [awaiting result] in Ho, Hq;
      change (pending (set_frames (delete i (frames s)) s) q) in Hq;
      destruct o as [?v|?e];
      [ destruct k;
        [ rewrite resume_KReturn
        | rewrite resume_KInit
        | rewrite resume_KLoadAndInit_loaded
        | destruct (databaseDumpPendingPromise s) as [?p|] eqn:Hhandle;
          [ rewrite (resume_KLoadAndInit_replicated_join _ _ _
                       (set_frames (delete i (frames s)) s) _ Hhandle)
          | rewrite (resume_KLoadAndInit_replicated_start _ _ _
                       (set_frames (delete i (frames s)) s) Hhandle) ]
        | rewrite resume_KLoadAndInit_dumped
        | rewrite resume_KLoad_accessed_present
        | rewrite resume_KDump_written
        | destruct (synced s) eqn:Hsynced;
          [ rewrite (resume_KSchedule_delayed_synced _ _ _
                       (set_frames (delete i (frames s)) s) Hsynced)
          | destruct (initPromiseSync s) as [?p|] eqn:Hips;
            [ rewrite (resume_KSchedule_delayed_join _ _ _
                         (set_frames (delete i (frames s)) s) _
                         Hsynced Hips)
            | rewrite (resume_KSchedule_delayed_cold _ _ _
                         (set_frames (delete i (frames s)) s)
                         Hsynced Hips) ] ]
        | destruct (databaseDumpPendingPromise s) as [?p|] eqn:Hhandle;
          [ rewrite (resume_KSchedule_inited_join _ _ _
                       (set_frames (delete i (frames s)) s) _ Hhandle)
          | rewrite (resume_KSchedule_inited_start _ _ _
                       (set_frames (delete i (frames s)) s) Hhandle) ]
        | rewrite resume_KSchedule_dumped
        | rewrite resume_KGet_inited ]
      | destruct (catches k) eqn:Hcatch;
        [ destruct k; try discriminate Hcatch;
          rewrite resume_KLoad_accessed_absent
        | rewrite (resume_throw (Frame a k q) _ _ Hcatch); cbn [result] ] ];
      settle_norm Hq
    | (* a queued tick runs *)
      let n := fresh "n" in
      destruct (ticks s) as [|n] eqn:Hticks; [discriminate H|];
      injection H as <-;
      rewrite (exec_eq _ _ _ _ (_scheduleDBDump_run _))
    | (* an operation ends *)
      let p := fresh "p" in let o := fresh "o" in
      let Hop := fresh "Hop" in let Hc := fresh "Hc" in
      let out := fresh "out" in let s1 := fresh "s1" in
      let Hq := fresh "Hq" in let Hs1 := fresh "Hs1" in
      destruct (ops s !! i) as [[p o]|] eqn:Hop; [|discriminate H];
      destruct (complete o c (set_ops (delete i (ops s)) s))
        as [[out s1]|] eqn:Hc; [|discriminate H];
      injection H as <-;
      pose proof (wf_pending_op _ _ _ _ Hwf Hop) as Hq;
      pose proof (complete_frame _ _ _ _ _ Hc) as Hs1;
      rewrite Hs1;
      change (pending (set_localDB (localDB s1)
                         (set_files (files s1)
                            (set_ops (delete i (ops s)) s))) p) in Hq;
      settle_norm Hq
    | injection H as <-
    | injection H as <-
    | let n := fresh "n" in
      destruct (live s) as [|n] eqn:Hlive; [discriminate H|];
      injection H as <-
    | let n := fresh "n" in
      destruct (live s) as [|n] eqn:Hlive; [discriminate H|];
      injection H as <- ]
  end.

Section Frame.
Context {codec : SnapshotCodec}.
Implicit Types (s : state) (l : label).

(** The configuration is fixed at construction. *)
Lemma cfg_step l s s' : wf s → step l s = Some s' → cfg s' = cfg s.
Proof. intros Hwf H. step_cases Hwf H; reflexivity. Qed.

End Frame.

(** * Counting suspended calls *)

Lemma count_k_app P l1 l2 : count_k P (l1 ++ l2) = count_k P l1 + count_k P l2.
Proof. induction l1 as [|f l1 IH]; cbn; [done|]. rewrite IH. lia. Qed.

Lemma count_k_delete P l i f :
  l !! i = Some f →
  count_k P l = (if P (kont_of f) then 1 else 0) + count_k P (delete i l).
Proof.
  revert i. induction l as [|g l IH]; intros [|i] H; try done.
  - cbn in H. simplify_eq. reflexivity.
  - change (delete (S i) (g :: l)) with (g :: delete i l).
    cbn [count_k]. rewrite (IH i H). lia.
Qed.

Lemma count_k_pos P l f :
  f ∈ l → P (kont_of f) = true → 0 < count_k P l.
Proof.
  intros Hin HP. induction l as [|g l IH]; cbn.
  - by apply elem_of_nil in Hin.
  - apply elem_of_cons in Hin as [<-|Hin].
    + rewrite HP. lia.
    + specialize (IH Hin). lia.
Qed.

Lemma elem_of_delete_in {A} (l : list A) i x : x ∈ delete i l → x ∈ l.
Proof.
  intros Hx. destruct (l !! i) as [y|] eqn:Hi.
  - rewrite (delete_Permutation l i y Hi). by right.
  - apply lookup_ge_None in Hi. revert Hx.
    by rewrite delete_take_drop, take_ge, drop_ge, app_nil_r by lia.
Qed.

Lemma count_k_zero P l :
  (∀ f, f ∈ l → P (kont_of f) = false) → count_k P l = 0.
Proof.
  induction l as [|g l IH]; intros H; cbn; [done|].
  rewrite (H g), IH; [done| |left]. intros f Hf. apply H. by right.
Qed.

Ltac mem_cases H :=
  repeat first
    [ apply elem_of_app in H as [H|H]
    | apply elem_of_cons in H as [H|H]
    | apply elem_of_nil in H; destruct H
    | apply elem_of_delete_in in H ].

(** * The dump handle *)

Section DumpHandle.
Context {codec : SnapshotCodec}.
Implicit Types (s : state) (l : label).

Lemma dump_idle_count s :
  dump_inv s → databaseDumpPendingPromise s = None →
  count_k is_dump_written (frames s) = 0.
Proof.
  intros Hinv Hnone. apply count_k_zero. intros f Hin.
  destruct (kont_of f) eqn:Hk; try done.
  destruct (di_frame _ Hinv _ _ _ Hin Hk). congruence.
Qed.

Lemma dump_inv_step l s s' :
  wf s → dump_inv s → step l s = Some s' → dump_inv s'.
Proof.
  intros Hwf Hinv H.
  step_cases Hwf H.
  all: try pose proof (dump_idle_count _ Hinv Hhandle) as Hzero.
  all: try pose proof (di_frame _ Hinv _ _ _
                         (list_elem_of_lookup_2 _ _ _ Hf) eq_refl)
         as (Hh & -> & ->).
  all: try pose proof (count_k_delete is_dump_written _ _ _ Hf) as Hdel;
       cbn in *.
  all: destruct Hinv as [Ifr Icnt Iop Ial Irn].
  all: split; unfold temporary, canonical in *; cbn.
  all: try (rewrite ?length_insert, ?length_app; cbn).
  all: try (intros f' a' b' Hin Hk; apply elem_of_app in Hin as [Hin|Hin];
            [ first
                [ pose proof (count_k_pos is_dump_written _ _ Hin) as Hpos;
                  rewrite Hk in Hpos; specialize (Hpos eq_refl); lia
                | mem_cases Hin;
                  destruct (Ifr _ _ _ Hin Hk) as (? & ? & ?);
                  split_and!; congruence ]
            | mem_cases Hin; simplify_eq/=; done ]).
  all: try (intros f' a' b' Hin Hk; mem_cases Hin;
              destruct (Ifr _ _ _ Hin Hk) as (? & ? & ?);
              split_and!; congruence).
  all: try (intros p' path' Hin; mem_cases Hin; simplify_eq/=;
            try (pose proof (wf_pending_in_flight _ _ _ Hwf Hin) as Hpp;
                 unfold pending in Hpp);
            try (destruct (Iop _ _ Hin) as (? & ?); split_and!; congruence);
            done).
  all: try (intros p' a' b' Hin; mem_cases Hin; simplify_eq/=;
            try (destruct (Irn _ _ _ Hin) as (? & ?); split_and!; congruence);
            done).
  all: try (intros p' Hp'; first [apply Ial in Hp'; lia | simplify_eq; lia]).
  all: try (rewrite ?count_k_app; cbn; lia).
Qed.

Lemma dump_inv_construct options d (l r : store) t :
  dump_inv (construct options d l r t).
Proof.
  unfold construct. rewrite (exec_eq _ _ _ _ (_scheduleDBDump_run _)).
  split; cbn.
  - intros f a b Hin Hk. mem_cases Hin; simplify_eq/=.
  - lia.
  - intros p path Hin. mem_cases Hin; simplify_eq/=.
  - intros p Hp. done.
  - intros p a b Hin. mem_cases Hin; simplify_eq/=.
Qed.

Lemma reachable_dump_inv s : reachable s → dump_inv s.
Proof.
  apply (reachable_invariant dump_inv).
  - apply dump_inv_construct.
  - intros l s1 s2 Hwf Hinv Hs. by eapply dump_inv_step.
Qed.

End DumpHandle.

(** * Calls waiting for calls *)

Section Follow.
Context {codec : SnapshotCodec}.
Implicit Types (s : state) (l : label) (p q : pid) (o : outcome).

Lemma settle_settled p o s : pending s p → settled (exec (settle p o) s) p o.
Proof.
  intros H. rewrite settle_pending by done. unfold settled. cbn.
  apply list_lookup_insert_eq. by eapply pending_lt.
Qed.

Lemma resume_throw_settled f e s :
  catches (kont_of f) = false → pending s (result f) →
  settled (exec (resume f (Rejected e)) s) (result f) (Rejected e).
Proof. intros Hc Hp. rewrite resume_throw by done. by apply settle_settled. Qed.

Lemma resume_transparent p q k o s :
  transparent k = true → pending s q →
  settled (exec (resume (Frame p k q) o) s) q (passed k o).
Proof.
  intros Hk Hp. destruct o as [v|e].
  - destruct k; try discriminate Hk.
    + rewrite resume_KReturn. by apply settle_settled.
    + rewrite resume_KInit. by apply settle_settled.
    + rewrite resume_KLoadAndInit_dumped. by apply settle_settled.
  - replace (passed k (Rejected e)) with (Rejected e) by (by destruct k).
    apply (resume_throw_settled (Frame p k q)); [|done].
    by destruct k.
Qed.

Lemma step_resume_inv i s s' :
  step (Resume i) s = Some s' →
  ∃ f o, frames s !! i = Some f ∧ settled s (awaiting f) o
         ∧ s' = exec (resume f o) (set_frames (delete i (frames s)) s).
Proof.
  cbn. destruct (frames s !! i) as [f|]; [|done].
  destruct (promises s !! awaiting f) as [[o|]|] eqn:Ho; try done.
  intros [= <-]. by exists f, o.
Qed.

Lemma follows_step l s s' k q p :
  wf s → transparent k = true →
  step l s = Some s' → follows k s q p → follows k s' q p.
Proof.
  intros Hwf Hk Hs [[Hq Hf]|(o & Hp & Hqo)].
  - destruct (parked_step _ _ _ _ Hs Hf) as [Hf'|(i & -> & Hi)].
    + left. split; [|done].
      apply (wf_pending_frame s' (Frame p k q)); [by eapply wf_step|done].
    + right. pose proof Hs as Hs0.
      apply step_resume_inv in Hs as (f & o & Hi' & Ho & Heq).
      simplify_eq. cbn in Ho. exists o. split.
      * by eapply settled_step.
      * by apply resume_transparent.
  - right. exists o. split; by eapply settled_step.
Qed.

Lemma follows_run ls s s' k q p :
  wf s → transparent k = true →
  run ls s = Some s' → follows k s q p → follows k s' q p.
Proof.
  intros Hwf Hk Hrun Hf.
  enough (wf s' ∧ follows k s' q p) by tauto.
  revert Hrun. apply (run_invariant (λ s, wf s ∧ follows k s q p)); [|done].
  intros l s1 s2 [H1 H2] Hs. split; [by eapply wf_step|by eapply follows_step].
Qed.

Lemma follows_settled k s q p o :
  follows k s q p → settled s q o → ∃ o', settled s p o' ∧ o = passed k o'.
Proof.
  unfold settled, pending. intros [[Hq _]|(o' & Hp & Hq)] H.
  - congruence.
  - exists o'. split; [done|]. congruence.
Qed.

Lemma doomed_settled s e q o : doomed s e q → settled s q o → o = Rejected e.
Proof.
  unfold settled, pending. intros [q' H|f _ _ H _] Hs; congruence.
Qed.

Lemma doomed_step l s s' e q :
  wf s → step l s = Some s' → doomed s e q → doomed s' e q.
Proof.
  intros Hwf Hs Hd. induction Hd as [q H|f Hf Hc Hq Hd IH].
  - apply doomed_now. by eapply settled_step.
  - destruct (parked_step _ _ _ _ Hs Hf) as [Hf'|(i & -> & Hi)].
    + apply doomed_wait; try done.
      apply wf_pending_frame; [by eapply wf_step|done].
    + apply doomed_now.
      apply step_resume_inv in Hs as (f' & o & Hi' & Ho & ->).
      simplify_eq. rewrite (doomed_settled _ _ _ _ Hd Ho).
      by apply resume_throw_settled.
Qed.

Lemma doomed_run ls s s' e q :
  wf s → run ls s = Some s' → doomed s e q → doomed s' e q.
Proof.
  intros Hwf Hrun Hf.
  enough (wf s' ∧ doomed s' e q) by tauto.
  revert Hrun. apply (run_invariant (λ s, wf s ∧ doomed s e q)); [|done].
  intros l s1 s2 [H1 H2] Hs. split; [by eapply wf_step|by eapply doomed_step].
Qed.

End Follow.

(** * Dumps *)

Lemma count_ev_app P t1 t2 :
  count_ev P (t1 ++ t2) = count_ev P t1 + count_ev P t2.
Proof. induction t1 as [|e t1 IH]; cbn; [done|]. rewrite IH. lia. Qed.

Section Dumps.
Context {codec : SnapshotCodec}.
Implicit Types (s : state) (l : label) (p q : pid) (o : outcome).

Lemma stuck_step l s s' p e :
  wf s → dump_inv s → stuck s p e → step l s = Some s' →
  stuck s' p e ∧ writes s' = writes s ∧ renames s' = renames s.
Proof.
  intros Hwf Hinv [Hh Hp] H. pose proof H as H0.
  split; [split; [|by eapply settled_step]|].
  - clear H0. step_cases Hwf H; cbn; try done; try congruence.
    destruct (di_frame _ Hinv _ _ _ (list_elem_of_lookup_2 _ _ _ Hf) eq_refl)
      as (Hh' & _). cbn in Hh'. unfold settled in Hp. congruence.
  - clear H0. unfold writes, renames.
    step_cases Hwf H; cbn; rewrite ?count_ev_app; cbn; try lia; try congruence.
    destruct (di_frame _ Hinv _ _ _ (list_elem_of_lookup_2 _ _ _ Hf) eq_refl)
      as (Hh' & _). cbn in Hh'. unfold settled in Hp. congruence.
Qed.

Lemma stuck_run ls s s' p e :
  wf s → dump_inv s → stuck s p e → run ls s = Some s' →
  stuck s' p e ∧ writes s' = writes s ∧ renames s' = renames s.
Proof.
  intros Hwf Hinv Hst Hrun.
  enough (wf s' ∧ dump_inv s' ∧ stuck s' p e
          ∧ writes s' = writes s ∧ renames s' = renames s) by tauto.
  revert Hrun.
  apply (run_invariant
           (λ s', wf s' ∧ dump_inv s' ∧ stuck s' p e
                  ∧ writes s' = writes s ∧ renames s' = renames s));
    [|done].
  intros l s1 s2 (H1 & H2 & H3 & H4 & H5) Hs.
  destruct (stuck_step _ _ _ _ _ H1 H2 H3 Hs) as (? & ? & ?).
  split_and!; [by eapply wf_step|by eapply dump_inv_step|done|lia|lia].
Qed.

Lemma step_complete_inv i c s s' :
  step (Complete i c) s = Some s' →
  ∃ p (w : op) (out : outcome) s1,
    ops s !! i = Some (p, w)
    ∧ complete w c (set_ops (delete i (ops s)) s) = Some (out, s1)
    ∧ s' = exec (settle p out) s1.
Proof.
  cbn. destruct (ops s !! i) as [[p w]|]; [|done].
  destruct (complete _ _ _) as [[out s1]|] eqn:Hc; [|done].
  intros [= <-]. by exists p, w, out, s1.
Qed.

(** A write that fails leaves its rejected promise in the handle. *)
Lemma write_failure_stuck s i p path e partial s1 :
  wf s → dump_inv s → ops s !! i = Some (p, OpDump path) →
  step (Complete i (Failed e partial)) s = Some s1 → stuck s1 p e.
Proof.
  intros Hwf Hinv Hop Hs.
  destruct (di_op _ Hinv p path) as [Hh _];
    [by eapply list_elem_of_lookup_2|].
  pose proof (wf_pending_op _ _ _ _ Hwf Hop) as Hp.
  apply step_complete_inv in Hs as (p' & o & out & s0 & Hop' & Hc & ->).
  simplify_eq. cbn in Hc. simplify_eq. split.
  - rewrite settle_pending by done. done.
  - by apply settle_settled.
Qed.

(** A call that joins a rejected handle is rejected alike. *)
Lemma dump_join_doomed c s p e :
  wf s → stuck s p e →
  doomed (dump c s).2 e (dump c s).1
  ∧ writes (dump c s).2 = writes s
  ∧ ∃ s', step (Resume (length (frames s))) (dump c s).2 = Some s'
          ∧ settled s' (dump c s).1 (Rejected e).
Proof.
  intros Hwf [Hh Hp]. rewrite (dump_run_join c s p Hh). cbn [fst snd].
  assert (settled (extend [None] [Frame p KReturn (length (promises s))] []
                     [EvDump c] [] s) p (Rejected e)) as Hp'.
  { unfold settled. cbn. rewrite lookup_app_l; [done|]. by eapply settled_lt. }
  split_and!.
  - apply (doomed_wait _ _ (Frame p KReturn (length (promises s)))); cbn.
    + apply elem_of_app. right. by left.
    + done.
    + unfold pending. cbn. by rewrite list_lookup_middle.
    + by apply doomed_now.
  - unfold writes. cbn. rewrite count_ev_app. cbn. lia.
  - eexists. split.
    + cbn. rewrite list_lookup_middle by done. cbn.
      unfold settled in Hp'. cbn in Hp'. rewrite Hp'. reflexivity.
    + rewrite delete_middle. 
      apply (resume_throw_settled (Frame p KReturn (length (promises s)))); [done|].
      unfold pending. cbn. by rewrite list_lookup_middle.
Qed.

(** C9. Once a write of [dump()] has failed, the handle keeps the rejected
    promise for good: no later step clears it or starts another write, and
    every later [dump()] call, whoever makes it, is rejected with the error
    of that write. *)
Theorem dump_failure_is_permanent s i p path e partial s1 ls s2 c :
  reachable s → ops s !! i = Some (p, OpDump path) →
  step (Complete i (Failed e partial)) s = Some s1 →
  run ls s1 = Some s2 →
  databaseDumpPendingPromise s2 = Some p
  ∧ settled s2 p (Rejected e)
  ∧ writes s2 = writes s1
  ∧ writes (dump c s2).2 = writes s2
  ∧ (∀ ls' s3 o,
       run ls' (dump c s2).2 = Some s3 → settled s3 (dump c s2).1 o →
       o = Rejected e)
  ∧ (∃ s3, step (Resume (length (frames s2))) (dump c s2).2 = Some s3
           ∧ settled s3 (dump c s2).1 (Rejected e)).
Proof.
  intros Hr Hop Hs Hrun.
  pose proof (reachable_wf _ Hr) as Hwf.
  pose proof (reachable_dump_inv _ Hr) as Hinv.
  pose proof (write_failure_stuck _ _ _ _ _ _ _ Hwf Hinv Hop Hs) as Hst.
  assert (reachable s1) as Hr1 by (by eapply reachable_step).
  destruct (stuck_run ls s1 s2 p e) as ([Hh Hp] & Hw & _);
    [by apply reachable_wf|by apply reachable_dump_inv|done..|].
  assert (reachable s2) as Hr2 by (by eapply reachable_run).
  pose proof (reachable_wf _ Hr2) as Hwf2.
  destruct (dump_join_doomed c s2 p e Hwf2 (conj Hh Hp)) as (Hd & Hw' & Hex).
  split_and!; try done.
  intros ls' s3 o Hrun' Ho.
  eapply doomed_settled; [|exact Ho].
  eapply doomed_run; [|exact Hrun'|exact Hd].
  change (dump c s2).2 with (exec (dump c) s2). by apply keeps_wfx_dump.
Qed.

Lemma temporary_ne_canonical s : temporary s ≠ canonical s.
Proof.
  unfold temporary, canonical, getDumpFilename, path_join. intros H.
  do 3 apply String.app_inj in H. discriminate H.
Qed.


(** Only the call suspended in [dump()] after its write starts a rename. *)
Lemma rename_started_by l s s' :
  wf s → step l s = Some s' → renames s' ≠ renames s →
  ∃ i a new old q,
    l = Resume i ∧ frames s !! i = Some (Frame a (KDump_written new old) q).
Proof.
  intros Hwf H. unfold renames.
  step_cases Hwf H; cbn; rewrite ?count_ev_app; cbn;
    try (intros Hne; exfalso; apply Hne; lia).
  intros _. eauto 10.
Qed.

Lemma settle_files p o s : files (exec (settle p o) s) = files s.
Proof. unfold exec, settle, modify. cbn. by repeat case_match. Qed.

Lemma settle_trace p o s : trace (exec (settle p o) s) = trace s.
Proof. unfold exec, settle, modify. cbn. by repeat case_match. Qed.

Lemma step_resume_run i f o s :
  frames s !! i = Some f → settled s (awaiting f) o →
  step (Resume i) s
  = Some (exec (resume f o) (set_frames (delete i (frames s)) s)).
Proof. unfold settled. intros Hf Ho. cbn. by rewrite Hf, Ho. Qed.

Lemma step_complete_run i p (w : op) c out s s1 :
  wf s → ops s !! i = Some (p, w) →
  complete w c (set_ops (delete i (ops s)) s) = Some (out, s1) →
  step (Complete i c) s
  = Some (set_promises (<[p := Some out]> (promises s)) s1).
Proof.
  intros Hwf Hop Hc. pose proof (wf_pending_op _ _ _ _ Hwf Hop) as Hp.
  pose proof (complete_frame _ _ _ _ _ Hc) as Hs1.
  cbn [step]. rewrite Hop, Hc. f_equal.
  rewrite settle_pending; rewrite Hs1; done.
Qed.

(** C10. A [dump()] call made while a write is in flight starts nothing of
    its own and only waits for the promise of that write: its promise gets
    the outcome of the write, and once the write has ended it can be
    fulfilled while the canonical file is what it was and no rename has
    begun. A rename is only ever begun by the call that started the write. *)
Theorem dump_joiner_settles_before_rename s i p path c :
  reachable s → ops s !! i = Some (p, OpDump path) →
  let q := (dump c s).1 in
  let s1 := (dump c s).2 in
  ops s1 = ops s ∧ files s1 = files s
  ∧ frames s1 = frames s ++ [Frame p KReturn q]
  ∧ renames s1 = renames s
  ∧ (∀ ls s2 o, run ls s1 = Some s2 → settled s2 q o → settled s2 p o)
  ∧ (∃ s2 s3,
       step (Complete i Done) s1 = Some s2
       ∧ step (Resume (length (frames s))) s2 = Some s3
       ∧ settled s3 q (Fulfilled VOk)
       ∧ files s3 !! canonical s = files s !! canonical s
       ∧ renames s3 = renames s)
  ∧ (∀ l s2 s3,
       reachable s2 → step l s2 = Some s3 → renames s3 ≠ renames s2 →
       ∃ j a new old r,
         l = Resume j
         ∧ frames s2 !! j = Some (Frame a (KDump_written new old) r)).
Proof.
  intros Hr Hop q s1.
  pose proof (reachable_wf _ Hr) as Hwf.
  pose proof (reachable_dump_inv _ Hr) as Hinv.
  destruct (di_op _ Hinv p path) as [Hh ->];
    [by eapply list_elem_of_lookup_2|].
  pose proof (wf_pending_op _ _ _ _ Hwf Hop) as Hp.
  assert (p < length (promises s)) as Hlt by (by eapply pending_lt).
  assert (wf s1) as Hwf1.
  { change s1 with (exec (dump c) s). by apply keeps_wfx_dump. }
  assert (ops s1 = ops s ∧ files s1 = files s
          ∧ frames s1 = frames s ++ [Frame p KReturn q]
          ∧ promises s1 = promises s ++ [None]
          ∧ q = length (promises s)
          ∧ trace s1 = trace s ++ [EvDump c]
          ∧ cfg s1 = cfg s ∧ localDB s1 = localDB s)
    as (Hops & Hfiles & Hframes & Hprom & Hq & Htrace & Hcfg & Hldb).
  { subst q s1. rewrite (dump_run_join c s p Hh). cbn.
    by rewrite app_nil_r. }
  clearbody q s1.
  split_and!; try done.
  - unfold renames. rewrite Htrace, count_ev_app. cbn. lia.
  - intros ls s2 o Hrun Ho.
    assert (follows KReturn s2 q p) as Hfol.
    { eapply follows_run; [exact Hwf1|done|exact Hrun|]. left. split.
      - unfold pending. rewrite Hprom, Hq. by rewrite list_lookup_middle.
      - rewrite Hframes. apply elem_of_app. right. by left. }
    destruct (follows_settled _ _ _ _ _ Hfol Ho) as (o' & Ho' & ->). done.
  - eexists _, _. split; [|split].
    + eapply step_complete_run; [done|by rewrite Hops|]. cbn. reflexivity.
    + apply (step_resume_run _ (Frame p KReturn q) (Fulfilled VOk)).
      * cbn. rewrite Hframes. by apply list_lookup_middle.
      * unfold settled. cbn. apply list_lookup_insert_eq.
        rewrite Hprom, length_app. lia.
    + split_and!.
      * apply (resume_transparent p q KReturn); [done|].
        unfold pending. cbn. rewrite Hprom, Hq.
        rewrite list_lookup_insert_ne by lia. by rewrite list_lookup_middle.
      * rewrite resume_KReturn, settle_files. cbn.
        rewrite Hfiles, lookup_insert_ne; [done|].
        apply temporary_ne_canonical.
      * unfold renames. rewrite resume_KReturn, settle_trace. cbn.
        rewrite Htrace, count_ev_app. cbn. lia.
  - intros l s2 s3 Hr2 Hs Hne.
    eapply rename_started_by; [by apply reachable_wf|exact Hs|exact Hne].
Qed.



Lemma pending_before l s s' p :
  step l s = Some s' → p < length (promises s) → pending s' p → pending s p.
Proof.
  intros Hs Hlt Hp. destruct (promises s !! p) as [[o|]|] eqn:Hl.
  - pose proof (settled_step _ _ _ p o Hs Hl) as Ho.
    unfold settled, pending in *. congruence.
  - done.
  - apply lookup_ge_None in Hl. lia.
Qed.










Lemma lookup_fresh {A} (l k : list A) j : (l ++ k) !! (j + length l) = k !! j.
Proof. by rewrite lookup_app_r, Nat.add_sub by lia. Qed.

Lemma calls_S n (m : M pid) s :
  calls (S n) m s
  = ((m s).1 :: (calls n m (m s).2).1, (calls n m (m s).2).2).
Proof. reflexivity. Qed.



End Dumps.

(** * The first synchronisation *)

Section Init.
Context {codec : SnapshotCodec}.
Implicit Types (s : state) (l : label) (p q : pid) (o : outcome).

Lemma init_idle_count s :
  init_inv s → initPromiseSync s = None →
  count_k is_init (frames s) = 0.
Proof.
  intros Hinv Hnone. apply count_k_zero. intros f Hin.
  destruct (kont_of f) eqn:Hk; try done.
  pose proof (ii_init _ Hinv _ Hin Hk). congruence.
Qed.

Lemma init_inv_step l s s' :
  wf s → init_inv s → step l s = Some s' → init_inv s'.
Proof.
  intros Hwf Hinv H.
  step_cases Hwf H.
  all: try pose proof (init_idle_count _ Hinv Hips) as Hzero.
  all: try pose proof (count_k_delete is_init _ _ _ Hf) as Hdel;
       cbn in *.
  all: try pose proof (ii_init _ Hinv _ (list_elem_of_lookup_2 _ _ _ Hf)
                         eq_refl) as Hme; cbn in *.
  all: try pose proof (ii_lai _ Hinv _ (list_elem_of_lookup_2 _ _ _ Hf)
                         eq_refl) as Hme; cbn in *.
  all: destruct Hinv as [Iin Ila Isy Icnt Ial].
  all: split; cbn.
  all: try (rewrite ?length_insert, ?length_app; cbn).
  (* ii_init *)
  all: try (intros f' Hin Hk; apply elem_of_app in Hin as [Hin|Hin];
            [ first
                [ pose proof (count_k_pos is_init _ _ Hin) as Hpos;
                  rewrite Hk in Hpos; specialize (Hpos eq_refl); lia
                | mem_cases Hin; pose proof (Iin _ Hin Hk); congruence ]
            | mem_cases Hin; simplify_eq/=; done ]).
  all: try (intros f' Hin Hk;
            first
              [ pose proof (count_k_pos is_init _ _ Hin) as Hpos;
                rewrite Hk in Hpos; specialize (Hpos eq_refl); lia
              | mem_cases Hin; pose proof (Iin _ Hin Hk); congruence ]).
  (* ii_lai *)
  all: try (intros f' Hin Hk; mem_cases Hin; simplify_eq/=;
            try (pose proof (wf_pending_frame _ _ Hwf Hin) as Hpp;
                 unfold pending in Hpp);
            try (pose proof (Ila _ Hin Hk)); congruence).
  (* ii_synced, ii_alloc *)
  all: try (intros p' Hp'; first [apply Isy in Hp'; congruence | congruence]).
  all: try (intros p' Hp'; first [apply Ial in Hp'; lia | simplify_eq; lia]).
  all: try (rewrite ?count_k_app; cbn; lia).
Qed.

Lemma pipeline_of_app t1 t2 :
  pipeline_of (t1 ++ t2) = pipeline_of t1 ++ pipeline_of t2.
Proof. apply List.filter_app. Qed.

Lemma insert_pending (l : list (option outcome)) q o p :
  <[q := Some o]> l !! p = Some None → l !! p = Some None.
Proof.
  destruct (decide (q = p)) as [->|Hne].
  - destruct (decide (p < length l)).
    + by rewrite list_lookup_insert_eq.
    + by rewrite list_insert_ge by lia.
  - by rewrite list_lookup_insert_ne.
Qed.

Lemma app_pending (l np : list (option outcome)) p :
  p < length l → (l ++ np) !! p = Some None → l !! p = Some None.
Proof. intros Hlt. by rewrite lookup_app_l. Qed.

Lemma frames_same_result s f g :
  wf s → f ∈ frames s → g ∈ frames s → result f = result g → f = g.
Proof.
  intros [Hnd _] Hf Hg Heq. cbn in Hnd. unfold owners in Hnd.
  apply NoDup_app in Hnd as (Hnd & _ & _).
  apply list_elem_of_lookup in Hf as [i Hi].
  apply list_elem_of_lookup in Hg as [j Hj].
  assert (i = j) as ->; [|congruence].
  eapply (NoDup_lookup _ i j (result f) Hnd); rewrite list_lookup_fmap.
  - by rewrite Hi.
  - by rewrite Hj, Heq.
Qed.

Lemma frame_not_op s f p (w : op) :
  wf s → f ∈ frames s → (p, w) ∈ ops s → result f ≠ p.
Proof.
  intros [Hnd _] Hf Hp Heq. cbn in Hnd. unfold owners in Hnd.
  apply NoDup_app in Hnd as (_ & Hdis & _).
  apply (Hdis p).
  - rewrite <- Heq. apply list_elem_of_fmap. by exists f.
  - apply list_elem_of_fmap. by exists (p, w).
Qed.

Lemma delete_not_self s i f g :
  wf s → frames s !! i = Some f → g ∈ delete i (frames s) →
  result g ≠ result f.
Proof.
  intros [Hnd _] Hi Hg Heq. cbn in Hnd. unfold owners in Hnd.
  apply NoDup_app in Hnd as (Hnd & _ & _).
  pose proof (delete_Permutation (frames s) i f Hi) as HP.
  apply (fmap_Permutation result) in HP. rewrite HP in Hnd. cbn in Hnd.
  apply NoDup_cons in Hnd as [Hnot _]. apply Hnot.
  rewrite <- Heq. apply list_elem_of_fmap. by exists g.
Qed.

Lemma app_settled (l np : list (option outcome)) p o :
  p < length l → (l ++ np) !! p = Some (Some o) → l !! p = Some (Some o).
Proof. intros Hlt. by rewrite lookup_app_l. Qed.

Ltac old_lai_absurd Hwf Ila Hin Hk' :=
  exfalso;
  let Hin0 := fresh in
  pose proof Hin as Hin0;
  try apply elem_of_delete_in in Hin0;
  let H1 := fresh in
  pose proof (Ila _ Hin0 ltac:(by rewrite Hk')) as H1;
  let Hpp := fresh in
  pose proof (wf_pending_frame _ _ Hwf Hin0) as Hpp; unfold pending in Hpp;
  first
    [ congruence
    | match goal with
      | Hf : frames _ !! _ = Some _ |- _ =>
          apply (delete_not_self _ _ _ _ Hwf Hf Hin); cbn; congruence
      end ].

Ltac stage_frames Hwf Ila O :=
  let f' := fresh "f'" in let Hin := fresh "Hin" in let Hk' := fresh "Hk'" in
  intros f' Hin Hk';
  first
    [ apply elem_of_app in Hin as [Hin|Hin];
      [ first [ by (mem_cases Hin; eapply O) | old_lai_absurd Hwf Ila Hin Hk' ]
      | mem_cases Hin; simplify_eq/=; done ]
    | first [ by (mem_cases Hin; eapply O) | old_lai_absurd Hwf Ila Hin Hk' ] ].

Ltac stage_at K Hpipe :=
  exists K; split;
  [ first
      [ exact Hpipe
      | solve [ cbn; rewrite ?pipeline_of_app, ?Hpipe; cbn;
                rewrite ?app_nil_r; reflexivity ] ]
  | ].

Lemma lookup_fresh2 {A} (l k : list A) :
  (l ++ k) !! S (S (length l)) = k !! 2.
Proof. apply (lookup_fresh l k 2). Qed.

Ltac pick_new :=
  apply elem_of_app; right;
  (left + (right; left) + (right; right; left) + (right; right; right; left)).

(* The promise of the handle is pending: its owner contradicts [Hin]/[Hop],
   the call or operation that settles it. *)
Ltac owner_absurd Hwf Oow Hp' Hq :=
  exfalso;
  let g := fresh "g" in let Hg := fresh "Hg" in
  let Hlai := fresh "Hlai" in let Hres := fresh "Hres" in
  destruct (Oow _ Hp' Hq) as (g & Hg & Hlai & Hres);
  match goal with
  | Hf : frames _ !! _ = Some ?f |- _ =>
      let Heq := fresh in
      pose proof (frames_same_result _ g f Hwf Hg
                    (list_elem_of_lookup_2 _ _ _ Hf) Hres) as Heq;
      subst g; cbn in Hlai; discriminate Hlai
  | Hop : ops _ !! _ = Some _ |- _ =>
      exact (frame_not_op _ _ _ _ Hwf Hg
               (list_elem_of_lookup_2 _ _ _ Hop) Hres)
  end.

Ltac stage_done Hwf Ial Odo Oow Hq :=
  let p' := fresh "p'" in let v' := fresh "v'" in
  let Hp' := fresh "Hp'" in let Hset' := fresh "Hset'" in
  intros p' v' Hp' Hset';
  first
    [ reflexivity
    | discriminate Hp'
    | injection Hp' as <-; unfold settled in Hset'; cbn in Hset';
      rewrite lookup_fresh2 in Hset'; discriminate Hset'
    | let Hlt := fresh "Hlt" in
      pose proof (Ial _ Hp') as Hlt;
      unfold settled in Hset'; cbn in Hset';
      first
        [ by eapply Odo
        | apply app_settled in Hset';
          [ first [ by eapply Odo
                  | unfold pending in Hq; cbn in Hq; congruence ]
          | lia ]
        | match type of Hset' with
          | <[?q := _]> _ !! _ = _ =>
              destruct (decide (q = p')) as [->|?];
              [ first
                  [ rewrite list_lookup_insert_eq in Hset' by lia;
                    discriminate Hset'
                  | owner_absurd Hwf Oow Hp' Hq ]
              | rewrite list_lookup_insert_ne in Hset' by done;
                by eapply Odo ]
          end ] ].

Ltac stage_owner Hwf Ial Oow :=
  let p' := fresh "p'" in
  let Hp' := fresh "Hp'" in let Hpend' := fresh "Hpend'" in
  intros p' Hp' Hpend';
  first
    [ discriminate Hp'
    | injection Hp' as <-;
      solve [ eexists; split; [pick_new|split; reflexivity] ]
    | let Hlt := fresh "Hlt" in let Hold := fresh "Hold" in
      pose proof (Ial _ Hp') as Hlt;
      unfold pending in Hpend'; cbn in Hpend';
      pose proof Hpend' as Hold;
      try apply insert_pending in Hold;
      try (apply app_pending in Hold; [|lia]);
      let g := fresh "g" in let Hg := fresh "Hg" in
      let Hlai := fresh "Hlai" in let Hres := fresh "Hres" in
      destruct (Oow _ Hp' Hold) as (g & Hg & Hlai & Hres);
      first
        [ (* nothing left the list *)
          solve [ exists g; split; [first [exact Hg|apply elem_of_app; by left]
                                   |done] ]
        | match goal with
          | Hf : frames _ !! ?i = Some _ |- _ =>
              let Hin := fresh "Hin" in let Hi := fresh "Hi" in
              destruct (elem_of_delete_or _ i _ Hg) as [Hin|Hi];
              [ solve [ exists g;
                        split; [first [exact Hin|apply elem_of_app; by left]
                               |done] ]
              | rewrite Hf in Hi; injection Hi as <-; cbn in Hlai, Hres;
                first
                  [ discriminate Hlai
                  | subst;
                    first
                      [ solve [ eexists; split;
                                [pick_new|split; reflexivity] ]
                      | exfalso;
                        rewrite list_lookup_insert_eq in Hpend' by lia;
                        discriminate Hpend' ] ] ]
          end ] ].

Lemma staged_step l s s' :
  wf s → init_inv s → staged s → step l s = Some s' → staged s'.
Proof.
  intros Hwf Hinv (k & Hpipe & Hok) H. unfold staged.
  step_cases Hwf H.
  all: try pose proof (so_cold _ _ Hok Hsynced Hips) as Hk.
  all: try pose proof (ii_init _ Hinv _ (list_elem_of_lookup_2 _ _ _ Hf)
                         eq_refl) as Hme; cbn in *.
  all: try pose proof (ii_lai _ Hinv _ (list_elem_of_lookup_2 _ _ _ Hf)
                         eq_refl) as Hme; cbn in *.
  all: try pose proof (so_loaded _ _ Hok _ (list_elem_of_lookup_2 _ _ _ Hf)
                         eq_refl) as Hk.
  all: try pose proof (so_replicated _ _ Hok _
                         (list_elem_of_lookup_2 _ _ _ Hf) eq_refl) as Hk.
  all: try pose proof (so_dumped _ _ Hok _ (list_elem_of_lookup_2 _ _ _ Hf)
                         eq_refl) as Hk.
  all: try pose proof (so_done _ _ Hok _ _ Hme Ho) as Hk.
  all: try subst k.
  all: destruct Hinv as [Iin Ila Isy Icnt Ial].
  all: destruct Hok as [Osy Oco Obu Olo Ore Odu Odo Oow].
  all: first
    [ stage_at k Hpipe | stage_at 0 Hpipe | stage_at 2 Hpipe
    | stage_at 3 Hpipe | stage_at 4 Hpipe | stage_at 6 Hpipe ].
  all: split; cbn.
  all: try (intros Hs;
            first [ by apply Osy | congruence | done
                  | rewrite (Isy _ Hme) in Hs; discriminate Hs ]).
  all: try (intros Hs Hi; first [by apply Oco | congruence | done]).
  all: try (intros p' Hp'; first [by eapply Obu | lia | congruence]).
  all: try (stage_frames Hwf Ila Olo).
  all: try (stage_frames Hwf Ila Ore).
  all: try (stage_frames Hwf Ila Odu).
  all: try (stage_done Hwf Ial Odo Oow Hq).
  all: try (stage_owner Hwf Ial Oow).
Qed.

Lemma init_inv_construct options d (l r : store) t :
  init_inv (construct options d l r t).
Proof.
  unfold construct. rewrite (exec_eq _ _ _ _ (_scheduleDBDump_run _)).
  split; cbn.
  - intros f Hin Hk. mem_cases Hin; simplify_eq/=.
  - intros f Hin Hk. mem_cases Hin; simplify_eq/=.
  - done.
  - lia.
  - done.
Qed.

Lemma staged_construct options d (l r : store) t :
  staged (construct options d l r t).
Proof.
  unfold construct. rewrite (exec_eq _ _ _ _ (_scheduleDBDump_run _)).
  exists 0. split; [reflexivity|]. split; cbn; try done.
  all: intros f Hin Hk; mem_cases Hin; simplify_eq/=.
Qed.

Lemma reachable_init_inv s : reachable s → init_inv s.
Proof.
  apply (reachable_invariant init_inv).
  - apply init_inv_construct.
  - intros l s1 s2 Hwf Hinv Hs. by eapply init_inv_step.
Qed.

Lemma reachable_staged s : reachable s → staged s.
Proof.
  intros Hr.
  enough (init_inv s ∧ staged s) by tauto.
  revert s Hr. apply (reachable_invariant (λ s, init_inv s ∧ staged s)).
  - split; [apply init_inv_construct|apply staged_construct].
  - intros l s1 s2 Hwf [Hinv Hst] Hs.
    split; [by eapply init_inv_step|by eapply staged_step].
Qed.

Lemma sound_step l s s' : sound s → step l s = Some s' → sound s'.
Proof.
  intros (H1 & H2 & H3 & H4) Hs.
  split_and!; [by eapply wf_step|by eapply dump_inv_step
              |by eapply init_inv_step|by eapply staged_step].
Qed.

Lemma sound_run ls s s' : sound s → run ls s = Some s' → sound s'.
Proof. apply (run_invariant sound). intros l x y. apply sound_step. Qed.

Lemma reachable_sound s : reachable s → sound s.
Proof.
  intros Hr. split_and!;
    [by apply reachable_wf|by apply reachable_dump_inv
    |by apply reachable_init_inv|by apply reachable_staged].
Qed.

Lemma count_ev_pipeline P t :
  (∀ e, P e = true → is_pipeline e = true) →
  count_ev P (pipeline_of t) = count_ev P t.
Proof.
  intros HP. unfold pipeline_of.
  induction t as [|e t IH]; cbn [List.filter count_ev]; [done|].
  destruct (is_pipeline e) eqn:He; cbn [count_ev]; rewrite IH; [done|].
  destruct (P e) eqn:HPe; [|done]. apply HP in HPe. congruence.
Qed.

(** One initial synchronisation at most, with one replication at most. *)
Lemma staged_once s : staged s → syncs s ≤ 1 ∧ replicates s ≤ 1.
Proof.
  intros (k & Hpipe & _). unfold syncs, replicates.
  rewrite <- (count_ev_pipeline is_loadAndInit_call),
    <- (count_ev_pipeline is_replicate), Hpipe.
  - do 7 (destruct k as [|k]; [cbn; lia|]). cbn. lia.
  - by intros [].
  - by intros [| | | |?|[]| | |].
Qed.

Lemma sound_alike s s' : alike s s' → sound s → sound s'.
Proof.
  intros (E1 & E2 & E3 & E4 & E5 & E6 & E7 & E8)
    (Hwf & [D1 D2 D3 D4 D5] & [I1 I2 I3 I4 I5] & (k & Hp & [O1 O2 O3 O4 O5 O6 O7 O8])).
  unfold temporary, canonical, settled, pending in *.
  split_and!.
  - revert Hwf. by apply wfx_same.
  - split; unfold temporary, canonical; rewrite ?E1, ?E4, ?E5, ?E6, ?E7; done.
  - split; rewrite ?E2, ?E3, ?E5, ?E6; done.
  - exists k. split; [congruence|].
    split; unfold settled, pending; rewrite ?E2, ?E3, ?E5, ?E6; done.
Qed.

Local Ltac alike_tac :=
  unfold alike; cbn; rewrite ?pipeline_of_app; cbn; rewrite ?app_nil_r; split_and!; reflexivity.

Lemma init_alike c s : alike (init Client s).2 (init c s).2.
Proof.
  destruct (synced s) eqn:Hs; [|destruct (initPromiseSync s) as [p|] eqn:Hi].
  - rewrite !init_run_synced by done. alike_tac.
  - rewrite !(init_run_join _ s p) by done. alike_tac.
  - rewrite !init_run_cold by done. alike_tac.
Qed.

Lemma sound_init c s : sound s → sound (init c s).2.
Proof.
  intros H. apply (sound_alike _ _ (init_alike c s)).
  by apply (sound_step CallInit s).
Qed.

Lemma sound_get id s : sound s → sound (get id s).2.
Proof. intros H. by apply (sound_step (CallGet id) s). Qed.

Lemma same_outcome_passed k o : same_outcome o (passed k o).
Proof. by destruct k, o. Qed.

Lemma follows_init k c s q p :
  wf s → follows k s q p → follows k (init c s).2 q p.
Proof.
  intros Hwf [[Hq Hf]|(o & Hp & Hq)].
  - left. apply (keeps_mono_init _ (monotone_parked _) c) in Hf.
    split; [|done]. apply (wf_pending_frame _ _ (keeps_wfx_init [] c s Hwf) Hf).
  - right. exists o.
    split; by apply (keeps_mono_init _ (monotone_settled _ _) c).
Qed.

(** Calls of [init()] made while the handle is set all wait for it. *)
Lemma init_calls_join n c s p :
  sound s → synced s = false → initPromiseSync s = Some p →
  let r := calls n (init c) s in
  sound r.2 ∧ length r.1 = n
  ∧ initPromiseSync r.2 = Some p ∧ synced r.2 = false
  ∧ (∀ q, q ∈ r.1 → follows KReturn r.2 q p)
  ∧ (∀ k q, follows k s q p → follows k r.2 q p).
Proof.
  revert s. induction n as [|n IH]; intros s Hs Hsy Hh.
  { cbn. split_and!; try done. intros q Hq. by apply elem_of_nil in Hq. }
  rewrite calls_S. cbn [fst snd].
  pose proof (sound_init c s Hs) as Hs1.
  pose proof (λ k, follows_init k c s) as Hfol1.
  destruct Hs as (Hwf & _).
  assert (follows KReturn (init c s).2 (init c s).1 p
          ∧ initPromiseSync (init c s).2 = Some p
          ∧ synced (init c s).2 = false) as (Hnew & Hh1 & Hsy1).
  { rewrite (init_run_join c s p Hsy Hh). cbn [fst snd]. split_and!; [|done..].
    left. split.
    - unfold pending. cbn. by rewrite list_lookup_middle.
    - cbn. apply elem_of_app. right. by left. }
  destruct (init c s) as [q s1]. cbn [fst snd] in *.
  destruct (IH s1 Hs1 Hsy1 Hh1) as (H1 & H4 & H2 & H3 & H5 & H6).
  destruct (calls n (init c) s1) as [qs s2]. cbn [fst snd] in *.
  split_and!; try done.
  - cbn. by rewrite H4.
  - intros q' [->|Hq']%elem_of_cons; auto.
  - auto.
Qed.

(** C2. However many calls of [init()] are made in a row on a store that is
    not synced, the store sees one initial synchronisation at most, with one
    replication pass at most, in all its life; and every one of the calls
    gets the outcome of the one promise the handle then holds: fulfilled if
    it is fulfilled, rejected with its error if it is rejected. *)
Theorem init_single_flight s c n ls s2 :
  reachable s → synced s = false →
  run ls (calls (S n) (init c) s).2 = Some s2 →
  syncs s2 ≤ 1 ∧ replicates s2 ≤ 1
  ∧ ∃ p, initPromiseSync (calls (S n) (init c) s).2 = Some p
      ∧ ∀ q o,
          q ∈ (calls (S n) (init c) s).1 → settled s2 q o →
          ∃ o', settled s2 p o' ∧ same_outcome o' o.
Proof.
  intros Hr Hsy. pose proof (reachable_sound _ Hr) as Hs.
  pose proof (sound_init c s Hs) as Hs1.
  assert (∃ p k, transparent k = true
                 ∧ follows k (init c s).2 (init c s).1 p
                 ∧ initPromiseSync (init c s).2 = Some p
                 ∧ synced (init c s).2 = false) as (p & k0 & Hk0 & Hf0 & Hh1 & Hsy1).
  { destruct (initPromiseSync s) as [p|] eqn:Hh.
    - exists p, KReturn. rewrite (init_run_join c s p Hsy Hh). cbn [fst snd].
      split_and!; try done. left. split.
      + unfold pending. cbn. by rewrite list_lookup_middle.
      + cbn. apply elem_of_app. right. by left.
    - exists (S (S (length (promises s)))), KInit.
      rewrite (init_run_cold c s Hsy Hh). cbn [fst snd].
      split_and!; try done. left. split.
      + unfold pending. cbn.
        exact (lookup_fresh (promises s) [None; None; None; None] 3).
      + cbn. apply elem_of_app. right. right. right. by left. }
  rewrite calls_S. cbn [fst snd].
  destruct (init c s) as [q0 s1]. cbn [fst snd] in *.
  destruct (init_calls_join n c s1 p Hs1 Hsy1 Hh1) as (H1 & H4 & H2 & H3 & H5 & H6).
  destruct (calls n (init c) s1) as [js s1']. cbn [fst snd] in *.
  intros Hrun.
  pose proof (sound_run _ _ _ H1 Hrun) as (Hwf2 & _ & _ & Hst2).
  destruct (staged_once _ Hst2) as [Hsyncs Hreps].
  split_and!; try done.
  exists p. split.
  { done. }
  intros q o Hq Ho.
  assert (∃ k, transparent k = true ∧ follows k s1' q p) as (k & Hk & Hfol).
  { apply elem_of_cons in Hq as [->|Hq]; [exists k0|exists KReturn]; auto. }
  destruct H1 as (Hwf1' & _).
  pose proof (follows_run _ _ _ _ _ _ Hwf1' Hk Hrun Hfol) as Hfol2.
  destruct (follows_settled _ _ _ _ _ Hfol2 Ho) as (o' & Ho' & ->).
  exists o'. split; [done|]. apply same_outcome_passed.
Qed.

Lemma repl_inv_step l s s' :
  wf s → repl_inv s → step l s = Some s' → repl_inv s'.
Proof.
  intros Hwf Hinv H.
  step_cases Hwf H.
  all: intros p' Hin; cbn in Hin |- *.
  all: mem_cases Hin; simplify_eq/=.
  all: try (exists q; apply elem_of_app; right; by left).
  all: try pose proof (wf_pending_in_flight _ _ _ Hwf Hin) as Hpp.
  all: destruct (Hinv _ Hin) as [h Hfr]; exists h.
  all: try done.
  all: try (apply elem_of_app; left).
  all: try done.
  all: try (destruct (elem_of_delete_or _ i _ Hfr) as [|Heq]; [done|];
            rewrite Hf in Heq; simplify_eq; unfold pending in Hpp;
            congruence).
Qed.

Lemma repl_inv_construct options d (l r : store) t :
  repl_inv (construct options d l r t).
Proof.
  unfold construct. rewrite (exec_eq _ _ _ _ (_scheduleDBDump_run _)).
  intros p Hin. cbn in Hin. mem_cases Hin; simplify_eq/=.
Qed.

Lemma reachable_repl_inv s : reachable s → repl_inv s.
Proof.
  apply reachable_invariant.
  - apply repl_inv_construct.
  - intros l s1 s2 Hwf. by apply repl_inv_step.
Qed.

Lemma doomed_owner s e f :
  wf s → f ∈ frames s → doomed s e (result f) → doomed s e (awaiting f).
Proof.
  intros Hwf Hf Hd. pose proof (wf_pending_frame _ _ Hwf Hf) as Hp.
  inversion Hd as [q Hs|g Hg Hc Hq Hd' Heq].
  - unfold pending, settled in *. congruence.
  - by rewrite <- (frames_same_result _ _ _ Hwf Hg Hf Heq).
Qed.

(** While the init handle holds a promise that is or will be rejected, no
    step clears it, marks the store synced, or starts a synchronisation. *)
Lemma rejecting_step l s s' h e :
  wf s → init_inv s → rejecting s h e → step l s = Some s' →
  rejecting s' h e ∧ synced s' = false
  ∧ syncs s' = syncs s ∧ replicates s' = replicates s.
Proof.
  intros Hwf Hinv [Hh Hd] H. pose proof H as H0.
  pose proof (ii_synced _ Hinv _ Hh) as Hsy.
  assert (∀ i a k q v,
            frames s !! i = Some (Frame a k q) →
            promises s !! a = Some (Some (Fulfilled v)) →
            k = KInit ∨ is_loadAndInit k = true → False) as Habs.
  { intros i a k q v Hf Ho Hk.
    pose proof (list_elem_of_lookup_2 _ _ _ Hf) as Hin.
    assert (doomed s e a) as Hda.
    { destruct Hk as [->|Hk].
      - pose proof (ii_init _ Hinv _ Hin eq_refl) as Hme. cbn in Hme.
        by simplify_eq.
      - pose proof (ii_lai _ Hinv _ Hin Hk) as Hme. cbn in Hme. simplify_eq.
        apply (doomed_owner _ _ _ Hwf Hin Hd). }
    by pose proof (doomed_settled _ _ _ _ Hda Ho). }
  split; [split; [|by eapply doomed_step]|split_and!].
  - clear H0. step_cases Hwf H; cbn; try done; try congruence.
    all: exfalso; eapply Habs; eauto.
  - clear H0. step_cases Hwf H; cbn; try done; try congruence.
    all: exfalso; eapply Habs; eauto.
  - clear H0. unfold syncs.
    step_cases Hwf H; cbn; rewrite ?count_ev_app; cbn; try lia; try congruence.
  - clear H0. unfold replicates.
    step_cases Hwf H; cbn; rewrite ?count_ev_app; cbn; try lia; try congruence.
    all: exfalso; eapply Habs; eauto.
Qed.

Lemma rejecting_run ls s s' h e :
  wf s → init_inv s → rejecting s h e → run ls s = Some s' →
  rejecting s' h e ∧ synced s' = false
  ∧ syncs s' = syncs s ∧ replicates s' = replicates s.
Proof.
  intros Hwf Hinv Hst Hrun.
  pose proof (ii_synced _ Hinv _ (proj1 Hst)) as Hsy.
  enough (wf s' ∧ init_inv s' ∧ rejecting s' h e ∧ synced s' = false
          ∧ syncs s' = syncs s ∧ replicates s' = replicates s) by tauto.
  revert Hrun.
  apply (run_invariant
           (λ s', wf s' ∧ init_inv s' ∧ rejecting s' h e ∧ synced s' = false
                  ∧ syncs s' = syncs s ∧ replicates s' = replicates s));
    [|done].
  intros l s1 s2 (H1 & H2 & H3 & H4 & H5 & H6) Hs.
  destruct (rejecting_step _ _ _ _ _ H1 H2 H3 Hs) as (? & ? & ? & ?).
  split_and!; [by eapply wf_step|by eapply init_inv_step|done|done|lia|lia].
Qed.

(** A call that waits outside a [try] for a promise that is rejected is
    rejected when it goes on, if it has not been already. *)
Lemma waiting_run ls s s' e f :
  wf s → f ∈ frames s → catches (kont_of f) = false →
  doomed s e (awaiting f) → run ls s = Some s' →
  f ∈ frames s' ∨ settled s' (result f) (Rejected e).
Proof.
  intros Hwf Hf Hc Hd Hrun.
  enough (wf s' ∧ doomed s' e (awaiting f)
          ∧ (f ∈ frames s' ∨ settled s' (result f) (Rejected e))) by tauto.
  revert Hrun.
  apply (run_invariant
           (λ s', wf s' ∧ doomed s' e (awaiting f)
                  ∧ (f ∈ frames s' ∨ settled s' (result f) (Rejected e))));
    [|by auto].
  intros l s1 s2 (H1 & H2 & H3) Hs.
  split_and!; [by eapply wf_step|by eapply doomed_step|].
  destruct H3 as [H3|H3]; [|right; by eapply settled_step].
  destruct (parked_step _ _ _ _ Hs H3) as [?|(i & -> & Hi)]; [by left|right].
  pose proof (wf_pending_frame _ _ H1 H3) as Hp.
  apply step_resume_inv in Hs as (f' & o & Hi' & Ho & ->).
  simplify_eq. rewrite (doomed_settled _ _ _ _ H2 Ho).
  by apply resume_throw_settled.
Qed.

(** What is bound to be rejected can be: the suspended calls in the way go
    on one after the other. *)
Lemma doomed_settles s e q :
  wf s → doomed s e q →
  ∃ ls s', run ls s = Some s' ∧ settled s' q (Rejected e).
Proof.
  intros Hwf Hd. induction Hd as [q H|f Hf Hc Hq Hd IH].
  - by exists [], s.
  - destruct IH as (ls & s1 & Hrun & Hset).
    pose proof (wf_run _ _ _ Hwf Hrun) as Hwf1.
    destruct (waiting_run _ _ _ _ _ Hwf Hf Hc Hd Hrun) as [Hin|Hdone];
      [|by exists ls, s1].
    apply list_elem_of_lookup in Hin as [j Hj].
    exists (ls ++ [Resume j]). eexists. split.
    + rewrite run_app, Hrun. cbn [mbind option_bind run].
      by rewrite (step_resume_run _ _ _ _ Hj Hset).
    + apply resume_throw_settled; [done|].
      apply (wf_pending_result _ _ _ Hwf1 Hj).
Qed.

(** C3. When the replication pass of the first [init()] fails with [e], the
    promise in the init handle is rejected with [e] and stays in the handle
    for good: the store is never marked synced, no synchronisation and no
    replication pass is started again, every call that waits for the handle
    is rejected with [e], and so is every later [get()], which starts
    nothing either. *)
Theorem init_failure_is_permanent s i p e partial s1 ls s2 id :
  reachable s → ops s !! i = Some (p, OpReplicate) →
  step (Complete i (Failed e partial)) s = Some s1 →
  run ls s1 = Some s2 →
  ∃ h,
    initPromiseSync s = Some h ∧ initPromiseSync s2 = Some h
    ∧ synced s2 = false
    ∧ syncs s2 = syncs s ∧ replicates s2 = replicates s
    ∧ (∀ o, settled s2 h o → o = Rejected e)
    ∧ (∃ ls' s3, run ls' s2 = Some s3 ∧ settled s3 h (Rejected e))
    ∧ (∀ k q o,
         transparent k = true → follows k s q h → settled s2 q o →
         o = Rejected e)
    ∧ syncs (get id s2).2 = syncs s ∧ replicates (get id s2).2 = replicates s
    ∧ (∀ ls' s3 o,
         run ls' (get id s2).2 = Some s3 → settled s3 (get id s2).1 o →
         o = Rejected e ∧ replicates s3 = replicates s)
    ∧ (∃ ls' s3,
         run ls' (get id s2).2 = Some s3
         ∧ settled s3 (get id s2).1 (Rejected e)).
Proof.
  intros Hr Hop Hs Hrun.
  pose proof (reachable_sound _ Hr) as (Hwf & _ & Hinit & _).
  pose proof (list_elem_of_lookup_2 _ _ _ Hop) as Hin.
  destruct (reachable_repl_inv _ Hr _ Hin) as [h Hfr].
  pose proof (ii_lai _ Hinit _ Hfr eq_refl) as Hh. cbn in Hh.
  pose proof (wf_step _ _ _ Hwf Hs) as Hwf1.
  pose proof (init_inv_step _ _ _ Hwf Hinit Hs) as Hinit1.
  pose proof (wf_run _ _ _ Hwf1 Hrun) as Hwf2.
  assert (settled s1 p (Rejected e)) as Hp1.
  { pose proof (wf_pending_op _ _ _ _ Hwf Hop) as Hp.
    pose proof Hs as Hs'.
    apply step_complete_inv in Hs' as (p' & w & out & s0 & Hop' & Hc & ->).
    simplify_eq. cbn in Hc. simplify_eq. by apply settle_settled. }
  assert (Frame p KLoadAndInit_replicated h ∈ frames s1) as Hfr1.
  { destruct (parked_step _ _ _ _ Hs Hfr) as [|(j & Hj & _)]; done. }
  assert (initPromiseSync s1 = Some h
          ∧ syncs s1 = syncs s ∧ replicates s1 = replicates s)
    as (Hh1 & Hsy1 & Hre1).
  { clear Hrun Hp1 Hfr1 Hwf1 Hinit1. unfold syncs, replicates.
    pose proof (wf_pending_op _ _ _ _ Hwf Hop) as Hp.
    apply step_complete_inv in Hs as (p' & w & out & s0 & Hop' & Hc & ->).
    simplify_eq. cbn in Hc. simplify_eq.
    by rewrite settle_pending. }
  assert (rejecting s1 h e) as Hrej1.
  { split; [done|].
    apply (doomed_wait _ _ (Frame p KLoadAndInit_replicated h)); try done.
    - apply (wf_pending_frame _ _ Hwf1 Hfr1).
    - by apply doomed_now. }
  destruct (rejecting_run _ _ _ _ _ Hwf1 Hinit1 Hrej1 Hrun)
    as ([Hh2 Hd2] & Hsyn2 & Hsy2 & Hre2).
  assert (init_inv s2) as Hinit2.
  { revert Hrun. apply (run_invariant (λ s, wf s ∧ init_inv s)); [|done].
    intros l0 sa sb [? ?] ?. split; [by eapply wf_step|by eapply init_inv_step]. }
  assert (step (CallGet id) s2 = Some (get id s2).2) as Hget by done.
  destruct (rejecting_step _ _ _ _ _ Hwf2 Hinit2 (conj Hh2 Hd2) Hget)
    as (Hrej3 & Hsyn3 & Hsy3 & Hre3).
  pose proof (wf_step _ _ _ Hwf2 Hget) as Hwf3.
  assert (doomed (get id s2).2 e (get id s2).1) as Hdg.
  { clear Hget Hsy3 Hre3 Hsyn3. destruct Hrej3 as [_ Hd3]. revert Hd3 Hwf3.
    rewrite (get_run_join id s2 h Hsyn2 Hh2). cbn [fst snd].
    set (n := length (promises s2)). intros Hd3 Hwf3.
    apply (doomed_wait _ _ (Frame n (KGet_inited id) (S n))); cbn.
    - apply elem_of_app. right. right. by left.
    - done.
    - unfold pending. cbn. exact (lookup_fresh (promises s2) [None; None] 1).
    - apply (doomed_wait _ _ (Frame h KReturn n)); cbn.
      + apply elem_of_app. right. by left.
      + done.
      + unfold pending. cbn. by rewrite list_lookup_middle.
      + done. }
  exists h. split_and!; try done; try lia.
  - intros o. by apply doomed_settled.
  - by apply doomed_settles.
  - intros k q o Hk Hfol Hq.
    assert (follows k s2 q h) as Hfol2.
    { apply (follows_run ls s1); try done.
      by apply (follows_step (Complete i (Failed e partial)) s). }
    destruct (follows_settled _ _ _ _ _ Hfol2 Hq) as (o' & Ho' & ->).
    rewrite (doomed_settled _ _ _ _ Hd2 Ho'). by destruct k.
  - intros ls' s3 o Hrun3 Ho. split.
    + pose proof (doomed_run _ _ _ _ _ Hwf3 Hrun3 Hdg) as Hd.
      by apply (doomed_settled _ _ _ _ Hd).
    + pose proof (init_inv_step _ _ _ Hwf2 Hinit2 Hget) as Hi3.
      destruct (rejecting_run _ _ _ _ _ Hwf3 Hi3 Hrej3 Hrun3)
        as (_ & _ & _ & ?). lia.
  - by apply doomed_settles.
Qed.



End Init.

(** * Dump and load *)

Lemma lookup_last {A} (l : list A) x : (l ++ [x]) !! length l = Some x.
Proof. by rewrite list_lookup_middle. Qed.

Lemma delete_last {A} (l : list A) x : delete (length l) (l ++ [x]) = l.
Proof.
  induction l as [|y l IH]; [done|]. cbn. f_equal. apply IH.
Qed.

Ltac st_norm :=
  cbn [extend set_synced set_initPromiseSync set_databaseDumpPendingPromise
    set_localDB set_remoteDB set_files set_now set_live set_promises
    set_frames set_ops set_ticks set_trace set_console
    cfg synced initPromiseSync databaseDumpPendingPromise localDB remoteDB
    files now live promises frames ops ticks trace console
    awaiting kont_of result fst snd].

Section RoundTrip.
Context {codec : SnapshotCodec}.

(** A dump that nothing disturbs: the write ends, the call goes on to the
    rename, the rename ends, the call returns. *)
Lemma dump_cycle s c :
  databaseDumpPendingPromise s = None →
  ∃ s',
    run [Complete (length (ops s)) Done; Resume (length (frames s));
         Complete (length (ops s)) Done; Resume (length (frames s))]
      (dump c s).2 = Some s'
    ∧ settled s' (dump c s).1 (Fulfilled VUndefined)
    ∧ databaseDumpPendingPromise s' = None
    ∧ localDB s' = localDB s
    ∧ files s' = <[canonical s := encode (localDB s)]>
                   (delete (temporary s)
                      (<[temporary s := encode (localDB s)]>
                         (<[temporary s := []]> (files s))))
    ∧ cfg s' = cfg s.
Proof.
  intros Hh. rewrite (dump_run_start c s Hh). cbn [fst snd].
  set (tmp := temporary s). set (can := canonical s).
  clearbody tmp can.
  destruct s as [cf sy ip dh ldb rdb fs nw lv ps frs os tk tr cn].
  cbn in Hh. subst dh. st_norm.
  eexists. split.
  { unfold run. cbn [step]. st_norm.
    rewrite lookup_last, delete_last.
    cbn [complete]. st_norm.
    rewrite settle_pending
      by (unfold pending; st_norm; exact (lookup_fresh ps [None; None] 0)).
    st_norm.
    rewrite lookup_last. st_norm.
    rewrite list_lookup_insert_eq by (rewrite length_app; cbn; lia).
    rewrite delete_last, resume_KDump_written. st_norm.
    rewrite lookup_last, delete_last. cbn [complete]. st_norm.
    rewrite lookup_insert_eq.
    rewrite settle_pending by (unfold pending; st_norm; apply lookup_last).
    st_norm.
    rewrite lookup_last. st_norm.
    rewrite list_lookup_insert_eq by (rewrite length_app; cbn; lia).
    rewrite delete_last, resume_KReturn.
    rewrite settle_pending.
    2:{ unfold pending. st_norm.
        rewrite list_lookup_insert_ne
          by (rewrite length_insert, length_app; cbn; lia).
        rewrite lookup_app_l
          by (rewrite length_insert, length_app; cbn; lia).
        rewrite list_lookup_insert_ne by lia.
        exact (lookup_fresh ps [None; None] 1). }
    st_norm. reflexivity. }
  st_norm. split_and!; try done.
  unfold settled. st_norm.
  apply list_lookup_insert_eq.
  rewrite length_insert, length_app, length_insert, length_app. cbn. lia.
Qed.

(** A load that nothing disturbs, of a snapshot that is there: the check for
    the file ends, the call goes on to read it, the read ends, the call
    returns. *)
Lemma load_cycle s c b snap :
  files s !! canonical s = Some b → decode b = Some snap →
  ∃ s',
    run [Complete (length (ops s)) Done; Resume (length (frames s));
         Complete (length (ops s)) Done; Resume (length (frames s))]
      (load c s).2 = Some s'
    ∧ settled s' (load c s).1 (Fulfilled VOk)
    ∧ localDB s' = replicate_into snap (localDB s)
    ∧ files s' = files s.
Proof.
  intros Hb Hsnap. rewrite (load_run c s). cbn [fst snd].
  set (can := canonical s) in *. clearbody can.
  destruct s as [cf sy ip dh ldb rdb fs nw lv ps frs os tk tr cn].
  cbn in Hb. st_norm.
  eexists. split.
  { unfold run. cbn [step]. st_norm.
    rewrite lookup_last, delete_last.
    cbn [complete]. st_norm. rewrite Hb.
    rewrite settle_pending
      by (unfold pending; st_norm; exact (lookup_fresh ps [None; None] 0)).
    st_norm.
    rewrite lookup_last. st_norm.
    rewrite list_lookup_insert_eq by (rewrite length_app; cbn; lia).
    rewrite delete_last, resume_KLoad_accessed_present. st_norm.
    rewrite lookup_last, delete_last. cbn [complete]. st_norm.
    rewrite Hb, Hsnap.
    rewrite settle_pending by (unfold pending; st_norm; apply lookup_last).
    st_norm.
    rewrite lookup_last. st_norm.
    rewrite list_lookup_insert_eq by (rewrite length_app; cbn; lia).
    rewrite delete_last, resume_KReturn.
    rewrite settle_pending.
    2:{ unfold pending. st_norm.
        rewrite list_lookup_insert_ne
          by (rewrite length_insert, length_app; cbn; lia).
        rewrite lookup_app_l
          by (rewrite length_insert, length_app; cbn; lia).
        rewrite list_lookup_insert_ne by lia.
        exact (lookup_fresh ps [None; None] 1). }
    st_norm. reflexivity. }
  st_norm. split_and!; try done.
  unfold settled. st_norm.
  apply list_lookup_insert_eq.
  rewrite length_insert, length_app, length_insert, length_app. cbn. lia.
Qed.

(** Without a snapshot on disk [load()] returns at once, having read
    nothing. *)
Lemma load_absent s c :
  files s !! canonical s = None →
  ∃ s',
    run [Complete (length (ops s)) Done; Resume (length (frames s))]
      (load c s).2 = Some s'
    ∧ settled s' (load c s).1 (Fulfilled VUndefined)
    ∧ localDB s' = localDB s ∧ files s' = files s
    ∧ ops s' = ops s ∧ frames s' = frames s.
Proof.
  intros Hb. rewrite (load_run c s). cbn [fst snd].
  set (can := canonical s) in *. clearbody can.
  destruct s as [cf sy ip dh ldb rdb fs nw lv ps frs os tk tr cn].
  cbn in Hb. st_norm.
  eexists. split.
  { unfold run. cbn [step]. st_norm.
    rewrite lookup_last, delete_last.
    cbn [complete]. st_norm. rewrite Hb.
    rewrite settle_pending
      by (unfold pending; st_norm; exact (lookup_fresh ps [None; None] 0)).
    st_norm.
    rewrite lookup_last. st_norm.
    rewrite list_lookup_insert_eq by (rewrite length_app; cbn; lia).
    rewrite delete_last, resume_KLoad_accessed_absent.
    rewrite settle_pending.
    2:{ unfold pending. st_norm.
        rewrite list_lookup_insert_ne by lia.
        exact (lookup_fresh ps [None; None] 1). }
    st_norm. reflexivity. }
  st_norm. split_and!; try done.
  unfold settled. st_norm.
  apply list_lookup_insert_eq.
  rewrite length_insert, length_app. cbn. lia.
Qed.

Lemma replicate_into_empty (snap : store) : replicate_into snap ∅ = snap.
Proof. unfold replicate_into. apply (right_id ∅ _). Qed.


End RoundTrip.

(** * The dump scheduler *)

Lemma sched_of_app t1 t2 : sched_of (t1 ++ t2) = sched_of t1 ++ sched_of t2.
Proof. apply List.filter_app. Qed.

Section Scheduler.
Context {codec : SnapshotCodec}.
Implicit Types (s : state) (l : label) (p q : pid) (o : outcome).











End Scheduler.

(** * Reading a document *)

Section Get.
Context {codec : SnapshotCodec}.
Implicit Types (s : state) (l : label) (p q : pid) (o : outcome).



End Get.

(** * More of the store *)

Section Construction.
Context {codec : SnapshotCodec}.
Implicit Types (s : state) (l : label) (p q : pid) (o : outcome).

(** X1. The constructor: an empty store name becomes [wdw], a checkpoint time of
    zero becomes fifteen minutes, anything else is kept; and no method of
    the store changes its configuration afterwards. The configuration is
    taken to be the options as the constructor hands them to [ConfigBase],
    with nothing in the process environment set to override them. *)
Theorem config_is_fixed options d (l r : store) t ls s :
  run ls (construct options d l r t) = Some s →
  cfg s = defaults options
  ∧ dbName (cfg s) ≠ EmptyString
  ∧ checkpointTime (cfg s) ≠ 0%N
  ∧ (dbName options ≠ EmptyString → dbName (cfg s) = dbName options)
  ∧ (dbName options = EmptyString → dbName (cfg s) = "wdw")
  ∧ (checkpointTime options ≠ 0%N →
       checkpointTime (cfg s) = checkpointTime options)
  ∧ (checkpointTime options = 0%N → checkpointTime (cfg s) = 900000%N).
Proof.
  intros Hrun.
  assert (cfg s = defaults options) as ->.
  { revert Hrun.
    apply (run_invariant (λ s, wf s ∧ cfg s = defaults options)).
    - intros l0 sa sb [Ha Hb] Hs. split; [by eapply wf_step|].
      by rewrite (cfg_step _ _ _ Ha Hs).
    - split; [apply wf_construct|].
      unfold construct. by rewrite (exec_eq _ _ _ _ (_scheduleDBDump_run _)). }
  unfold defaults. cbn.
  destruct (decide (dbName options = EmptyString)) as [Hn|Hn];
    destruct (decide (checkpointTime options = 0%N)) as [Ht|Ht];
    split_and!; try done.
Qed.



End Construction.

(** * Runs of a method, step by step *)

Lemma delete_fresh {A} (l k : list A) j :
  delete (j + length l) (l ++ k) = l ++ delete j k.
Proof.
  induction l as [|y l IH]; cbn.
  - by rewrite Nat.add_0_r.
  - rewrite Nat.add_succ_r. cbn. f_equal. apply IH.
Qed.

Lemma insert_fresh {A} (l k : list A) j x :
  <[j + length l := x]> (l ++ k) = l ++ <[j := x]> k.
Proof.
  induction l as [|y l IH]; cbn.
  - by rewrite Nat.add_0_r.
  - rewrite Nat.add_succ_r. cbn. f_equal. apply IH.
Qed.

Section Sync.
Context {codec : SnapshotCodec}.

Ltac len_norm :=
  repeat first [rewrite length_insert | rewrite length_app];
  cbn [length]; rewrite ?Nat.add_succ_r, ?Nat.add_0_r.

Ltac fresh_at :=
  first
    [ exact (lookup_fresh _ _ 0) | exact (lookup_fresh _ _ 1)
    | exact (lookup_fresh _ _ 2) | exact (lookup_fresh _ _ 3)
    | exact (lookup_fresh _ _ 4) | exact (lookup_fresh _ _ 5)
    | exact (lookup_fresh _ _ 6) | exact (lookup_fresh _ _ 7)
    | exact (lookup_fresh _ _ 8) ].

(** The lookup, the deletion and the update at a place counted from the end
    of the old part of a list. *)
Ltac look_at :=
  match goal with
  | |- context [(?l ++ ?k) !! ?i] =>
      first
        [ change ((l ++ k) !! i) with ((l ++ k) !! (0 + length l));
          rewrite (lookup_fresh l k 0)
        | change ((l ++ k) !! i) with ((l ++ k) !! (1 + length l));
          rewrite (lookup_fresh l k 1)
        | change ((l ++ k) !! i) with ((l ++ k) !! (2 + length l));
          rewrite (lookup_fresh l k 2)
        | change ((l ++ k) !! i) with ((l ++ k) !! (3 + length l));
          rewrite (lookup_fresh l k 3)
        | change ((l ++ k) !! i) with ((l ++ k) !! (4 + length l));
          rewrite (lookup_fresh l k 4)
        | change ((l ++ k) !! i) with ((l ++ k) !! (5 + length l));
          rewrite (lookup_fresh l k 5)
        | change ((l ++ k) !! i) with ((l ++ k) !! (6 + length l));
          rewrite (lookup_fresh l k 6)
        | change ((l ++ k) !! i) with ((l ++ k) !! (7 + length l));
          rewrite (lookup_fresh l k 7)
        | change ((l ++ k) !! i) with ((l ++ k) !! (8 + length l));
          rewrite (lookup_fresh l k 8) ];
      cbn [lookup list_lookup]
  end.

Ltac drop_at :=
  match goal with
  | |- context [delete ?i (?l ++ ?k)] =>
      first
        [ change (delete i (l ++ k)) with (delete (0 + length l) (l ++ k));
          rewrite (delete_fresh l k 0)
        | change (delete i (l ++ k)) with (delete (1 + length l) (l ++ k));
          rewrite (delete_fresh l k 1)
        | change (delete i (l ++ k)) with (delete (2 + length l) (l ++ k));
          rewrite (delete_fresh l k 2)
        | change (delete i (l ++ k)) with (delete (3 + length l) (l ++ k));
          rewrite (delete_fresh l k 3)
        | change (delete i (l ++ k)) with (delete (4 + length l) (l ++ k));
          rewrite (delete_fresh l k 4) ];
      cbn [delete list_delete]
  end.

Ltac put_at :=
  match goal with
  | |- context [<[?i := ?x]> (?l ++ ?k)] =>
      first
        [ change (<[i := x]> (l ++ k)) with (<[0 + length l := x]> (l ++ k));
          rewrite (insert_fresh l k 0 x)
        | change (<[i := x]> (l ++ k)) with (<[1 + length l := x]> (l ++ k));
          rewrite (insert_fresh l k 1 x)
        | change (<[i := x]> (l ++ k)) with (<[2 + length l := x]> (l ++ k));
          rewrite (insert_fresh l k 2 x)
        | change (<[i := x]> (l ++ k)) with (<[3 + length l := x]> (l ++ k));
          rewrite (insert_fresh l k 3 x)
        | change (<[i := x]> (l ++ k)) with (<[4 + length l := x]> (l ++ k));
          rewrite (insert_fresh l k 4 x)
        | change (<[i := x]> (l ++ k)) with (<[5 + length l := x]> (l ++ k));
          rewrite (insert_fresh l k 5 x)
        | change (<[i := x]> (l ++ k)) with (<[6 + length l := x]> (l ++ k));
          rewrite (insert_fresh l k 6 x)
        | change (<[i := x]> (l ++ k)) with (<[7 + length l := x]> (l ++ k));
          rewrite (insert_fresh l k 7 x)
        | change (<[i := x]> (l ++ k)) with (<[8 + length l := x]> (l ++ k));
          rewrite (insert_fresh l k 8 x) ];
      cbn [insert list_insert]
  end.

Ltac norm :=
  st_norm; rewrite ?app_nil_r, <- ?app_assoc; cbn [app]; len_norm;
  repeat put_at.

Ltac go_complete := look_at; drop_at; cbn [complete]; norm.

Ltac go_resume := look_at; st_norm; look_at; drop_at; norm.

Ltac go_settle :=
  rewrite settle_pending by (unfold pending; norm; fresh_at); norm.

Lemma replicate_into_new (source target : store) id d :
  source !! id = Some d → target !! id = None →
  replicate_into source target !! id = Some d.
Proof.
  intros Hs Ht. unfold replicate_into.
  rewrite lookup_union_with, Hs, Ht. done.
Qed.

(** X7. [init()] on a store that is not synced, with no snapshot on disk and
    nothing in its way: the local database gets what the remote has, its
    snapshot is written to the canonical file, the store is synced and the
    live session started; the call ends fulfilled. *)
Theorem init_synchronises s c :
  synced s = false → initPromiseSync s = None →
  databaseDumpPendingPromise s = None →
  files s !! canonical s = None →
  let i := length (frames s) in
  let j := length (ops s) in
  ∃ s',
    run [Complete j Done; Resume i; Resume i; Complete j Done;
         Resume (1 + i); Complete j Done; Resume (1 + i); Complete j Done;
         Resume (2 + i); Resume (1 + i); Resume i] (init c s).2 = Some s'
    ∧ settled s' (init c s).1 (Fulfilled VUndefined)
    ∧ synced s' = true ∧ initPromiseSync s' = None
    ∧ databaseDumpPendingPromise s' = None
    ∧ live s' = S (live s)
    ∧ localDB s' = replicate_into (remoteDB s) (localDB s)
    ∧ (∀ id d,
         remoteDB s !! id = Some d → localDB s !! id = None →
         localDB s' !! id = Some d)
    ∧ files s' !! canonical s = Some (encode (localDB s'))
    ∧ files s' !! temporary s = None
    ∧ frames s' = frames s ∧ ops s' = ops s
    ∧ pipeline_of (trace s') = pipeline_of (trace s) ++ pipeline.
Proof.
  intros Hsy Hip Hdh Hfile i j.
  rewrite (init_run_cold c s Hsy Hip). cbn [fst snd].
  pose proof (temporary_ne_canonical s) as Hne.
  remember (temporary s) as tmp eqn:Htmp.
  remember (canonical s) as can eqn:Hcan.
  subst i j.
  destruct s as [cf sy ip dh ldb rdb fs nw lv ps frs os tk tr cn].
  unfold temporary, canonical in Htmp, Hcan.
  cbn in Hsy, Hip, Hdh, Hfile, Htmp, Hcan. subst sy ip dh. st_norm.
  eexists. split.
  { unfold run. cbn [step]. norm.
    go_complete. rewrite Hfile. go_settle.
    go_resume. rewrite resume_KLoad_accessed_absent. go_settle.
    go_resume. rewrite resume_KLoadAndInit_loaded. norm.
    go_complete. go_settle.
    go_resume.
    rewrite resume_KLoadAndInit_replicated_start by done.
    unfold temporary, canonical. norm. rewrite <- ?Htmp, <- ?Hcan.
    go_complete. go_settle.
    go_resume. rewrite resume_KDump_written. norm.
    go_complete. rewrite lookup_insert_eq. go_settle.
    go_resume. rewrite resume_KReturn. go_settle.
    go_resume. rewrite resume_KLoadAndInit_dumped. go_settle.
    go_resume. rewrite resume_KInit. norm. go_settle.
    reflexivity. }
  st_norm. split_and!; try done.
  - unfold settled. st_norm. fresh_at.
  - intros id d. apply replicate_into_new.
  - apply lookup_insert_eq.
  - rewrite lookup_insert_ne by done. apply lookup_delete_eq.
  - unfold pipeline_of. rewrite !List.filter_app. cbn.
    by rewrite ?app_nil_r, <- ?app_assoc.
Qed.


(** X9. [load()] catches the failure of the check for the file only: when the
    snapshot is there and reading it fails, [load()] is rejected, and with
    it [_loadAndInit()] and the [init()] that called it, before any
    replication. The rejected promise stays in the init handle. *)
Theorem init_fails_with_load s c b e partial :
  synced s = false → initPromiseSync s = None →
  files s !! canonical s = Some b →
  let i := length (frames s) in
  let j := length (ops s) in
  ∃ s',
    run [Complete j Done; Resume i; Complete j (Failed e partial);
         Resume (2 + i); Resume i; Resume i] (init c s).2 = Some s'
    ∧ settled s' (init c s).1 (Rejected e)
    ∧ synced s' = false
    ∧ (∃ h, initPromiseSync s' = Some h ∧ settled s' h (Rejected e))
    ∧ replicates s' = replicates s
    ∧ files s' = files s.
Proof.
  intros Hsy Hip Hfile i j.
  rewrite (init_run_cold c s Hsy Hip). cbn [fst snd].
  remember (canonical s) as can eqn:Hcan.
  subst i j.
  destruct s as [cf sy ip dh ldb rdb fs nw lv ps frs os tk tr cn].
  unfold canonical in Hcan.
  cbn in Hsy, Hip, Hfile, Hcan. subst sy ip. st_norm.
  eexists. split.
  { unfold run. cbn [step]. norm.
    go_complete. rewrite Hfile. go_settle.
    go_resume. rewrite resume_KLoad_accessed_present. norm.
    go_complete. go_settle.
    go_resume. rewrite resume_throw by done. cbn [result]. go_settle.
    go_resume. rewrite resume_throw by done. cbn [result]. go_settle.
    go_resume. rewrite resume_throw by done. cbn [result]. go_settle.
    reflexivity. }
  st_norm. split_and!; try done.
  - unfold settled. st_norm. fresh_at.
  - eexists. split; [reflexivity|]. unfold settled. st_norm. fresh_at.
  - unfold replicates. st_norm. rewrite !count_ev_app. cbn. lia.
Qed.

(** X3. [load()] with no snapshot on disk returns at once: nothing is read, the
    local database is what it was, and nothing is left in flight. *)
Theorem load_without_snapshot s c :
  files s !! canonical s = None →
  ∃ s',
    run [Complete (length (ops s)) Done; Resume (length (frames s))]
      (load c s).2 = Some s'
    ∧ settled s' (load c s).1 (Fulfilled VUndefined)
    ∧ localDB s' = localDB s ∧ files s' = files s
    ∧ ops s' = ops s ∧ frames s' = frames s.
Proof. apply load_absent. Qed.

(** X4. [load()] with a snapshot on disk reads it into the local database; an
    empty local database then holds exactly what the snapshot holds. *)
Theorem load_restores_snapshot s c b snap :
  files s !! canonical s = Some b → decode b = Some snap →
  ∃ s',
    run [Complete (length (ops s)) Done; Resume (length (frames s));
         Complete (length (ops s)) Done; Resume (length (frames s))]
      (load c s).2 = Some s'
    ∧ settled s' (load c s).1 (Fulfilled VOk)
    ∧ localDB s' = replicate_into snap (localDB s)
    ∧ (localDB s = ∅ → localDB s' = snap)
    ∧ files s' = files s.
Proof.
  intros Hb Hsnap.
  destruct (load_cycle s c b snap Hb Hsnap) as (s' & H1 & H2 & H3 & H4).
  exists s'. split_and!; try done.
  intros He. rewrite H3, He. apply replicate_into_empty.
Qed.

(** X5. A [dump()] that nothing disturbs: the canonical file ends up with the
    encoding of the local database, the temporary file is gone, no other
    file is touched, and the handle is free again, so that the next
    [dump()] writes anew. *)
Theorem dump_writes_snapshot s c c' :
  databaseDumpPendingPromise s = None →
  ∃ s',
    run [Complete (length (ops s)) Done; Resume (length (frames s));
         Complete (length (ops s)) Done; Resume (length (frames s))]
      (dump c s).2 = Some s'
    ∧ settled s' (dump c s).1 (Fulfilled VUndefined)
    ∧ files s' !! canonical s = Some (encode (localDB s))
    ∧ files s' !! temporary s = None
    ∧ (∀ path,
         path ≠ canonical s → path ≠ temporary s →
         files s' !! path = files s !! path)
    ∧ localDB s' = localDB s
    ∧ databaseDumpPendingPromise s' = None
    ∧ writes (dump c' s').2 = S (writes s').
Proof.
  intros Hh.
  destruct (dump_cycle s c Hh) as (s' & H1 & H2 & H3 & H4 & H5 & H6).
  pose proof (temporary_ne_canonical s) as Hne.
  exists s'. split_and!; try done.
  - rewrite H5. apply lookup_insert_eq.
  - rewrite H5, lookup_insert_ne by done. apply lookup_delete_eq.
  - intros path Hc Ht.
    rewrite H5, lookup_insert_ne, lookup_delete_ne, !lookup_insert_ne by done.
    done.
  - rewrite (dump_run_start c' s' H3). unfold writes. cbn.
    rewrite count_ev_app. cbn. lia.
Qed.

(** X6. A rename that fails rejects the [dump()] that made it, and nothing
    else: the canonical file is what it was, the temporary file keeps the
    snapshot just written, and the handle is free, so that the next
    [dump()] writes anew. *)
Theorem dump_rename_failure_is_not_permanent s c c' e partial :
  databaseDumpPendingPromise s = None →
  ∃ s',
    run [Complete (length (ops s)) Done; Resume (length (frames s));
         Complete (length (ops s)) (Failed e partial);
         Resume (length (frames s))]
      (dump c s).2 = Some s'
    ∧ settled s' (dump c s).1 (Rejected e)
    ∧ files s' !! canonical s = files s !! canonical s
    ∧ files s' !! temporary s = Some (encode (localDB s))
    ∧ databaseDumpPendingPromise s' = None
    ∧ writes (dump c' s').2 = S (writes s').
Proof.
  intros Hh. rewrite (dump_run_start c s Hh). cbn [fst snd].
  pose proof (temporary_ne_canonical s) as Hne.
  remember (temporary s) as tmp eqn:Htmp.
  remember (canonical s) as can eqn:Hcan.
  destruct s as [cf sy ip dh ldb rdb fs nw lv ps frs os tk tr cn].
  unfold temporary, canonical in Htmp, Hcan.
  cbn in Hh, Htmp, Hcan. subst dh. st_norm.
  eexists. split.
  { unfold run. cbn [step]. norm.
    go_complete. go_settle.
    go_resume. rewrite resume_KDump_written. norm.
    go_complete. go_settle.
    go_resume. rewrite resume_throw by done. cbn [result]. go_settle.
    reflexivity. }
  st_norm. split_and!; try done.
  - unfold settled. st_norm. fresh_at.
  - by rewrite !lookup_insert_ne.
  - apply lookup_insert_eq.
  - rewrite dump_run_start by done. unfold writes. cbn.
    rewrite !count_ev_app. cbn. lia.
Qed.
End Sync.

(** * The HTTP helper *)

Module HTTP_facts.
Import HTTP.

Lemma requests_app log1 log2 :
  requests (log1 ++ log2) = requests log1 ++ requests log2.
Proof.
  induction log1 as [|e log1 IH]; [done|]. destruct e; cbn; by rewrite ?IH.
Qed.

Section Helper.
Context (useragent : option string)
        (_httpInjections : list injection)
        (_httpResponseInjections : list response_injection)
        (parse_url : string → option urlFilter)
        (needle : nat → string → string → string → options → error + response)
        (writeToHAR : option (options → response → option error)).

Local Abbreviation attempt :=
  (attempt _httpInjections _httpResponseInjections needle writeToHAR).
Local Abbreviation retrying :=
  (retrying _httpInjections _httpResponseInjections needle writeToHAR).
Local Abbreviation mainFunction :=
  (mainFunction useragent _httpInjections _httpResponseInjections parse_url
     needle writeToHAR).

Lemma run_injections_log injs idx uf m u d o log r o' log' :
  run_injections injs idx uf m u d o log = (r, o', log') →
  ∃ more,
    log' = log ++ more ∧ requests more = []
    ∧ ∀ i, Injected i ∈ more →
           ∃ inj, injs !! (i - idx) = Some inj ∧ idx ≤ i
                  ∧ filter inj uf = true.
Proof.
  revert idx o log. induction injs as [|inj injs IH]; intros idx o log; cbn.
  - intros [= <- <- <-]. exists []. rewrite app_nil_r. split_and!; [done..|].
    intros i Hi. by apply elem_of_nil in Hi.
  - destruct (filter inj uf) eqn:Hf.
    + destruct (func inj m u d o) as [o1 [e|]] eqn:Hfn.
      * intros [= <- <- <-]. exists [Injected idx]. split_and!; [done..|].
        intros i Hi. apply list_elem_of_singleton in Hi as [= ->].
        exists inj. by rewrite Nat.sub_diag.
      * intros H. apply IH in H as (more & -> & Hreq & Hin).
        exists (Injected idx :: more). rewrite <- app_assoc.
        split_and!; [done..|].
        intros i [[= ->]|Hi]%elem_of_cons.
        -- exists inj. by rewrite Nat.sub_diag.
        -- destruct (Hin i Hi) as (inj' & Hl & Hle & Hf').
           exists inj'. split_and!; [|lia|done].
           replace (i - idx) with (S (i - S idx)) by lia. done.
    + intros H. apply IH in H as (more & -> & Hreq & Hin).
      exists more. split_and!; [done..|].
      intros i Hi. destruct (Hin i Hi) as (inj' & Hl & Hle & Hf').
      exists inj'. split_and!; [|lia|done].
      replace (i - idx) with (S (i - S idx)) by lia. done.
Qed.

Lemma run_response_injections_log injs idx uf resp log r log' :
  run_response_injections injs idx uf resp log = (r, log') →
  ∃ more, log' = log ++ more ∧ requests more = []
          ∧ ∀ i, Injected i ∉ more.
Proof.
  revert idx resp log. induction injs as [|inj injs IH]; intros idx resp log;
    cbn.
  - intros [= <- <-]. exists []. rewrite app_nil_r. split_and!; [done..|].
    intros i Hi. by apply elem_of_nil in Hi.
  - destruct (rfilter inj uf).
    + destruct (rfunc inj resp) as [e|resp'].
      * intros [= <- <-]. exists [ResponseInjected idx].
        split_and!; [done..|]. intros i Hi.
        by apply list_elem_of_singleton in Hi.
      * intros H. apply IH in H as (more & -> & Hreq & Hin).
        exists (ResponseInjected idx :: more). rewrite <- app_assoc.
        split_and!; [done..|].
        intros i [?|Hi]%elem_of_cons; [done|]. by eapply Hin.
    + apply IH.
Qed.

Lemma respond_spec uf o1 resp log more4 res o' log' :
  match run_response_injections _httpResponseInjections 0 uf (Some resp)
          (log ++ more4) with
  | (inl e, log) => (AThrow e, o1, log)
  | (inr None, log) => (ARetry, o1, log)
  | (inr (Some resp), log) =>
      if negb (ignoreErrors o1) && (400 <=? statusCode resp)%Z
      then (ARetry, o1, log)
      else (AReturn resp, o1, log)
  end = (res, o', log') →
  requests more4 = [o1] →
  ∃ more3,
    log' = log ++ more4 ++ more3 ∧ o' = o1
    ∧ requests (more4 ++ more3) = [o1]
    ∧ (∀ i, Injected i ∉ more3)
    ∧ (∀ r, res = AReturn r →
         ignoreErrors o1 = false → (statusCode r < 400)%Z).
Proof.
  intros H Hreq4.
  destruct (run_response_injections _ _ _ _ _) as [[e|[resp'|]] log3] eqn:Hr;
    apply run_response_injections_log in Hr as (more3 & -> & Hreq3 & Hin3).
  all: try destruct (negb (ignoreErrors o1) && (400 <=? statusCode resp')%Z)
         eqn:Hst.
  all: injection H as <- <- <-; exists more3; rewrite <- ?app_assoc.
  all: rewrite requests_app, Hreq3, app_nil_r.
  all: split_and!; try done.
  intros r [= <-] Hig. rewrite Hig in Hst. cbn in Hst. lia.
Qed.

(** An attempt makes one request at most, with the options as the request
    injections left them; it ends with a response only if the status is
    below 400 or errors are ignored. *)
Lemma attempt_spec n uf m u d o log res o' log' :
  attempt n uf m u d o log = (res, o', log') →
  ∃ more,
    log' = log ++ more
    ∧ (requests more = [] ∨ requests more = [o'])
    ∧ (res = ARetry → requests more = [o'])
    ∧ (∀ r, res = AReturn r →
         requests more = [o']
         ∧ (ignoreErrors o' = false → (statusCode r < 400)%Z))
    ∧ (∀ i, Injected i ∈ more →
         ∃ inj, _httpInjections !! i = Some inj ∧ filter inj uf = true).
Proof.
  unfold HTTP.attempt.
  destruct (run_injections _ _ _ _ _ _ _ _) as [[[e|] o1] log1] eqn:Hinj;
    apply run_injections_log in Hinj as (more1 & -> & Hreq1 & Hin1).
  all: assert (∀ i, Injected i ∈ more1 →
                 ∃ inj, _httpInjections !! i = Some inj
                        ∧ filter inj uf = true) as Hin1'.
  all: try (intros i Hi; destruct (Hin1 i Hi) as (inj & Hl & _ & Hf);
            rewrite Nat.sub_0_r in Hl; by exists inj).
  { intros [= <- <- <-]. exists more1. split_and!; try done; auto. }
  destruct (needle n m u d o1) as [e|resp] eqn:Hn.
  { intros [= <- <- <-]. exists (more1 ++ [Requested o1]).
    rewrite <- app_assoc, requests_app, Hreq1. split_and!; try done; auto.
    intros i [Hi|Hi]%elem_of_app; [auto|].
    by apply list_elem_of_singleton in Hi. }
  assert (∃ more2, log ++ more1 ++ [Requested o1] = log ++ more2
                   ∧ (log ++ more1 ++ [Requested o1]) ++ [Recorded]
                     = log ++ more2 ++ [Recorded]
                   ∧ requests more2 = [o1]
                   ∧ requests (more2 ++ [Recorded]) = [o1]
                   ∧ ∀ i, Injected i ∈ more2 ++ [Recorded] →
                          Injected i ∈ more1)
    as (more2 & Hlog2 & Hlog2' & Hreq2 & Hreq2' & Hin2).
  { exists (more1 ++ [Requested o1]).
    rewrite <- !app_assoc, !requests_app, Hreq1. split_and!; [done..|].
    intros i [Hi|Hi]%elem_of_app; [done|].
    apply elem_of_cons in Hi as [?|Hi]; [done|].
    by apply list_elem_of_singleton in Hi. }
  rewrite <- (app_assoc log more1).
  destruct writeToHAR as [w|]; cbn;
    [destruct (w o1 resp) as [e|]; rewrite Hlog2'|rewrite Hlog2].
  { intros [= <- <- <-]. exists (more2 ++ [Recorded]).
    split_and!; try done; auto. }
  all: intros H; apply respond_spec in H as (more3 & -> & -> & Hreq & Hin3 & Hst);
    [|done].
  all: eexists; split; [reflexivity|]; split_and!; try done; auto.
  all: try (intros r Hr; split; [done|]; by apply Hst).
  all: intros i Hi; apply elem_of_app in Hi as [Hi|Hi];
    [|by apply Hin3 in Hi]; apply Hin1', Hin2;
    first [exact Hi|apply elem_of_app; by left].
Qed.

Lemma retrying_spec retries n uf m u d o log out o' log' :
  retrying retries n uf m u d o log = (out, o', log') →
  ∃ more,
    log' = log ++ more
    ∧ length (requests more) ≤ S retries
    ∧ (out = RejectedUndefined → length (requests more) = S retries)
    ∧ (∀ r, out = Resolved r →
         ignoreErrors o' = false → (statusCode r < 400)%Z)
    ∧ (∀ i, Injected i ∈ more →
         ∃ inj, _httpInjections !! i = Some inj ∧ filter inj uf = true).
Proof.
  revert n o log. induction retries as [|retries IH]; intros n o log; cbn.
  all: destruct (attempt n uf m u d o log) as [[res o1] log1] eqn:Ha.
  all: apply attempt_spec in Ha as (more & -> & Hreq & Hretry & Hret & Hin).
  all: destruct res as [r| |e].
  all: try (solve
    [ intros [= <- <- <-]; exists more; split_and!; try done;
      first [ destruct Hreq as [Hreq|Hreq]; rewrite Hreq; cbn; lia
            | intros r' [= <-]; by apply (Hret r) ] ]).
  all: try (solve
    [ intros [= <- <- <-]; exists more; rewrite (Hretry eq_refl);
      split_and!; try done; cbn; lia ]).
  intros H. apply IH in H as (more' & -> & Hlen & Hex & Hres & Hin').
  exists (more ++ more'). rewrite <- app_assoc, requests_app, length_app.
  rewrite (Hretry eq_refl). cbn. split_and!; try done; [lia| |].
  - intros ->. rewrite (Hex eq_refl). lia.
  - intros i [Hi|Hi]%elem_of_app; auto.
Qed.

(** X10. The helper makes four requests at most for a call, and exactly four
    when the call ends with the retries used up. *)
Theorem http_requests_are_bounded m u d o out o' log :
  mainFunction m u d o = (out, o', log) →
  length (requests log) ≤ 4
  ∧ (out = RejectedUndefined → length (requests log) = 4).
Proof.
  unfold HTTP.mainFunction. destruct (parse_url u) as [uf|].
  - intros H. apply retrying_spec in H as (more & -> & H1 & H2 & _).
    done.
  - intros [= <- <- <-]. cbn. split; [lia|done].
Qed.

(** X11. A response that the helper returns while errors are not ignored has a
    status below 400. *)
Theorem http_returns_no_error_status m u d o r o' log :
  mainFunction m u d o = (Resolved r, o', log) →
  ignoreErrors o' = false →
  (statusCode r < 400)%Z.
Proof.
  unfold HTTP.mainFunction. destruct (parse_url u) as [uf|]; [|done].
  intros H. apply retrying_spec in H as (more & _ & _ & _ & H3 & _).
  by apply H3.
Qed.

(** X12. Only the request injections whose filter matches the URL are run. *)
Theorem http_injections_match m u d o out o' log i :
  mainFunction m u d o = (out, o', log) →
  Injected i ∈ log →
  ∃ uf inj,
    parse_url u = Some uf ∧ _httpInjections !! i = Some inj
    ∧ filter inj uf = true.
Proof.
  unfold HTTP.mainFunction. destruct (parse_url u) as [uf|] eqn:Hu.
  - intros H Hi. apply retrying_spec in H as (more & -> & _ & _ & _ & H4).
    destruct (H4 i Hi) as (inj & ? & ?). by exists uf, inj.
  - intros [= <- <- <-] Hi. by apply elem_of_nil in Hi.
Qed.


Lemma run_injections_none injs idx uf m u d o log :
  (∀ inj, inj ∈ injs → filter inj uf = false) →
  run_injections injs idx uf m u d o log = (None, o, log).
Proof.
  revert idx. induction injs as [|inj injs IH]; intros idx Hno; cbn; [done|].
  rewrite (Hno inj) by (by left). apply IH. intros inj' Hin. apply Hno.
  by right.
Qed.

(** The options an attempt leaves are those its request injections left. *)
Lemma attempt_options n uf m u d o log res o' log' :
  attempt n uf m u d o log = (res, o', log') →
  o' = (run_injections _httpInjections 0 uf m u d o log).1.2.
Proof.
  unfold HTTP.attempt.
  destruct (run_injections _ _ _ _ _ _ _ _) as [[[e|] o1] log1]; cbn;
    [by intros [= <- <- <-]|].
  destruct (needle n m u d o1) as [e|resp]; [by intros [= <- <- <-]|].
  destruct writeToHAR as [w|]; cbn; [destruct (w o1 resp) as [e|]|].
  - by intros [= <- <- <-].
  - rewrite <- app_assoc. intros H.
    by apply respond_spec in H as (more3 & _ & -> & _).
  - intros H. by apply respond_spec in H as (more3 & _ & -> & _).
Qed.

Lemma attempt_unchanged n uf m u d o log res o' log' :
  (∀ inj, inj ∈ _httpInjections → filter inj uf = false) →
  attempt n uf m u d o log = (res, o', log') → o' = o.
Proof.
  intros Hno H. apply attempt_options in H as ->.
  by rewrite (run_injections_none _ _ _ _ _ _ _ _ Hno).
Qed.

Lemma retrying_unchanged retries n uf m u d o log out o' log' :
  (∀ inj, inj ∈ _httpInjections → filter inj uf = false) →
  retrying retries n uf m u d o log = (out, o', log') →
  o' = o ∧ ∃ more, log' = log ++ more ∧ ∀ r, r ∈ requests more → r = o.
Proof.
  intros Hno. revert n log.
  induction retries as [|retries IH]; intros n log; cbn.
  all: destruct (attempt n uf m u d o log) as [[res o1] log1] eqn:Ha.
  all: pose proof (attempt_unchanged _ _ _ _ _ _ _ _ _ _ Hno Ha) as ->.
  all: apply attempt_spec in Ha as (more & -> & Hreq & _).
  all: assert (∀ r, r ∈ requests more → r = o) as Hall
         by (intros r Hr; destruct Hreq as [Hreq|Hreq]; rewrite Hreq in Hr;
             [by apply elem_of_nil in Hr
             |by apply list_elem_of_singleton in Hr]).
  all: destruct res as [r| |e].
  all: try (intros [= <- <- <-]; split; [done|by exists more]).
  intros H. apply IH in H as (-> & more' & -> & Hall').
  split; [done|]. exists (more ++ more'). rewrite <- app_assoc.
  split; [done|]. intros r. rewrite requests_app.
  intros [?|?]%elem_of_app; auto.
Qed.

(** X13. Without a request injection for the URL, every request of a call goes
    out with the options as prepared: the headers given, with the user agent
    of the helper if it has one, and compression on unless it was set. *)
Theorem http_requests_as_prepared m u d o uf out o' log :
  parse_url u = Some uf →
  (∀ inj, inj ∈ _httpInjections → filter inj uf = false) →
  mainFunction m u d o = (out, o', log) →
  (∀ r, r ∈ requests log → r = prepare useragent o)
  ∧ compressed (prepare useragent o) = Some (default true (compressed o))
  ∧ ignoreErrors (prepare useragent o) = ignoreErrors o
  ∧ (∀ ua, useragent = Some ua → ua ≠ EmptyString →
       headers (prepare useragent o)
       = Some (<["user-agent" := ua]> (default ∅ (headers o))))
  ∧ (truthy useragent = false →
       headers (prepare useragent o) = Some (default ∅ (headers o))).
Proof.
  intros Hu Hno. unfold HTTP.mainFunction. rewrite Hu. intros H.
  apply (retrying_unchanged _ _ _ _ _ _ _ _ _ _ _ Hno) in H
    as (_ & more & -> & Hall).
  split_and!; try done.
  - intros ua -> Hua. unfold prepare. cbn.
    destruct (String.eqb ua EmptyString) eqn:He; [|done].
    by apply String.eqb_eq in He.
  - unfold prepare, truthy. destruct useragent as [ua|]; [|done].
    intros ->. done.
Qed.

(** X14. A request that needle fails is not retried: the call is rejected with
    the error of needle after that one request. *)
Theorem http_network_error_is_final m u d o uf o1 log1 e :
  parse_url u = Some uf →
  run_injections _httpInjections 0 uf m u d (prepare useragent o) []
  = (None, o1, log1) →
  needle 1 m u d o1 = inl e →
  mainFunction m u d o = (RejectedWith e, o1, log1 ++ [Requested o1]).
Proof.
  intros Hu Hinj Hn. unfold HTTP.mainFunction. rewrite Hu. cbn.
  unfold HTTP.attempt. by rewrite Hinj, Hn.
Qed.

(** X15. A call whose responses are all refused makes its four requests with the
    request injections run anew each time, on the options that the attempt
    before left: what an injection adds, it adds once for every attempt. *)
Theorem http_injections_compound m u d o uf f o' log :
  parse_url u = Some uf →
  _httpInjections = [Injection (λ _, true) (λ _ _ _ o, (f o, None))] →
  mainFunction m u d o = (RejectedUndefined, o', log) →
  requests log
  = [iterate f 1 (prepare useragent o); iterate f 2 (prepare useragent o);
     iterate f 3 (prepare useragent o); iterate f 4 (prepare useragent o)]
  ∧ o' = iterate f 4 (prepare useragent o).
Proof.
  intros Hu Hinj. unfold HTTP.mainFunction. rewrite Hu.
  generalize (prepare useragent o). intros o0.
  assert (∀ retries n o1 l out o' log,
            retrying retries n uf m u d o1 l = (out, o', log) →
            out = RejectedUndefined →
            ∃ more, log = l ++ more
                    ∧ requests more
                      = (λ k, iterate f (S k) o1) <$> seq 0 (S retries)
                    ∧ o' = iterate f (S retries) o1) as Hgen.
  { induction retries as [|retries IH]; intros n o1 l out1 o1' log1; cbn.
    all: destruct (attempt n uf m u d o1 l) as [[res o2] l2] eqn:Ha.
    all: pose proof (attempt_options _ _ _ _ _ _ _ _ _ _ Ha) as Ho;
      rewrite Hinj in Ho; cbn in Ho; subst o2.
    all: apply attempt_spec in Ha as (more & -> & _ & Hretry & _).
    all: destruct res as [r| |e]; try (by intros [= <- <- <-] ?).
    - intros [= <- <- <-] _. exists more. by rewrite (Hretry eq_refl).
    - intros H Hout. destruct (IH _ _ _ _ _ _ H Hout) as (more' & -> & Hr & ->).
      exists (more ++ more'). rewrite <- app_assoc, requests_app.
      rewrite (Hretry eq_refl), Hr. split_and!; [done| |done].
      cbn. f_equal. f_equal. rewrite <- !fmap_S_seq, <- !list_fmap_compose.
      done. }
  intros H. destruct (Hgen _ _ _ _ _ _ _ H eq_refl) as (more & -> & Hr & ->).
  done.
Qed.

Lemma run_response_injections_last injs rf fn idx uf resp log r log' :
  rf uf = true → (∀ r, fn r = inr None) →
  run_response_injections (injs ++ [ResponseInjection rf fn]) idx uf resp log
  = (r, log') →
  ∀ resp', r ≠ inr (Some resp').
Proof.
  intros Hrf Hfn. revert idx resp log.
  induction injs as [|inj injs IH]; intros idx resp log; cbn.
  - rewrite Hrf, Hfn. by intros [= <- <-].
  - destruct (rfilter inj uf); [|apply IH].
    destruct (rfunc inj resp) as [e|resp1]; [|apply IH].
    by intros [= <- <-].
Qed.

Lemma attempt_no_response injs rf fn n uf m u d o log res o' log' :
  _httpResponseInjections = injs ++ [ResponseInjection rf fn] →
  rf uf = true → (∀ r, fn r = inr None) →
  attempt n uf m u d o log = (res, o', log') →
  ∀ r, res ≠ AReturn r.
Proof.
  intros Hl Hrf Hfn. unfold HTTP.attempt.
  destruct (run_injections _ _ _ _ _ _ _ _) as [[[e|] o1] log1];
    [by intros [= <- <- <-]|].
  destruct (needle n m u d o1) as [e|resp]; [by intros [= <- <- <-]|].
  destruct writeToHAR as [w|].
  - destruct (w o1 resp) as [e|]; [by intros [= <- <- <-]|]. rewrite Hl.
    destruct (run_response_injections _ _ _ _ _) as [[e|[resp'|]] log3]
      eqn:Hr; try (by intros [= <- <- <-]).
    by destruct (run_response_injections_last _ _ _ _ _ _ _ _ _ Hrf Hfn Hr
                   resp').
  - rewrite Hl.
    destruct (run_response_injections _ _ _ _ _) as [[e|[resp'|]] log3]
      eqn:Hr; try (by intros [= <- <- <-]).
    by destruct (run_response_injections_last _ _ _ _ _ _ _ _ _ Hrf Hfn Hr
                   resp').
Qed.

(** X16. A response injection must return the response: when the last one
    registered returns [undefined] whatever it is given, a call for a URL it
    matches never ends with a response, and unless something throws, four
    requests are made and the promise is rejected with [undefined]. *)
Theorem http_response_injection_must_return injs rf fn m u d o uf out o' log :
  _httpResponseInjections = injs ++ [ResponseInjection rf fn] →
  parse_url u = Some uf → rf uf = true → (∀ r, fn r = inr None) →
  mainFunction m u d o = (out, o', log) →
  (∀ r, out ≠ Resolved r)
  ∧ ((∀ e, out ≠ RejectedWith e) →
       out = RejectedUndefined ∧ length (requests log) = 4).
Proof.
  intros Hl Hu Hrf Hfn H.
  assert (∀ r, out ≠ Resolved r) as Hno.
  { revert H. unfold HTTP.mainFunction. rewrite Hu.
    generalize (prepare useragent o) ([] : list event) 1 3.
    intros o0 log0 n k. revert n o0 log0.
    induction k as [|k IH]; intros n o0 log0; cbn.
    - destruct (attempt n uf m u d o0 log0) as [[[r| |e] o1] log1] eqn:Ha;
        try (by intros [= <- <- <-]).
      by destruct (attempt_no_response _ _ _ _ _ _ _ _ _ _ _ _ _
                     Hl Hrf Hfn Ha r).
    - destruct (attempt n uf m u d o0 log0) as [[[r| |e] o1] log1] eqn:Ha;
        try (by intros [= <- <- <-]).
      + by destruct (attempt_no_response _ _ _ _ _ _ _ _ _ _ _ _ _
                       Hl Hrf Hfn Ha r).
      + apply IH. }
  split; [exact Hno|]. intros Hne.
  assert (out = RejectedUndefined) as ->.
  { destruct out as [r|e|]; [by destruct (Hno r)|by destruct (Hne e)|done]. }
  split; [done|]. revert H. unfold HTTP.mainFunction. rewrite Hu.
  intros H. apply retrying_spec in H as (more & -> & _ & H2 & _).
  by apply H2.
Qed.

End Helper.

(** ** The example *)

Lemma http_requests_are_bounded_witness :
  mainFunction (Some "ua") [] [] demo_parse demo_refusing None
    "GET" "https://api.example/parks" EmptyString demo_request
  = (RejectedUndefined, prepare (Some "ua") demo_request,
     replicate 4 (Requested (prepare (Some "ua") demo_request)))
  ∧ length (requests
              (replicate 4 (Requested (prepare (Some "ua") demo_request))))
    = 4.
Proof.
  assert (mainFunction (Some "ua") [] [] demo_parse demo_refusing None
            "GET" "https://api.example/parks" EmptyString demo_request
          = (RejectedUndefined, prepare (Some "ua") demo_request,
             replicate 4 (Requested (prepare (Some "ua") demo_request))))
    as H by (vm_compute; reflexivity).
  split; [exact H|].
  exact (proj2 (http_requests_are_bounded _ _ _ _ _ _ _ _ _ _ _ _ _ H)
           eq_refl).
Defined.

Lemma http_returns_no_error_status_witness :
  mainFunction (Some "ua") [] [] demo_parse demo_recovering None
    "GET" "https://api.example/parks" EmptyString demo_request
  = (Resolved (Response 200 "body"), prepare (Some "ua") demo_request,
     replicate 2 (Requested (prepare (Some "ua") demo_request)))
  ∧ ignoreErrors (prepare (Some "ua") demo_request) = false
  ∧ (statusCode (Response 200 "body") < 400)%Z.
Proof.
  assert (mainFunction (Some "ua") [] [] demo_parse demo_recovering None
            "GET" "https://api.example/parks" EmptyString demo_request
          = (Resolved (Response 200 "body"),
             prepare (Some "ua") demo_request,
             replicate 2 (Requested (prepare (Some "ua") demo_request))))
    as H by (vm_compute; reflexivity).
  split_and!; [exact H|reflexivity|].
  exact (http_returns_no_error_status _ _ _ _ _ _ _ _ _ _ _ _ _ H eq_refl).
Defined.

Lemma http_injections_match_witness :
  mainFunction (Some "ua") [demo_other; demo_injection] [] demo_parse
    demo_recovering None
    "GET" "https://api.example/parks" EmptyString demo_request
  = (Resolved (Response 200 "body"),
     demo_sign (prepare (Some "ua") demo_request),
     [Injected 1; Requested (demo_sign (prepare (Some "ua") demo_request));
      Injected 1; Requested (demo_sign (prepare (Some "ua") demo_request))])
  ∧ Injected 1
    ∈ [Injected 1; Requested (demo_sign (prepare (Some "ua") demo_request));
       Injected 1; Requested (demo_sign (prepare (Some "ua") demo_request))]
  ∧ ∃ uf inj,
      demo_parse "https://api.example/parks" = Some uf
      ∧ [demo_other; demo_injection] !! 1 = Some inj
      ∧ filter inj uf = true.
Proof.
  assert (mainFunction (Some "ua") [demo_other; demo_injection] []
            demo_parse demo_recovering None
            "GET" "https://api.example/parks" EmptyString demo_request
          = (Resolved (Response 200 "body"),
             demo_sign (prepare (Some "ua") demo_request),
             [Injected 1;
              Requested (demo_sign (prepare (Some "ua") demo_request));
              Injected 1;
              Requested (demo_sign (prepare (Some "ua") demo_request))]))
    as H by (vm_compute; reflexivity).
  assert (Injected 1
          ∈ [Injected 1;
             Requested (demo_sign (prepare (Some "ua") demo_request));
             Injected 1;
             Requested (demo_sign (prepare (Some "ua") demo_request))])
    as Hin by (by left).
  split_and!; [exact H|exact Hin|].
  exact (http_injections_match _ _ _ _ _ _ _ _ _ _ _ _ _ _ H Hin).
Defined.

Lemma http_requests_as_prepared_witness :
  demo_parse "https://api.example/parks" = Some demo_url
  ∧ (∀ inj, inj ∈ [demo_other] → filter inj demo_url = false)
  ∧ mainFunction (Some "ua") [demo_other] [] demo_parse demo_recovering None
      "GET" "https://api.example/parks" EmptyString demo_request
    = (Resolved (Response 200 "body"), prepare (Some "ua") demo_request,
       replicate 2 (Requested (prepare (Some "ua") demo_request)))
  ∧ headers (prepare (Some "ua") demo_request)
    = Some (<["user-agent" := "ua"]> (default ∅ (headers demo_request)))
  ∧ compressed (prepare (Some "ua") demo_request) = Some true.
Proof.
  assert (∀ inj, inj ∈ [demo_other] → filter inj demo_url = false) as Hno.
  { intros inj Hin. apply list_elem_of_singleton in Hin as ->. reflexivity. }
  assert (mainFunction (Some "ua") [demo_other] [] demo_parse
            demo_recovering None
            "GET" "https://api.example/parks" EmptyString demo_request
          = (Resolved (Response 200 "body"),
             prepare (Some "ua") demo_request,
             replicate 2 (Requested (prepare (Some "ua") demo_request))))
    as H by (vm_compute; reflexivity).
  destruct (http_requests_as_prepared _ _ _ _ _ _ _ _ _ _ _ _ _ _
              eq_refl Hno H) as (_ & H2 & _ & H4 & _).
  split_and!; [reflexivity|exact Hno|exact H| |exact H2].
  apply H4; [reflexivity|discriminate].
Defined.

Lemma http_network_error_is_final_witness :
  demo_parse "https://api.example/parks" = Some demo_url
  ∧ run_injections [demo_injection] 0 demo_url
      "GET" "https://api.example/parks" EmptyString
      (prepare (Some "ua") demo_request) []
    = (None, demo_sign (prepare (Some "ua") demo_request), [Injected 0])
  ∧ demo_unreachable 1 "GET" "https://api.example/parks" EmptyString
      (demo_sign (prepare (Some "ua") demo_request))
    = inl (Thrown "ECONNREFUSED")
  ∧ mainFunction (Some "ua") [demo_injection] [] demo_parse demo_unreachable None
      "GET" "https://api.example/parks" EmptyString demo_request
    = (RejectedWith (Thrown "ECONNREFUSED"),
       demo_sign (prepare (Some "ua") demo_request),
       [Injected 0] ++
       [Requested (demo_sign (prepare (Some "ua") demo_request))]).
Proof.
  assert (run_injections [demo_injection] 0 demo_url
            "GET" "https://api.example/parks" EmptyString
            (prepare (Some "ua") demo_request) []
          = (None, demo_sign (prepare (Some "ua") demo_request),
             [Injected 0])) as Hinj by reflexivity.
  split_and!; [reflexivity|exact Hinj|reflexivity|].
  exact (http_network_error_is_final (Some "ua") [demo_injection] []
           demo_parse demo_unreachable None _ _ _ _ _ _ _ _ eq_refl Hinj eq_refl).
Defined.

Lemma http_injections_compound_witness :
  demo_parse "https://api.example/parks" = Some demo_url
  ∧ mainFunction None [Injection (λ _, true) (λ _ _ _ o, (demo_count o, None))]
      [] demo_parse demo_refusing None
      "GET" "https://api.example/parks" EmptyString demo_request
    = (RejectedUndefined, iterate demo_count 4 (prepare None demo_request),
       [Injected 0; Requested (iterate demo_count 1 (prepare None demo_request));
        Injected 0; Requested (iterate demo_count 2 (prepare None demo_request));
        Injected 0; Requested (iterate demo_count 3 (prepare None demo_request));
        Injected 0; Requested (iterate demo_count 4 (prepare None demo_request))])
  ∧ requests
      [Injected 0; Requested (iterate demo_count 1 (prepare None demo_request));
       Injected 0; Requested (iterate demo_count 2 (prepare None demo_request));
       Injected 0; Requested (iterate demo_count 3 (prepare None demo_request));
       Injected 0; Requested (iterate demo_count 4 (prepare None demo_request))]
    = [iterate demo_count 1 (prepare None demo_request);
       iterate demo_count 2 (prepare None demo_request);
       iterate demo_count 3 (prepare None demo_request);
       iterate demo_count 4 (prepare None demo_request)]
  ∧ headers (iterate demo_count 4 (prepare None demo_request))
    = Some {[ "x-tries" := "++++" ]}.
Proof.
  assert (mainFunction None
            [Injection (λ _, true) (λ _ _ _ o, (demo_count o, None))]
            [] demo_parse demo_refusing None
            "GET" "https://api.example/parks" EmptyString demo_request
          = (RejectedUndefined,
             iterate demo_count 4 (prepare None demo_request),
             [Injected 0;
              Requested (iterate demo_count 1 (prepare None demo_request));
              Injected 0;
              Requested (iterate demo_count 2 (prepare None demo_request));
              Injected 0;
              Requested (iterate demo_count 3 (prepare None demo_request));
              Injected 0;
              Requested (iterate demo_count 4 (prepare None demo_request))]))
    as H by (vm_compute; reflexivity).
  split_and!; [reflexivity|exact H| |vm_compute; reflexivity].
  exact (proj1 (http_injections_compound None _ [] demo_parse demo_refusing
                  None _ _ _ _ _ demo_count _ _ eq_refl eq_refl H)).
Defined.

Lemma http_response_injection_must_return_witness :
  [demo_forgetful] = [] ++ [ResponseInjection (λ _, true) (λ _, inr None)]
  ∧ demo_parse "https://api.example/parks" = Some demo_url
  ∧ mainFunction (Some "ua") [] [demo_forgetful] demo_parse demo_recovering
      None "GET" "https://api.example/parks" EmptyString demo_request
    = (RejectedUndefined, prepare (Some "ua") demo_request,
       [Requested (prepare (Some "ua") demo_request); ResponseInjected 0;
        Requested (prepare (Some "ua") demo_request); ResponseInjected 0;
        Requested (prepare (Some "ua") demo_request); ResponseInjected 0;
        Requested (prepare (Some "ua") demo_request); ResponseInjected 0])
  ∧ ∀ r, RejectedUndefined ≠ Resolved r.
Proof.
  assert (mainFunction (Some "ua") [] [demo_forgetful] demo_parse
            demo_recovering None
            "GET" "https://api.example/parks" EmptyString demo_request
          = (RejectedUndefined, prepare (Some "ua") demo_request,
             [Requested (prepare (Some "ua") demo_request);
              ResponseInjected 0;
              Requested (prepare (Some "ua") demo_request);
              ResponseInjected 0;
              Requested (prepare (Some "ua") demo_request);
              ResponseInjected 0;
              Requested (prepare (Some "ua") demo_request);
              ResponseInjected 0]))
    as H by (vm_compute; reflexivity).
  split_and!; [reflexivity|reflexivity|exact H|].
  exact (proj1 (http_response_injection_must_return (Some "ua") [] _
                  demo_parse demo_recovering None [] (λ _, true)
                  (λ _, inr None) _ _ _ _ demo_url _ _ _
                  eq_refl eq_refl eq_refl (λ _, eq_refl) H)).
Defined.

End HTTP_facts.

(** * The entity check of the test script *)

Module TestScript_facts.
Import TestScript.

Section Entities.
Context (destination park attraction show restaurant : string).

Local Abbreviation TestEntity :=
  (TestEntity destination park attraction show restaurant).
Local Abbreviation requiredFields :=
  (requiredFields destination park attraction show restaurant).

Lemma check_fields_ok ent fields f :
  check_fields ent fields = None → f ∈ fields → field ent f ≠ Undefined.
Proof.
  induction fields as [|g fields IH]; cbn; intros H Hin.
  - by apply elem_of_nil in Hin.
  - destruct (field ent g) eqn:Hg; try done;
      apply elem_of_cons in Hin as [->|Hin]; try (by rewrite Hg); by apply IH.
Qed.

Lemma own_entry entries key fields :
  own entries key = Some fields → (key, fields) ∈ entries.
Proof.
  induction entries as [|[k fs] entries IH]; cbn; [done|].
  destruct (own entries key) as [later|].
  - intros [= ->]. right. by apply IH.
  - destruct (String.eqb k key) eqn:Hk; [|done].
    apply String.eqb_eq in Hk as ->. intros [= ->]. by left.
Qed.

(** X17. An entity that [TestEntity] lets through has an entity type and an id
    that are not empty, and has its time zone and its name set: whatever the
    entity types are called, all of them require these. *)
Theorem TestEntity_accepts_only_complete ent :
  TestEntity ent = None →
  truthy (field ent "entityType") = true
  ∧ truthy (field ent "_id") = true
  ∧ field ent "timezone" ≠ Undefined
  ∧ field ent "name" ≠ Undefined
  ∧ ∃ fields,
      (to_string (field ent "entityType"), fields) ∈ requiredFields
      ∧ ∀ f, f ∈ fields → field ent f ≠ Undefined.
Proof.
  unfold TestScript.TestEntity.
  destruct (truthy (field ent "entityType")) eqn:Ht; [|done].
  destruct (truthy (field ent "_id")) eqn:Hi; [|done]. cbn.
  unfold lookup_required.
  destruct (own _ _) as [fields|] eqn:Hown;
    [|by destruct (existsb _ _)].
  intros Hc. pose proof (own_entry _ _ _ Hown) as Hin.
  assert (∀ f, f ∈ _requiredFields → f ∈ fields) as Hbase.
  { intros f Hf. unfold TestScript.requiredFields in Hin.
    unfold _requiredFields in Hf.
    repeat (apply elem_of_cons in Hin as [Heq|Hin];
            [injection Heq as _ ->;
             repeat (apply elem_of_cons in Hf as [->|Hf];
                     [solve [repeat first [by left|right]]|]);
             by apply elem_of_nil in Hf|]).
    by apply elem_of_nil in Hin. }
  split_and!; try done.
  - apply (check_fields_ok _ _ _ Hc), Hbase. by left.
  - apply (check_fields_ok _ _ _ Hc), Hbase. right. right. by left.
  - exists fields. split; [done|]. intros f. by apply check_fields_ok.
Qed.

Lemma check_fields_null ent fields f :
  check_fields ent fields = None →
  check_fields (<[f := Null]> ent) fields = None.
Proof.
  induction fields as [|g fields IH]; cbn [check_fields]; [done|].
  assert (field (<[f := Null]> ent) g
          = if decide (f = g) then Null else field ent g) as ->.
  { unfold field. case_decide; [subst; by rewrite lookup_insert_eq|].
    by rewrite lookup_insert_ne. }
  destruct (decide (f = g)); destruct (field ent g); try done; apply IH.
Qed.

(** X18. [TestEntity] asks of a required field that it is not [undefined], and
    no more: an entity that passes still passes with [null] in any field
    other than its type and its id. *)
Theorem TestEntity_accepts_null ent f :
  f ≠ "entityType" → f ≠ "_id" →
  TestEntity ent = None →
  TestEntity (<[f := Null]> ent) = None.
Proof.
  intros H1 H2. unfold TestScript.TestEntity, field.
  rewrite !lookup_insert_ne by done.
  destruct (negb _); [done|]. destruct (negb _); [done|].
  destruct (lookup_required _ _ _ _ _ _) as [[fields|]|]; try done.
  apply check_fields_null.
Qed.

Lemma check_fields_complete ent fields :
  (∀ f, f ∈ fields → field ent f ≠ Undefined) →
  check_fields ent fields = None.
Proof.
  induction fields as [|g fields IH]; cbn; intros H; [done|].
  assert (field ent g ≠ Undefined) as Hg by (apply H; by left).
  destruct (field ent g); try done; apply IH; intros f Hf; apply H;
    by right.
Qed.

Lemma own_unique entries key fields :
  NoDup entries.*1 → (key, fields) ∈ entries →
  own entries key = Some fields.
Proof.
  induction entries as [|[k fs] entries IH]; cbn.
  - intros _ H. by apply elem_of_nil in H.
  - intros [Hk Hnd]%NoDup_cons [[= <- <-]|Hin]%elem_of_cons.
    + destruct (own entries key) as [later|] eqn:Ho.
      * apply own_entry in Ho. destruct Hk.
        apply list_elem_of_fmap. by exists (key, later).
      * by rewrite String.eqb_refl.
    + by rewrite (IH Hnd Hin).
Qed.

(** X19. With entity types of five different names, an entity passes
    [TestEntity] when its type and its id are not empty and every field its
    type requires is set. *)
Theorem TestEntity_accepts_complete ent fields :
  NoDup [destination; park; attraction; show; restaurant] →
  truthy (field ent "entityType") = true →
  truthy (field ent "_id") = true →
  (to_string (field ent "entityType"), fields) ∈ requiredFields →
  (∀ f, f ∈ fields → field ent f ≠ Undefined) →
  TestEntity ent = None.
Proof.
  intros Hnd Ht Hi Hin Hall. unfold TestScript.TestEntity.
  rewrite Ht, Hi. cbn [negb]. unfold lookup_required.
  rewrite (own_unique _ _ fields); [|exact Hnd|exact Hin].
  by apply check_fields_complete.
Qed.

End Entities.

(** ** The example *)

Lemma TestEntity_accepts_only_complete_witness :
  TestEntity "DESTINATION" "PARK" "ATTRACTION" "SHOW" "RESTAURANT" demo_park
  = None
  ∧ field demo_park "timezone" ≠ Undefined
  ∧ field demo_park "name" ≠ Undefined.
Proof.
  assert (TestEntity "DESTINATION" "PARK" "ATTRACTION" "SHOW" "RESTAURANT"
            demo_park = None) as H by (vm_compute; reflexivity).
  destruct (TestEntity_accepts_only_complete _ _ _ _ _ _ H)
    as (_ & _ & Htz & Hname & _).
  split_and!; [exact H|exact Htz|exact Hname].
Defined.

Lemma TestEntity_accepts_null_witness :
  TestEntity "DESTINATION" "PARK" "ATTRACTION" "SHOW" "RESTAURANT" demo_park
  = None
  ∧ TestEntity "DESTINATION" "PARK" "ATTRACTION" "SHOW" "RESTAURANT"
      (<["name" := Null]> demo_park)
    = None.
Proof.
  assert (TestEntity "DESTINATION" "PARK" "ATTRACTION" "SHOW" "RESTAURANT"
            demo_park = None) as H by (vm_compute; reflexivity).
  split; [exact H|].
  apply TestEntity_accepts_null; [discriminate|discriminate|exact H].
Defined.

Lemma TestEntity_accepts_complete_witness :
  NoDup ["DESTINATION"; "PARK"; "ATTRACTION"; "SHOW"; "RESTAURANT"]
  ∧ truthy (field demo_park "entityType") = true
  ∧ truthy (field demo_park "_id") = true
  ∧ (to_string (field demo_park "entityType"),
     _requiredFields ++ ["slug"; "_parentId"; "_destinationId"])
    ∈ requiredFields "DESTINATION" "PARK" "ATTRACTION" "SHOW" "RESTAURANT"
  ∧ (∀ f, f ∈ _requiredFields ++ ["slug"; "_parentId"; "_destinationId"] →
          field demo_park f ≠ Undefined)
  ∧ TestEntity "DESTINATION" "PARK" "ATTRACTION" "SHOW" "RESTAURANT" demo_park
    = None.
Proof.
  assert (NoDup ["DESTINATION"; "PARK"; "ATTRACTION"; "SHOW"; "RESTAURANT"])
    as Hnd by compute_done.
  assert ((to_string (field demo_park "entityType"),
           _requiredFields ++ ["slug"; "_parentId"; "_destinationId"])
          ∈ requiredFields "DESTINATION" "PARK" "ATTRACTION" "SHOW"
              "RESTAURANT") as Hin by (right; by left).
  assert (∀ f, f ∈ _requiredFields ++ ["slug"; "_parentId"; "_destinationId"]
               → field demo_park f ≠ Undefined) as Hall.
  { intros f Hf.
    repeat (apply elem_of_cons in Hf as [->|Hf]; [by vm_compute|]).
    by apply elem_of_nil in Hf. }
  split_and!; [exact Hnd|reflexivity|reflexivity|exact Hin|exact Hall|].
  exact (TestEntity_accepts_complete _ _ _ _ _ demo_park _ Hnd eq_refl
           eq_refl Hin Hall).
Defined.

End TestScript_facts.

(** * Examples *)

#[local] Existing Instance line_codec.

Local Ltac by_run := vm_compute; reflexivity.


Lemma demo_new_reachable : reachable demo_new.
Proof. exists demo_options, ∅, ∅, demo_remote, 0%N, []. by_run. Qed.


(** C2: three calls of [init()] on the new store. *)
Lemma init_single_flight_witness :
  reachable demo_new ∧ synced demo_new = false
  ∧ run demo_inits_run (calls 3 (init Client) demo_new).2 = Some demo_inits
  ∧ syncs demo_inits ≤ 1 ∧ replicates demo_inits ≤ 1
  ∧ ∃ p, initPromiseSync (calls 3 (init Client) demo_new).2 = Some p
      ∧ ∀ q o,
          q ∈ (calls 3 (init Client) demo_new).1 → settled demo_inits q o →
          ∃ o', settled demo_inits p o' ∧ same_outcome o' o.
Proof.
  assert (run demo_inits_run (calls 3 (init Client) demo_new).2
          = Some demo_inits) as Hrun by by_run.
  assert (synced demo_new = false) as Hsy by by_run.
  destruct (init_single_flight demo_new Client 2 demo_inits_run demo_inits
              demo_new_reachable Hsy Hrun) as (H1 & H2 & H3).
  split_and!;
    [exact demo_new_reachable|exact Hsy|exact Hrun|exact H1|exact H2
    |exact H3].
Defined.

(** C3: the replication of the first [init()] fails. *)
Lemma init_failure_is_permanent_witness :
  reachable demo_replicating
  ∧ ops demo_replicating !! 1 = Some (7, OpReplicate)
  ∧ step (Complete 1 (Failed (External "offline") [])) demo_replicating
    = Some demo_offline
  ∧ run [Resume 3; Resume 2] demo_offline = Some demo_unsynced
  ∧ initPromiseSync demo_unsynced = Some 5
  ∧ settled demo_unsynced 6 (Rejected (External "offline"))
  ∧ ∃ h, initPromiseSync demo_unsynced = Some h
       ∧ synced demo_unsynced = false
       ∧ replicates demo_unsynced = replicates demo_replicating
       ∧ replicates (get "A" demo_unsynced).2 = replicates demo_replicating.
Proof.
  assert (reachable demo_replicating) as Hr.
  { exists demo_options, ∅, ∅, demo_remote, 0%N,
      [CallInit; Complete 1 Done; Resume 2; Resume 2]. by_run. }
  assert (ops demo_replicating !! 1 = Some (7, OpReplicate)) as Hop by by_run.
  assert (step (Complete 1 (Failed (External "offline") [])) demo_replicating
          = Some demo_offline) as Hs by by_run.
  assert (run [Resume 3; Resume 2] demo_offline = Some demo_unsynced)
    as Hrun by by_run.
  split_and!; [exact Hr|exact Hop|exact Hs|exact Hrun|by_run|by_run|].
  destruct (init_failure_is_permanent _ _ _ _ _ _ _ _ "A" Hr Hop Hs Hrun)
    as (h & _ & H1 & H2 & _ & H3 & _ & _ & _ & _ & H4 & _).
  exists h. split_and!; assumption.
Defined.









(** C9: the write of a dump of the synced store fails. *)
Lemma dump_failure_is_permanent_witness :
  reachable demo_dumping
  ∧ ops demo_dumping !! 1 = Some (11, OpDump "localdb/wdw_new.db")
  ∧ step (Complete 1 (Failed (External "ENOSPC") [Byte.x41])) demo_dumping
    = Some demo_disk_full
  ∧ run [Resume 2] demo_disk_full = Some demo_dump_failed
  ∧ databaseDumpPendingPromise demo_dump_failed = Some 11
  ∧ settled demo_dump_failed 11 (Rejected (External "ENOSPC"))
  ∧ writes demo_dump_failed = writes demo_disk_full
  ∧ writes (dump Scheduler demo_dump_failed).2 = writes demo_dump_failed.
Proof.
  assert (reachable demo_dumping) as Hr.
  { exists demo_options, ∅, ∅, demo_remote, 0%N, (demo_sync ++ [CallDump]).
    by_run. }
  assert (ops demo_dumping !! 1 = Some (11, OpDump "localdb/wdw_new.db"))
    as Hop by by_run.
  assert (step (Complete 1 (Failed (External "ENOSPC") [Byte.x41]))
            demo_dumping = Some demo_disk_full) as Hs by by_run.
  assert (run [Resume 2] demo_disk_full = Some demo_dump_failed)
    as Hrun by by_run.
  destruct (dump_failure_is_permanent _ _ _ _ _ _ _ _ _ Scheduler
              Hr Hop Hs Hrun) as (H1 & H2 & H3 & H4 & _).
  split_and!;
    [exact Hr|exact Hop|exact Hs|exact Hrun|exact H1|exact H2|exact H3
    |exact H4].
Defined.

(** C10: a second [dump()] while the write of the first is in flight. *)
Lemma dump_joiner_settles_before_rename_witness :
  reachable demo_dumping
  ∧ ops demo_dumping !! 1 = Some (11, OpDump "localdb/wdw_new.db")
  ∧ ops (dump Client demo_dumping).2 = ops demo_dumping
  ∧ files (dump Client demo_dumping).2 = files demo_dumping
  ∧ renames (dump Client demo_dumping).2 = renames demo_dumping.
Proof.
  assert (reachable demo_dumping) as Hr.
  { exists demo_options, ∅, ∅, demo_remote, 0%N, (demo_sync ++ [CallDump]).
    by_run. }
  assert (ops demo_dumping !! 1 = Some (11, OpDump "localdb/wdw_new.db"))
    as Hop by by_run.
  destruct (dump_joiner_settles_before_rename _ _ _ _ Client Hr Hop)
    as (H1 & H2 & _ & H3 & _).
  split_and!; [exact Hr|exact Hop|exact H1|exact H2|exact H3].
Defined.

(** ** More of the store *)

(** The store made with no name and no checkpoint time. *)
Lemma config_is_fixed_witness :
  run demo_sync (construct demo_options ∅ ∅ demo_remote 0) = Some demo_synced
  ∧ dbName demo_options = EmptyString
  ∧ checkpointTime demo_options = 0%N
  ∧ dbName (cfg demo_synced) = "wdw"
  ∧ checkpointTime (cfg demo_synced) = 900000%N.
Proof.
  assert (run demo_sync (construct demo_options ∅ ∅ demo_remote 0)
          = Some demo_synced) as Hrun by by_run.
  destruct (config_is_fixed _ _ _ _ _ _ _ Hrun)
    as (_ & _ & _ & _ & Hn & _ & Ht).
  split_and!; [exact Hrun|reflexivity|reflexivity|exact (Hn eq_refl)
              |exact (Ht eq_refl)].
Defined.


(** The new store has no snapshot to load. *)
Lemma load_without_snapshot_witness :
  files demo_new !! canonical demo_new = None
  ∧ ∃ s',
      run [Complete (length (ops demo_new)) Done;
           Resume (length (frames demo_new))] (load Client demo_new).2
      = Some s'
      ∧ settled s' (load Client demo_new).1 (Fulfilled VUndefined)
      ∧ localDB s' = localDB demo_new.
Proof.
  assert (files demo_new !! canonical demo_new = None) as H by by_run.
  split; [exact H|].
  destruct (load_without_snapshot demo_new Client H)
    as (s' & Hrun & Hset & Hdb & _).
  exists s'. split_and!; [exact Hrun|exact Hset|exact Hdb].
Defined.

(** The restarted store loads the snapshot of the synced store. *)
Lemma load_restores_snapshot_witness :
  files demo_restarted !! canonical demo_restarted
  = Some (encode (localDB demo_synced))
  ∧ decode (encode (localDB demo_synced)) = Some (localDB demo_synced)
  ∧ localDB demo_restarted = ∅
  ∧ ∃ s',
      run [Complete (length (ops demo_restarted)) Done;
           Resume (length (frames demo_restarted));
           Complete (length (ops demo_restarted)) Done;
           Resume (length (frames demo_restarted))]
        (load Client demo_restarted).2 = Some s'
      ∧ settled s' (load Client demo_restarted).1 (Fulfilled VOk)
      ∧ localDB s' = localDB demo_synced.
Proof.
  assert (files demo_restarted !! canonical demo_restarted
          = Some (encode (localDB demo_synced))) as Hf by by_run.
  assert (decode (encode (localDB demo_synced)) = Some (localDB demo_synced))
    as Hd by by_run.
  assert (localDB demo_restarted = ∅) as He by by_run.
  split_and!; [exact Hf|exact Hd|exact He|].
  destruct (load_restores_snapshot demo_restarted Client _ _ Hf Hd)
    as (s' & Hrun & Hset & _ & Hdb & _).
  exists s'. split_and!; [exact Hrun|exact Hset|exact (Hdb He)].
Defined.


(** The load of the restarted store fails. *)
Lemma init_fails_with_load_witness :
  synced demo_restarted = false
  ∧ initPromiseSync demo_restarted = None
  ∧ files demo_restarted !! canonical demo_restarted
    = Some (encode (localDB demo_synced))
  ∧ ∃ s',
      settled s' (init Client demo_restarted).1 (Rejected (External "EIO"))
      ∧ synced s' = false
      ∧ replicates s' = replicates demo_restarted.
Proof.
  assert (synced demo_restarted = false) as Hs by by_run.
  assert (initPromiseSync demo_restarted = None) as Hi by by_run.
  assert (files demo_restarted !! canonical demo_restarted
          = Some (encode (localDB demo_synced))) as Hf by by_run.
  split_and!; [exact Hs|exact Hi|exact Hf|].
  destruct (init_fails_with_load demo_restarted Client _ (External "EIO") []
              Hs Hi Hf)
    as (s' & _ & Hset & Hsy & _ & Hrep & _).
  exists s'. split_and!; [exact Hset|exact Hsy|exact Hrep].
Defined.

(** The first [init()] of the new store. *)
Lemma init_synchronises_witness :
  synced demo_new = false
  ∧ initPromiseSync demo_new = None
  ∧ databaseDumpPendingPromise demo_new = None
  ∧ files demo_new !! canonical demo_new = None
  ∧ ∃ s',
      settled s' (init Client demo_new).1 (Fulfilled VUndefined)
      ∧ synced s' = true
      ∧ localDB s' = replicate_into (remoteDB demo_new) (localDB demo_new)
      ∧ files s' !! canonical demo_new = Some (encode (localDB s'))
      ∧ live s' = S (live demo_new).
Proof.
  assert (synced demo_new = false) as Hs by by_run.
  assert (initPromiseSync demo_new = None) as Hi by by_run.
  assert (databaseDumpPendingPromise demo_new = None) as Hh by by_run.
  assert (files demo_new !! canonical demo_new = None) as Hf by by_run.
  split_and!; [exact Hs|exact Hi|exact Hh|exact Hf|].
  destruct (init_synchronises demo_new Client Hs Hi Hh Hf)
    as (s' & _ & Hset & Hsy & _ & _ & Hlive & Hdb & _ & Hfile & _).
  exists s'. split_and!; [exact Hset|exact Hsy|exact Hdb|exact Hfile
                         |exact Hlive].
Defined.

(** A dump of the synced store. *)
Lemma dump_writes_snapshot_witness :
  databaseDumpPendingPromise demo_synced = None
  ∧ ∃ s',
      settled s' (dump Client demo_synced).1 (Fulfilled VUndefined)
      ∧ files s' !! canonical demo_synced
        = Some (encode (localDB demo_synced))
      ∧ files s' !! temporary demo_synced = None.
Proof.
  assert (databaseDumpPendingPromise demo_synced = None) as Hh by by_run.
  split; [exact Hh|].
  destruct (dump_writes_snapshot demo_synced Client Client Hh)
    as (s' & _ & Hset & Hfile & Htmp & _).
  exists s'. split_and!; [exact Hset|exact Hfile|exact Htmp].
Defined.

(** The rename of a dump of the synced store fails. *)
Lemma dump_rename_failure_is_not_permanent_witness :
  databaseDumpPendingPromise demo_synced = None
  ∧ ∃ s',
      settled s' (dump Client demo_synced).1 (Rejected (External "EXDEV"))
      ∧ databaseDumpPendingPromise s' = None
      ∧ writes (dump Client s').2 = S (writes s').
Proof.
  assert (databaseDumpPendingPromise demo_synced = None) as Hh by by_run.
  split; [exact Hh|].
  destruct (dump_rename_failure_is_not_permanent demo_synced Client Client
              (External "EXDEV") [] Hh)
    as (s' & _ & Hset & _ & _ & Hnone & Hw).
  exists s'. split_and!; [exact Hset|exact Hnone|exact Hw].
Defined.
